(** * bmpsss: (k,n) threshold secret image sharing over GF(257)

    A shallow embedding of [src/bmpsss.c] and the verification of its
    specification.  C integers are modelled as [Z] with the wrap-around of
    their width written out, arrays as lists, the process-global PRNG state
    by explicit state passing, and undefined behaviour (an access outside an
    array, a [double] that does not fit the integer it is converted to) as
    the outcome [Undefined]. *)

From Stdlib Require Import ZArith List Lia Bool Arith Znumtheory.
From Stdlib Require Import Morphisms Setoid.
Import ListNotations.
Local Open Scope Z_scope.

(** ** Machine integers *)

Module CInt.

(** Conversion to an unsigned integer of [w] bits. *)
Definition unsigned (w x : Z) : Z := x mod 2 ^ w.

(** Two's complement wrap-around of a signed integer of [w] bits. *)
Definition signed (w x : Z) : Z := (x + 2 ^ (w - 1)) mod 2 ^ w - 2 ^ (w - 1).

Definition u8  := unsigned 8.
Definition u16 := unsigned 16.
Definition u32 := unsigned 32.
Definition u64 := unsigned 64.
Definition i32 := signed 32.
Definition i64 := signed 64.

(** The [%] of C on signed operands truncates towards zero. *)
Definition crem (a b : Z) : Z := Z.rem a b.

End CInt.
Import CInt.

(** ** Outcomes of a run, and the [for] loops of C *)

(** A run ends with a value, or it meets undefined behaviour, or the fuel that
    bounds the only unbounded loop of the program (the [goto step4] of
    [formshadows]) is exhausted. *)
Inductive result (A : Type) : Type :=
| Ok (a : A)
| Undefined
| OutOfFuel.
Arguments Ok {A} a.
Arguments Undefined {A}.
Arguments OutOfFuel {A}.

Definition bind {A B} (m : result A) (f : A -> result B) : result B :=
  match m with
  | Ok a => f a
  | Undefined => Undefined
  | OutOfFuel => OutOfFuel
  end.

Notation "x <- m ;; f" := (bind m (fun x => f))
  (at level 61, m at next level, right associativity).
Notation "' pat <- m ;; f" := (bind m (fun x => match x with pat => f end))
  (at level 61, pat pattern, m at next level, right associativity).

(** [for (i = lo; i < lo + cnt; i++) body] *)
Fixpoint for_up {S} (cnt lo : nat) (body : nat -> S -> result S) (s : S)
  : result S :=
  match cnt with
  | O => Ok s
  | Datatypes.S c => s' <- body lo s ;; for_up c (Datatypes.S lo) body s'
  end.

Definition for_ {S} (lo hi : nat) (body : nat -> S -> result S) (s : S) :=
  for_up (hi - lo) lo body s.

(** [for (i = lo + cnt; i > lo; i--) body] *)
Fixpoint for_dn {S} (cnt lo : nat) (body : nat -> S -> result S) (s : S)
  : result S :=
  match cnt with
  | O => Ok s
  | Datatypes.S c => s' <- body (lo + cnt)%nat s ;; for_dn c lo body s'
  end.

Definition for_down {S} (hi lo : nat) (body : nat -> S -> result S) (s : S) :=
  for_dn (hi - lo) lo body s.

(** Array read and write; outside the array both are undefined. *)
Definition load {A} (l : list A) (i : nat) : result A :=
  match nth_error l i with
  | Some a => Ok a
  | None => Undefined
  end.

Fixpoint store {A} (l : list A) (i : nat) (v : A) : result (list A) :=
  match l, i with
  | [], _ => Undefined
  | _ :: t, O => Ok (v :: t)
  | h :: t, Datatypes.S i' => t' <- store t i' v ;; Ok (h :: t')
  end.

(** Modelled from the spec: [xmalloc] is declared in [util.h], which is not
    part of the sources; the specification has a new bitmap start with
    "zeroed pixels", so a fresh block reads as zeros. *)
Definition xmalloc (n : Z) : list Z := repeat 0 (Z.to_nat n).

(** ** Constants *)

Definition BMP_HEADER_SIZE : Z := 14.
Definition DIB_HEADER_SIZE : Z := 40.
Definition PALETTE_SIZE : Z := 1024.
Definition PIXEL_ARRAY_OFFSET : Z :=
  BMP_HEADER_SIZE + DIB_HEADER_SIZE + PALETTE_SIZE.
Definition BITS_PER_PIXEL : Z := 8.
Definition PRIME : Z := 257.
Definition RIGHTMOST_BIT_ON (x : Z) : Z := Z.lor x 1.
Definition RIGHTMOST_BIT_OFF (x : Z) : Z := Z.land x 254.

(** The table of multiplicative inverses modulo 257. *)
Definition modinv : list Z :=
  [ 0; 1; 129; 86; 193; 103; 43; 147; 225; 200; 180; 187; 150; 178; 202; 120;
    241; 121; 100; 230; 90; 49; 222; 190; 75; 72; 89; 238; 101; 195; 60; 199;
    249; 148; 189; 235; 50; 132; 115; 145; 45; 163; 153; 6; 111; 40; 95; 175;
    166; 21; 36; 126; 173; 97; 119; 243; 179; 248; 226; 61; 30; 59; 228; 102;
    253; 87; 74; 234; 223; 149; 246; 181; 25; 169; 66; 24; 186; 247; 201; 244;
    151; 165; 210; 96; 205; 127; 3; 65; 184; 26; 20; 209; 176; 152; 216; 46; 83;
    53; 139; 135; 18; 28; 63; 5; 215; 164; 177; 245; 188; 224; 250; 44; 218;
    116; 124; 38; 113; 134; 159; 54; 15; 17; 158; 140; 114; 220; 51; 85; 255; 2;
    172; 206; 37; 143; 117; 99; 240; 242; 203; 98; 123; 144; 219; 133; 141; 39;
    213; 7; 33; 69; 12; 80; 93; 42; 252; 194; 229; 239; 122; 118; 204; 174; 211;
    41; 105; 81; 48; 237; 231; 73; 192; 254; 130; 52; 161; 47; 92; 106; 13; 56;
    10; 71; 233; 191; 88; 232; 76; 11; 108; 34; 23; 183; 170; 4; 155; 29; 198;
    227; 196; 31; 9; 78; 14; 138; 160; 84; 131; 221; 236; 91; 82; 162; 217; 146;
    251; 104; 94; 212; 112; 142; 125; 207; 22; 68; 109; 8; 58; 197; 62; 156; 19;
    168; 185; 182; 67; 35; 208; 167; 27; 157; 136; 16; 137; 55; 79; 107; 70; 77;
    57; 32; 110; 214; 154; 64; 171; 128; 256 ].

(** [modinv[v]]: the index is a value of the matrix, so the read is guarded. *)
Definition modinv_at (v : Z) : result Z :=
  if v <? 0 then Undefined else load modinv (Z.to_nat v).

(** Modelled from the spec: [mod] is declared in [util.h], which is not part
    of the sources; the specification gives it as the Euclidean remainder,
    "always non-negative, accepting negatives". *)
Definition mod_ (x m : Z) : Z := x mod m.

(** ** The pseudo-random generator *)

(** The generator keeps its state in the global [rseed]; here the state is
    passed explicitly. *)
Definition setseed (s : Z) : Z :=
  Z.land (Z.lxor s 25214903917) 281474976710655.

(** [nextbyte rseed] is the new state and the value returned. *)
Definition nextbyte (rseed : Z) : Z * Z :=
  let rseed' := Z.land (i64 (i64 (rseed * 25214903917) + 11)) 281474976710655 in
  let n := Z.shiftr rseed' (48 - 31) in
  (rseed', i32 (Z.shiftr (i64 (256 * n)) 31)).

(** The loop of [randomtable]: [table[i] = nextbyte()]. *)
Fixpoint filltable (cnt : nat) (rseed : Z) : list Z :=
  match cnt with
  | O => []
  | S c => let '(rseed', b) := nextbyte rseed in u8 b :: filltable c rseed'
  end.

(** [randomtable] seeds the generator itself, so the state it starts from
    does not matter, and nothing reads the state it leaves before the next
    [setseed]. *)
Definition randomtable (tablesize : Z) (seed : Z) : list Z :=
  filltable (Z.to_nat tablesize) (setseed seed).

(** The generator as the specification words it. *)
Module SpecPRNG.
Definition seed (s : Z) : Z := Z.land (Z.lxor s 25214903917) (2 ^ 48 - 1).
Definition nextByte (S : Z) : Z * Z :=
  let S' := Z.land (S * 25214903917 + 11) (2 ^ 48 - 1) in
  let n := Z.shiftr S' 17 in
  (S', Z.shiftr (256 * n) 31).
Fixpoint stream (len : nat) (S : Z) : list Z :=
  match len with
  | O => []
  | Datatypes.S l => let '(S', b) := nextByte S in b :: stream l S'
  end.
Definition mask (s : Z) (len : nat) : list Z := stream len (seed s).
End SpecPRNG.

(** ** Bitmaps *)

Module BMPheader.
Record t := mk {
  id : Z * Z;     (* magic number to identify the BMP format *)
  size : Z;       (* size of the BMP file in bytes *)
  unused1 : Z;    (* key (seed) *)
  unused2 : Z;    (* shadow number *)
  offset : Z      (* starting address of the pixel array *)
}.
End BMPheader.

Module DIBheader.
Record t := mk {
  size : Z;
  width : Z;
  height : Z;
  nplanes : Z;
  depth : Z;
  compression : Z;
  pixelarraysize : Z;
  hres : Z;
  vres : Z;
  ncolors : Z;
  nimpcolors : Z
}.
End DIBheader.

Record Bitmap := mkBitmap {
  bmpheader : BMPheader.t;
  dibheader : DIBheader.t;
  palette : list Z;
  imgpixels : list Z
}.

Definition set_imgpixels (bp : Bitmap) (px : list Z) : Bitmap :=
  mkBitmap (bmpheader bp) (dibheader bp) (palette bp) px.

(** Calculates needed pixelarraysize, accounting for padding; the arithmetic
    is that of [uint32_t]. *)
Definition calculatepixelarraysize (width height : Z) : Z :=
  u32 (u32 (u32 (u32 (BITS_PER_PIXEL * width) + 31) / 32 * 4) * u32 height).

(** The default 8-bit greyscale palette. *)
Definition initpalette : list Z :=
  flat_map (fun i => [u8 i; u8 i; u8 i; 0]) (map Z.of_nat (seq 0 256)).

Definition newbitmaphelper (width height seed shadnum pixelarraysize : Z)
  : Bitmap :=
  {| bmpheader :=
       {| BMPheader.id := (66, 77);
          BMPheader.size := u32 (PIXEL_ARRAY_OFFSET + pixelarraysize);
          BMPheader.unused1 := seed;
          BMPheader.unused2 := shadnum;
          BMPheader.offset := PIXEL_ARRAY_OFFSET |};
     dibheader :=
       {| DIBheader.size := DIB_HEADER_SIZE;
          DIBheader.width := width;
          DIBheader.height := height;
          DIBheader.nplanes := 1;
          DIBheader.depth := BITS_PER_PIXEL;
          DIBheader.compression := 0;
          DIBheader.pixelarraysize := pixelarraysize;
          DIBheader.hres := 0;
          DIBheader.vres := 0;
          DIBheader.ncolors := 0;
          DIBheader.nimpcolors := 0 |};
     palette := initpalette;
     imgpixels := xmalloc pixelarraysize |}.

Definition newbitmap (width height seed : Z) : Bitmap :=
  newbitmaphelper width height seed 0 (calculatepixelarraysize width height).

Definition newshadow (width height seed shadownumber : Z) : Bitmap :=
  newbitmaphelper width height seed shadownumber (u32 (width * u32 height)).

Definition bmpimagesize (bp : Bitmap) : Z :=
  let sz := BMPheader.size (bmpheader bp) in
  if 0 <? sz
  then u32 (BMPheader.size (bmpheader bp) - BMPheader.offset (bmpheader bp))
  else DIBheader.pixelarraysize (dibheader bp).

(** The loop of [findclosestpair]: [for (; y > 2; y--) if (x % y == 0) ...]. *)
Fixpoint closestpair (y : nat) (x : Z) : option (Z * Z) :=
  match y with
  | S (S (S _) as y') =>
      if x mod Z.of_nat y =? 0
      then Some (Z.of_nat y, i32 (x / Z.of_nat y))
      else closestpair y' x
  | _ => None
  end.

(** [findclosestpair x] is the pair written to [*width] and [*height]; when
    it is [None] the function returns with both untouched.  [floor (sqrt x)]
    on the [double] nearest to a 32-bit [x] is the integer square root. *)
Definition findclosestpair (x : Z) : option (Z * Z) :=
  closestpair (Z.to_nat (Z.sqrt x)) x.

(** ** The whitening mask *)

Definition xorbmpwithrandomtable (bmp : Bitmap) (seed : Z) : result Bitmap :=
  let imgsize := bmpimagesize bmp in
  let table := randomtable imgsize seed in
  px <- for_ 0 (Z.to_nat imgsize) (fun i px =>
          p <- load px i ;;
          t <- load table i ;;
          store px i (u8 (Z.lxor p t))) (imgpixels bmp) ;;
  Ok (set_imgpixels bmp px).

(** ** The [double] arithmetic of [formshadows]

    [formshadows] evaluates its polynomials with [pow] from [tgmath.h] and
    accumulates them in a [uint64_t]; every intermediate value is a [double].
    All of them are non-negative integers, infinity or NaN, so a finite
    [double] is represented by the integer it denotes, and an operation by the
    exact integer result rounded to the 53 significant bits of binary64
    (nearest, ties to even), overflowing to infinity from 2^1024 on.  [pow] is
    taken to round correctly, in particular to be exact whenever the power is
    representable. *)

Module Double.

Inductive t : Type :=
| Fin (v : Z)
| Inf
| NaN.

Definition round53 (x : Z) : Z :=
  if x <? 2 ^ 53 then x
  else
    let e := Z.log2 x - 52 in
    let q := Z.shiftr x e in
    let r := Z.land x (Z.ones e) in
    let half := Z.shiftl 1 (e - 1) in
    let q' := if r <? half then q
              else if half <? r then q + 1
              else if Z.even q then q else q + 1 in
    Z.shiftl q' e.

(** Conversion of a non-negative integer to [double]. *)
Definition of_Z (x : Z) : t :=
  if round53 x <? 2 ^ 1024 then Fin (round53 x) else Inf.

Definition mul (a b : t) : t :=
  match a, b with
  | NaN, _ | _, NaN => NaN
  | Fin x, Fin y => of_Z (x * y)
  | Inf, Fin y => if y =? 0 then NaN else Inf
  | Fin x, Inf => if x =? 0 then NaN else Inf
  | Inf, Inf => Inf
  end.

Definition add (a b : t) : t :=
  match a, b with
  | NaN, _ | _, NaN => NaN
  | Fin x, Fin y => of_Z (x + y)
  | _, _ => Inf
  end.

(** [pow x r] for integers [x >= 1] and [r >= 0]. *)
Definition pow (x : Z) (r : nat) : t := of_Z (x ^ Z.of_nat r).

(** Conversion to [uint64_t]: undefined unless the value fits. *)
Definition to_u64 (d : t) : result Z :=
  match d with
  | Fin v => if v <? 2 ^ 64 then Ok v else Undefined
  | _ => Undefined
  end.

End Double.

(** ** Sharing *)

(** decrease the first non-zero coefficient by one.  [coeff] points into the
    pixel array: it is the array from the pointed element on, and the scan
    [while (coeff[i] == 0) i++] is undefined if it leaves the array. *)
Fixpoint decreasecoeff (coeff : list Z) : result (list Z) :=
  match coeff with
  | [] => Undefined
  | c :: rest =>
      if c =? 0
      then rest' <- decreasecoeff rest ;; Ok (c :: rest')
      else Ok (u8 (c - 1) :: rest)
  end.

(** The body of the loop over the shadows: the section polynomial with the
    coefficients [coeff[0]] to [coeff[k-1]] at [x = i + 1]. *)
Definition shadowpixel (coeff : list Z) (k i : nat) : result Z :=
  value <- for_ 0 k (fun r value =>
             c <- load coeff r ;;
             Double.to_u64
               (Double.add (Double.of_Z value)
                  (Double.mul (Double.of_Z c) (Double.pow (Z.of_nat i + 1) r))))
             0 ;;
  Ok (u16 (value mod PRIME)).

(** From the label [step4] to the end of the loop that looks for a 256:
    the coefficients as they are left, and the pixels of the [n] shadows. *)
Fixpoint step4 (fuel : nat) (coeff : list Z) (k n : nat)
  : result (list Z * list Z) :=
  match fuel with
  | O => OutOfFuel
  | S fuel' =>
      pixels <- for_ 0 n (fun i pixels =>
                  v <- shadowpixel coeff k i ;;
                  store pixels i v) (xmalloc (Z.of_nat n)) ;;
      if existsb (Z.eqb 256) pixels
      then coeff' <- decreasecoeff coeff ;; step4 fuel' coeff' k n
      else Ok (coeff, pixels)
  end.

(** The number of [j] with [j * k < pixelarraysize]. *)
Definition ngroups (pixelarraysize : Z) (k : nat) : nat :=
  Z.to_nat ((pixelarraysize + Z.of_nat k - 1) / Z.of_nat k).

(** [formshadows] writes through [bp->imgpixels] when it repairs
    coefficients, so the bitmap it leaves is returned with the shadows. *)
Definition formshadows (fuel : nat) (bp : Bitmap) (k n : nat) (seed : Z)
  : result (Bitmap * list Bitmap) :=
  let pixelarraysize := bmpimagesize bp in
  if (k =? 0)%nat then Undefined
  else
    match findclosestpair (pixelarraysize / Z.of_nat k) with
    | None => Undefined (* width and height are read uninitialised *)
    | Some (width, height) =>
        let shadows :=
          map (fun i => newshadow width height seed (u16 (Z.of_nat i + 1)))
              (seq 0 n) in
        '(img, shadows) <-
          for_ 0 (ngroups pixelarraysize k) (fun j '(img, shadows) =>
            '(coeff, pixels) <- step4 fuel (skipn (j * k) img) k n ;;
            let img := firstn (j * k) img ++ coeff in
            shadows <- for_ 0 n (fun i shadows =>
                         sp <- load shadows i ;;
                         p <- load pixels i ;;
                         px <- store (imgpixels sp) j (u8 p) ;;
                         store shadows i (set_imgpixels sp px)) shadows ;;
            Ok (img, shadows)) (imgpixels bp, shadows) ;;
        Ok (set_imgpixels bp img, shadows)
    end.

(** ** Reconstruction *)

Definition matrix := list (list Z).

Definition mget (mat : matrix) (i t : nat) : result Z :=
  row <- load mat i ;; load row t.

Definition mset (mat : matrix) (i t : nat) (v : Z) : result matrix :=
  row <- load mat i ;;
  row' <- store row t v ;;
  store mat i row'.

(** One step of the forward elimination: row [i] minus a multiple of
    row [i-1], from column [j] on. *)
Definition eliminate (k j i : nat) (mat : matrix) : result matrix :=
  mij <- mget mat i j ;;
  piv <- mget mat (i - 1) j ;;
  inv <- modinv_at piv ;;
  let a := i32 (mij * inv) in
  for_ j (k + 1) (fun t mat =>
    mit <- mget mat i t ;;
    mpt <- mget mat (i - 1) t ;;
    let temp := i32 (mit - crem (i32 (mpt * a)) PRIME) in
    mset mat i t (mod_ temp PRIME)) mat.

(** take matrix to echelon form *)
Definition echelon (k : nat) (mat : matrix) : result matrix :=
  for_ 0 (k - 1) (fun j mat => for_down (k - 1) j (eliminate k j) mat) mat.

(** One step of the back substitution, for the row [i]. *)
Definition substitute (k i : nat) (mat : matrix) : result matrix :=
  mik <- mget mat i k ;;
  mii <- mget mat i i ;;
  inv <- modinv_at mii ;;
  mat <- mset mat i k (crem (i32 (mik * inv)) PRIME) ;;
  mii <- mget mat i i ;;
  inv <- modinv_at mii ;;
  mat <- mset mat i i (crem (i32 (mii * inv)) PRIME) ;;
  for_down i 0 (fun t1 mat =>
    let t := (t1 - 1)%nat in
    mtk <- mget mat t k ;;
    mik <- mget mat i k ;;
    mti <- mget mat t i ;;
    let temp := i32 (mtk - crem (i32 (mik * mti)) PRIME) in
    mat <- mset mat t k (mod_ temp PRIME) ;;
    mset mat t i 0) mat.

(** take matrix to reduced row echelon form *)
Definition reduce (k : nat) (mat : matrix) : result matrix :=
  for_down (k - 1) 0 (substitute k) mat.

(** With [k = 0] the bound [k-1] of the loops wraps around. *)
Definition findcoefficients (mat : matrix) (k : nat) : result matrix :=
  if (k =? 0)%nat then Undefined
  else mat <- echelon k mat ;; reduce k mat.

(** The row of the matrix for the shadow [sp] and the pixel [i]. *)
Definition fillrow (sp : Bitmap) (k i j : nat) (mat : matrix) : result matrix :=
  let value := BMPheader.unused2 (bmpheader sp) in
  mat <- mset mat j 0 1 ;;
  '(mat, _) <- for_ 1 k (fun t '(mat, value) =>
                 mat <- mset mat j t value ;;
                 Ok (mat, i32 (value * BMPheader.unused2 (bmpheader sp))))
               (mat, value) ;;
  p <- load (imgpixels sp) i ;;
  mset mat j k p.

(** The matrix for the pixel [i]: one row for each of the [k] shadows. *)
Definition fillmatrix (shadows : list Bitmap) (k i : nat) (mat : matrix)
  : result matrix :=
  for_ 0 k (fun j mat => sp <- load shadows j ;; fillrow sp k i j mat) mat.

Definition revealsecret (shadows : list Bitmap) (width height : Z) (k : nat)
  : result Bitmap :=
  first <- load shadows 0 ;;
  let pixels := DIBheader.pixelarraysize (dibheader first) in
  let bmp := newbitmap width height (BMPheader.unused1 (bmpheader first)) in
  let mat := repeat (xmalloc (Z.of_nat k + 1)) k in
  '(_, px) <-
    for_ 0 (Z.to_nat pixels) (fun i '(mat, px) =>
      mat <- fillmatrix shadows k i mat ;;
      mat <- findcoefficients mat k ;;
      px <- for_ (i * k) ((i + 1) * k) (fun j px =>
              v <- mget mat (j mod k) k ;;
              store px j (u8 v)) px ;;
      Ok (mat, px)) (mat, imgpixels bmp) ;;
  xorbmpwithrandomtable (set_imgpixels bmp px)
    (BMPheader.unused1 (bmpheader first)).

(** ** Steganography *)

(** [hideshadow] ends by writing the carrier to [shadow<number>.bmp]; the
    bitmap written is the result. *)
Definition hideshadow (bp shadow : Bitmap) : result Bitmap :=
  let pixels := bmpimagesize shadow in
  let header :=
    {| BMPheader.id := BMPheader.id (bmpheader bp);
       BMPheader.size := BMPheader.size (bmpheader bp);
       BMPheader.unused1 := BMPheader.unused1 (bmpheader shadow);
       BMPheader.unused2 := BMPheader.unused2 (bmpheader shadow);
       BMPheader.offset := BMPheader.offset (bmpheader bp) |} in
  px <- for_ 0 (Z.to_nat pixels) (fun i px =>
          byte <- load (imgpixels shadow) i ;;
          '(px, _) <- for_ (i * 8) (8 * (i + 1)) (fun j '(px, byte) =>
                        p <- load px j ;;
                        px <- store px j
                                (if Z.land byte 128 =? 0
                                 then u8 (RIGHTMOST_BIT_OFF p)
                                 else u8 (RIGHTMOST_BIT_ON p)) ;;
                        Ok (px, u8 (Z.shiftl byte 1))) (px, byte) ;;
          Ok px) (imgpixels bp) ;;
  Ok (mkBitmap header (dibheader bp) (palette bp) px).

(** width and height parameters needed because the image hiding the shadow
    could be bigger than necessary.  The counters are [uint32_t]. *)
Definition retrieveshadow (bp : Bitmap) (width height : Z) (k : nat)
  : result Bitmap :=
  if (k =? 0)%nat then Undefined
  else
    let key := BMPheader.unused1 (bmpheader bp) in
    let shadownumber := BMPheader.unused2 (bmpheader bp) in
    let '(width, height) :=
      match findclosestpair
              (calculatepixelarraysize width height / Z.of_nat k) with
      | Some wh => wh
      | None => (width, height)
      end in
    let shadow := newshadow width height key shadownumber in
    let shadowpixels := DIBheader.pixelarraysize (dibheader shadow) in
    px <- for_ 0 (Z.to_nat shadowpixels) (fun i px =>
            '(byte, _) <-
              for_ (Z.to_nat (u32 (Z.of_nat i * 8)))
                   (Z.to_nat (u32 (8 * (Z.of_nat i + 1))))
                (fun j '(byte, mask) =>
                   p <- load (imgpixels bp) j ;;
                   Ok (if Z.land p 1 =? 0 then byte else u8 (Z.lor byte mask),
                       u8 (Z.shiftr mask 1))) (0, 128) ;;
            store px i byte) (imgpixels shadow) ;;
    Ok (set_imgpixels shadow px).

(** * Notions used by the statements and the proofs *)

(** [upd l i v] is [l] after [l[i] = v], for [i] inside [l]. *)
Fixpoint upd {A} (l : list A) (i : nat) (v : A) : list A :=
  match l, i with
  | [], _ => []
  | _ :: t, O => v :: t
  | h :: t, S i' => h :: upd t i' v
  end.

(** The values of [uint8_t]. *)
Definition byte (p : Z) : Prop := 0 <= p < 256.
Definition bytes (l : list Z) : Prop := Forall byte l.

(** A bitmap owns as many pixel bytes as [bmpimagesize] says. *)
Definition wf_bitmap (bp : Bitmap) : Prop :=
  bytes (imgpixels bp) /\ Z.of_nat (length (imgpixels bp)) = bmpimagesize bp.

(** [setlsb p bit] is the carrier byte [p] after [hideshadow] has put [bit]
    into it. *)
Definition setlsb (p : Z) (bit : bool) : Z :=
  if bit then u8 (RIGHTMOST_BIT_ON p) else u8 (RIGHTMOST_BIT_OFF p).

(** The number of pixels of the shadow that [retrieveshadow] allocates for a
    secret of [width] by [height] pixels shared with threshold [k]. *)
Definition retrievedsize (width height : Z) (k : nat) : Z :=
  let '(w, h) :=
    match findclosestpair
            (calculatepixelarraysize width height / Z.of_nat k) with
    | Some wh => wh
    | None => (width, height)
    end in
  u32 (w * u32 h).

(** The carrier pixel [m] once the shadow pixels [s] are hidden. *)
Definition hidden (orig s : list Z) (m : nat) : Z :=
  setlsb (nth m orig 0)
         (Z.testbit (nth (m / 8) s 0) (7 - Z.of_nat (m mod 8))).

(** The top [b] bits of the byte [s], and the mask of [retrieveshadow] after
    [b] shifts. *)
Definition topbits (s : Z) (b : nat) : Z :=
  Z.shiftl (Z.shiftr s (8 - Z.of_nat b)) (8 - Z.of_nat b).
Definition maskof (b : nat) : Z := Z.shiftr 128 (Z.of_nat b).

(** ** Concrete bitmaps for the examples *)

(** A bitmap of [width] by [height] pixels with the given pixel bytes. *)
Definition bitmap_of (width height : Z) (px : list Z) : Bitmap :=
  set_imgpixels (newbitmap width height 0) px.

(** A shadow of 3 by 4 pixels with the number 2 and the seed 691. *)
Definition shadow0 : Bitmap :=
  set_imgpixels (newshadow 3 4 691 2)
    [10; 216; 73; 181; 31; 109; 176; 133; 161; 214; 236; 98].

(** A carrier of 96 pixels. *)
Definition carrier0 : Bitmap :=
  bitmap_of 96 1 (map (fun n => Z.of_nat (n * 37 mod 256)) (seq 0 96)).

(** ** Matrices *)

(** The entry [mat[i][t]] and the matrix after [mat[i][t] = v]. *)
Definition entry (mat : matrix) (i t : nat) : Z := nth t (nth i mat []) 0.
Definition mupd (mat : matrix) (i t : nat) (v : Z) : matrix :=
  upd mat i (upd (nth i mat []) t v).

(** [k] rows of [k + 1] columns, as [revealsecret] allocates them. *)
Definition shape (k : nat) (mat : matrix) : Prop :=
  length mat = k /\ forall i, (i < k)%nat -> length (nth i mat []) = S k.

(** The share matrix of the specification: every entry is in [[0, 257)]. *)
Definition reduced (k : nat) (mat : matrix) : Prop :=
  forall i t, (i < k)%nat -> (t <= k)%nat -> 0 <= entry mat i t < PRIME.

(** The shadow number of a bitmap. *)
Definition shadownumber (sp : Bitmap) : Z := BMPheader.unused2 (bmpheader sp).

(** Three shadows with the numbers 17, 2 and 3, of one pixel each. *)
Definition shadows17 : list Bitmap :=
  [ set_imgpixels (newshadow 1 1 0 17) [5];
    set_imgpixels (newshadow 1 1 0 2) [6];
    set_imgpixels (newshadow 1 1 0 3) [7] ].

(** A matrix for [k = 2] whose rows have the same shadow number. *)
Definition samerows : matrix := [[1; 1; 5]; [1; 1; 9]].

(** The entry of the column [t] in the row of the shadow number [x] with
    the pixel [p], as [fillrow] leaves it when nothing overflows. *)
Definition sharerow (x p : Z) (k t : nat) : Z :=
  if (t =? k)%nat then p else x ^ Z.of_nat t.

(** ** Polynomials *)

(** [polyeval k coeff x] is [coeff[0] + coeff[1] x + ... + coeff[k-1] x^(k-1)],
    summed in the order of the loop of [formshadows]. *)
Fixpoint polyeval (k : nat) (coeff : list Z) (x : Z) : Z :=
  match k with
  | O => 0
  | S k' => polyeval k' coeff x + nth k' coeff 0 * x ^ Z.of_nat k'
  end.

(** The sum of the first [k] coefficients. *)
Fixpoint groupsum (k : nat) (coeff : list Z) : Z :=
  match k with
  | O => 0
  | S k' => groupsum k' coeff + nth k' coeff 0
  end.

(** The loop of [step4] that fills [pixels]. *)
Definition evalshadows (coeff : list Z) (k n : nat) : result (list Z) :=
  for_ 0 n (fun i pixels =>
              v <- shadowpixel coeff k i ;;
              store pixels i v) (xmalloc (Z.of_nat n)).

(** The parameters for which no evaluation of a section polynomial is
    rounded: [255 (1 + n + ... + n^(k-1))] is bounded by
    [255 k n^(k-1)], which is to stay below [2^53]. *)
Definition exactrange (k n : nat) : Prop :=
  255 * Z.of_nat k * Z.of_nat n ^ Z.of_nat (k - 1) < 2 ^ 53.

(** What [step4] leaves for the coefficients [coeff]: the coefficients
    [coeff'] and the pixels of the shadows. *)
Definition step4_post (coeff : list Z) (k n : nat)
           (coeff' pixels : list Z) : Prop :=
  bytes coeff'
  /\ length coeff' = length coeff
  /\ (forall r, (k <= r)%nat -> nth r coeff' 0 = nth r coeff 0)
  /\ (forall r, nth r coeff' 0 <= nth r coeff 0)
  /\ evalshadows coeff' k n = Ok pixels
  /\ length pixels = n
  /\ (forall i, (i < n)%nat -> 0 <= nth i pixels 0 <= 255)
  /\ (forall pixels0, evalshadows coeff k n = Ok pixels0 ->
        existsb (Z.eqb 256) pixels0 = false -> coeff' = coeff).

(** The shadow with the number [i + 1] and the pixels [px], as [formshadows]
    allocates and fills it. *)
Definition shadow_of (width height seed : Z) (i : nat) (px : list Z) : Bitmap :=
  set_imgpixels (newshadow width height seed (u16 (Z.of_nat i + 1))) px.

(** The value at [x = i + 1] of the section polynomial of the group [j] of
    the pixels [img], reduced modulo 257. *)
Definition sectionvalue (img : list Z) (k j i : nat) : Z :=
  polyeval k (skipn (j * k) img) (Z.of_nat i + 1) mod PRIME.

(** The store [shadows[i]->imgpixels[j] = p]. *)
Definition putpixel (j : nat) (p : Z) (sp : Bitmap) : Bitmap :=
  set_imgpixels sp (upd (imgpixels sp) j (u8 p)).

(** The state of the loop over the groups in [formshadows], after [j]
    groups are shared: the pixels [img] of the secret as repaired so far,
    and the shadows with their first [j] pixels. *)
Definition shared (px : list Z) (w h seed : Z) (k n M j : nat)
           (d : Bitmap) (st : list Z * list Bitmap) : Prop :=
  let '(img, shadows) := st in
  bytes img
  /\ length img = length px
  /\ (forall m, (j * k <= m)%nat -> nth m img 0 = nth m px 0)
  /\ (forall m, nth m img 0 <= nth m px 0)
  /\ length shadows = n
  /\ forall i, (i < n)%nat ->
       exists pxi,
         nth i shadows d = shadow_of w h seed i pxi
         /\ length pxi = M
         /\ forall j', (j' < j)%nat ->
              nth j' pxi 0 = sectionvalue img k j' i
              /\ 0 <= sectionvalue img k j' i <= 255.

(** A secret of 24 pixels, 8 by 3. *)
Definition secret24 : Bitmap :=
  bitmap_of 8 3
    [59; 84; 61; 155; 163; 79; 140; 29; 152; 200; 85; 64;
     98; 156; 252; 251; 225; 5; 240; 45; 70; 80; 32; 94].

(** ** Arithmetic modulo 257 and the elimination on a Vandermonde matrix *)

(** Congruence modulo 257. *)
Definition eqp (a b : Z) : Prop := a mod PRIME = b mod PRIME.

(** The complete homogeneous symmetric polynomial of degree [m] in the
    numbers of the list. *)
Fixpoint hsym (m : nat) : list Z -> Z :=
  match m with
  | O => fun _ => 1
  | S m' =>
      fix hl (l : list Z) : Z :=
        match l with
        | [] => 0
        | y :: ys => hl ys + y * hsym m' (y :: ys)
        end
  end.

Section Vandermonde.

(** The shadow number of the row [j], and the coefficient [c t] of the
    section polynomial. *)
Variable xs : nat -> Z.
Variable c : nat -> Z.

(** The nodes [xs a], ..., [xs (a + len - 1)]. *)
Definition nodes (a len : nat) : list Z := map xs (seq a len).

(** [(xs i - xs (i-1)) (xs i - xs (i-2)) ... (xs i - xs (i-m))]. *)
Fixpoint pivotprod (i m : nat) : Z :=
  match m with
  | O => 1
  | S m' => pivotprod i m' * (xs i - xs (i - S m'))
  end.

(** The entry of the column [t] in the row [i] once [m] row operations
    have been applied to it. *)
Definition level (i m t : nat) : Z :=
  if (t <? m)%nat then 0
  else pivotprod i m * hsym (t - m) (nodes (i - m) (S m)).

(** [f 0 * c 0 + ... + f (k-1) * c (k-1)]. *)
Fixpoint dotf (f : nat -> Z) (k : nat) : Z :=
  match k with
  | O => 0
  | S k' => dotf f k' + f k' * c k'
  end.

End Vandermonde.

(** The shadow numbers of the first [k] rows are distinct modulo 257. *)
Definition distinct (xs : nat -> Z) (k : nat) : Prop :=
  forall a b, (a < k)%nat -> (b < k)%nat -> a <> b ->
              ~ eqp (xs a - xs b) 0.

Section Invariants.

(** The threshold, the shadow number and the shadow pixel of each row, and
    the coefficients that were shared. *)
Variable k : nat.
Variable xs : nat -> Z.
Variable ps : nat -> Z.
Variable c : nat -> Z.

(** The row as [fillrow] leaves it. *)
Definition rowraw (m : matrix) (r : nat) : Prop :=
  (forall t, (t < k)%nat -> entry m r t = xs r ^ Z.of_nat t)
  /\ entry m r k = ps r.

(** The row is reduced modulo 257. *)
Definition rowred (m : matrix) (r : nat) : Prop :=
  forall t, (t <= k)%nat -> 0 <= entry m r t < PRIME.

(** The row after [l] row operations: its entries are known modulo 257, and
    the coefficients solve its equation. *)
Definition rowlvl (m : matrix) (r l : nat) : Prop :=
  (forall t, (t < k)%nat -> eqp (entry m r t) (level xs r l t))
  /\ eqp (dotf c (entry m r) k) (entry m r k).

(** The matrix during the pass [j] of the forward elimination, when the rows
    below the row [i] have been through it. *)
Definition einv (j i : nat) (m : matrix) : Prop :=
  shape k m
  /\ rowraw m 0
  /\ forall r, (1 <= r < k)%nat ->
       if (i <? r)%nat then rowred m r /\ rowlvl m r (S j)
       else if (j =? 0)%nat then rowraw m r
       else rowred m r /\ rowlvl m r (Nat.min r j).

(** The matrix during the back substitution, when the rows below the row
    [i] are solved. *)
Definition sinv (i : nat) (m : matrix) : Prop :=
  shape k m
  /\ (forall r, (i < r < k)%nat -> entry m r k = c r)
  /\ (forall r, (r <= i)%nat -> (r < k)%nat ->
        (forall t, (i < t < k)%nat -> entry m r t = 0)
        /\ (forall t, (t <= i)%nat -> (t < k)%nat ->
              eqp (entry m r t) (level xs r r t))
        /\ eqp (dotf c (entry m r) k) (entry m r k)
        /\ 0 <= entry m r k < PRIME)
  /\ (forall r, (1 <= r <= i)%nat -> (r < k)%nat -> rowred m r)
  /\ (forall t, (t <= i)%nat -> (t < k)%nat ->
        entry m 0 t = xs 0%nat ^ Z.of_nat t).

End Invariants.

(** The shadow [sp] is an honest shadow of the pixels [img], shared in [M]
    groups of [k]: its numbers fit, it has [M] pixels at least, and the
    pixel [p] is the value of the section polynomial of the group [p] at its
    shadow number, modulo 257. *)
Definition shadow_for (img : list Z) (k M : nat) (sp : Bitmap) : Prop :=
  0 <= shadownumber sp
  /\ shadownumber sp ^ Z.of_nat k < 2 ^ 31
  /\ 256 * shadownumber sp ^ Z.of_nat (k - 1) < 2 ^ 31
  /\ (M <= length (imgpixels sp))%nat
  /\ forall p, (p < M)%nat ->
       nth p (imgpixels sp) 0
       = polyeval k (skipn (p * k) img) (shadownumber sp) mod PRIME
       /\ nth p (imgpixels sp) 0 <= 255.

(** The shadow numbers of the first [k] bitmaps of a list are distinct
    modulo 257. *)
Definition distinct_shadows (shadows : list Bitmap) (k : nat) : Prop :=
  forall a b sa sb, (a < k)%nat -> (b < k)%nat -> a <> b ->
    nth_error shadows a = Some sa -> nth_error shadows b = Some sb ->
    ~ eqp (shadownumber sa - shadownumber sb) 0.

(** The parameters for which the powers of the shadow numbers [1 .. n] fit
    the [int] arithmetic of [revealsecret] and [findcoefficients], and the
    shadow numbers are distinct modulo 257. *)
Definition revealrange (k n : nat) : Prop :=
  Z.of_nat n ^ Z.of_nat k < 2 ^ 31
  /\ 256 * Z.of_nat n ^ Z.of_nat (k - 1) < 2 ^ 31
  /\ Z.of_nat n <= 256.

(** The bitmaps at the positions [sel] of a list. *)
Definition choose (d : Bitmap) (shadows : list Bitmap) (sel : list nat)
  : list Bitmap :=
  map (fun i => nth i shadows d) sel.

(** Two shadow numbers, the pixels of two shadows, and two coefficients,
    for an example with [k = 2]: [10 + 20 x] at [x = 1] and [x = 2]. *)
Definition xs2 (j : nat) : Z := nth j [1; 2] 0.
Definition ps2 (j : nat) : Z := nth j [30; 50] 0.
Definition cf2 (t : nat) : Z := nth t [10; 20] 0.

(** The two shadows of the whitened pixels [10; 20; 30; 40] for [k = 2]:
    [10 + 20 x] and [30 + 40 x] at [x = 1] and at [x = 2]. *)
Definition twoshadows : list Bitmap :=
  [ set_imgpixels (newshadow 2 1 691 1) [30; 70];
    set_imgpixels (newshadow 2 1 691 2) [50; 110] ].

(** * The BMP codec

    A file is the list of its bytes.  The functions that write produce the
    bytes they append; a stream that is read is a [FILE], the content with
    the position of the next read. *)

(** The [n] bytes of [v], the least significant first, and the number that
    bytes denote when the least significant comes first. *)
Fixpoint le_bytes (n : nat) (v : Z) : list Z :=
  match n with
  | O => []
  | S n' => v mod 256 :: le_bytes n' (v / 256)
  end.

Fixpoint le_value (l : list Z) : Z :=
  match l with
  | [] => 0
  | b :: t => b + 256 * le_value t
  end.

Record FILE := mkFILE { content : list Z; pos : nat }.

(** The outcome [None] is the end of the process in [die]. *)
Definition obind {A B} (m : option A) (f : A -> option B) : option B :=
  match m with
  | Some a => f a
  | None => None
  end.

Notation "x <~ m ;; f" := (obind m (fun x => f))
  (at level 61, m at next level, right associativity).
Notation "' pat <~ m ;; f" := (obind m (fun x => match x with pat => f end))
  (at level 61, pat pattern, m at next level, right associativity).

(** Modelled from the spec: [xfopen], [xfread], [xfseek] and [xfwrite] are
    declared in [util.h], which is not part of the sources; by the
    specification "any I/O or validation failure is fatal", so a read that
    does not get all its bytes ends the process.  Writing appends the bytes
    and is taken not to fail. *)
Definition xfopen (file : list Z) : FILE := mkFILE file 0.

Definition xfread (size : nat) (fp : FILE) : option (list Z * FILE) :=
  let l := firstn size (skipn (pos fp) (content fp)) in
  if (length l =? size)%nat
  then Some (l, mkFILE (content fp) (pos fp + size))
  else None.

Definition xfseek (fp : FILE) (offset : nat) : FILE :=
  mkFILE (content fp) offset.

Definition xfwrite (l : list Z) (fp : list Z) : list Z := fp ++ l.

Definition WIDTH_OFFSET : nat := 18.
Definition HEIGHT_OFFSET : nat := 22.

Section Host.

(** The byte order of the machine that runs the program. *)
Variable bigendian : bool.

(** The bytes in memory of an unsigned integer of [n] bytes, and the value
    of bytes of memory read as an unsigned integer. *)
Definition repr (n : nat) (v : Z) : list Z :=
  if bigendian then rev (le_bytes n v) else le_bytes n v.

Definition value (l : list Z) : Z :=
  le_value (if bigendian then rev l else l).

(** Modelled from the spec: [isbigendian], [uint16swap], [uint32swap] and
    [int32swap] are declared in [util.h], which is not part of the sources;
    the specification has the codec "perform endianness conversion
    explicitly", so the swaps reverse the bytes of their operand. *)
Definition isbigendian : bool := bigendian.

Definition swap (n : nat) (v : Z) : Z := le_value (rev (le_bytes n v)).
Definition uint16swap : Z -> Z := swap 2.
Definition uint32swap : Z -> Z := swap 4.
Definition int32swap (v : Z) : Z := i32 (swap 4 (u32 v)).

Definition changeheaderendianness (h : BMPheader.t) : BMPheader.t :=
  {| BMPheader.id := BMPheader.id h;
     BMPheader.size := uint32swap (BMPheader.size h);
     BMPheader.unused1 := uint16swap (BMPheader.unused1 h);
     BMPheader.unused2 := uint16swap (BMPheader.unused2 h);
     BMPheader.offset := uint32swap (BMPheader.offset h) |}.

Definition changedibendianness (h : DIBheader.t) : DIBheader.t :=
  {| DIBheader.size := uint32swap (DIBheader.size h);
     DIBheader.width := uint32swap (DIBheader.width h);
     DIBheader.height := int32swap (DIBheader.height h);
     DIBheader.nplanes := uint16swap (DIBheader.nplanes h);
     DIBheader.depth := uint16swap (DIBheader.depth h);
     DIBheader.compression := uint32swap (DIBheader.compression h);
     DIBheader.pixelarraysize := uint32swap (DIBheader.pixelarraysize h);
     DIBheader.hres := uint32swap (DIBheader.hres h);
     DIBheader.vres := uint32swap (DIBheader.vres h);
     DIBheader.ncolors := uint32swap (DIBheader.ncolors h);
     DIBheader.nimpcolors := uint32swap (DIBheader.nimpcolors h) |}.

Definition readbmpheader (fp : FILE) : option (BMPheader.t * FILE) :=
  '(id, fp) <~ xfread 2 fp ;;
  '(size, fp) <~ xfread 4 fp ;;
  '(unused1, fp) <~ xfread 2 fp ;;
  '(unused2, fp) <~ xfread 2 fp ;;
  '(offset, fp) <~ xfread 4 fp ;;
  let h := {| BMPheader.id := (nth 0 id 0, nth 1 id 0);
              BMPheader.size := value size;
              BMPheader.unused1 := value unused1;
              BMPheader.unused2 := value unused2;
              BMPheader.offset := value offset |} in
  Some (if isbigendian then changeheaderendianness h else h, fp).

Definition writebmpheader (bp : Bitmap) (fp : list Z) : list Z :=
  let h := bmpheader bp in
  let h := if isbigendian then changeheaderendianness h else h in
  let fp := xfwrite [fst (BMPheader.id h); snd (BMPheader.id h)] fp in
  let fp := xfwrite (repr 4 (BMPheader.size h)) fp in
  let fp := xfwrite (repr 2 (BMPheader.unused1 h)) fp in
  let fp := xfwrite (repr 2 (BMPheader.unused2 h)) fp in
  xfwrite (repr 4 (BMPheader.offset h)) fp.

Definition readdibheader (fp : FILE) : option (DIBheader.t * FILE) :=
  '(size, fp) <~ xfread 4 fp ;;
  '(width, fp) <~ xfread 4 fp ;;
  '(height, fp) <~ xfread 4 fp ;;
  '(nplanes, fp) <~ xfread 2 fp ;;
  '(depth, fp) <~ xfread 2 fp ;;
  '(compression, fp) <~ xfread 4 fp ;;
  '(pixelarraysize, fp) <~ xfread 4 fp ;;
  '(hres, fp) <~ xfread 4 fp ;;
  '(vres, fp) <~ xfread 4 fp ;;
  '(ncolors, fp) <~ xfread 4 fp ;;
  '(nimpcolors, fp) <~ xfread 4 fp ;;
  let h := {| DIBheader.size := value size;
              DIBheader.width := value width;
              DIBheader.height := i32 (value height);
              DIBheader.nplanes := value nplanes;
              DIBheader.depth := value depth;
              DIBheader.compression := value compression;
              DIBheader.pixelarraysize := value pixelarraysize;
              DIBheader.hres := value hres;
              DIBheader.vres := value vres;
              DIBheader.ncolors := value ncolors;
              DIBheader.nimpcolors := value nimpcolors |} in
  Some (if isbigendian then changedibendianness h else h, fp).

Definition writedibheader (bp : Bitmap) (fp : list Z) : list Z :=
  let h := dibheader bp in
  let h := if isbigendian then changedibendianness h else h in
  let fp := xfwrite (repr 4 (DIBheader.size h)) fp in
  let fp := xfwrite (repr 4 (DIBheader.width h)) fp in
  let fp := xfwrite (repr 4 (u32 (DIBheader.height h))) fp in
  let fp := xfwrite (repr 2 (DIBheader.nplanes h)) fp in
  let fp := xfwrite (repr 2 (DIBheader.depth h)) fp in
  let fp := xfwrite (repr 4 (DIBheader.compression h)) fp in
  let fp := xfwrite (repr 4 (DIBheader.pixelarraysize h)) fp in
  let fp := xfwrite (repr 4 (DIBheader.hres h)) fp in
  let fp := xfwrite (repr 4 (DIBheader.vres h)) fp in
  let fp := xfwrite (repr 4 (DIBheader.ncolors h)) fp in
  xfwrite (repr 4 (DIBheader.nimpcolors h)) fp.

(** [bmpfromfile] of the file with the given bytes. *)
Definition bmpfromfile (file : list Z) : option Bitmap :=
  let fp := xfopen file in
  '(bh, fp) <~ readbmpheader fp ;;
  '(dh, fp) <~ readdibheader fp ;;
  '(pal, fp) <~ xfread (Z.to_nat PALETTE_SIZE) fp ;;
  let imagesize := bmpimagesize (mkBitmap bh dh pal []) in
  '(px, fp) <~ xfread (Z.to_nat imagesize) fp ;;
  Some (mkBitmap bh dh pal px).

(** The first [n] elements of an array; reading past its end is undefined. *)
Definition readarray (l : list Z) (n : nat) : result (list Z) :=
  if (n <=? length l)%nat then Ok (firstn n l) else Undefined.

(** [bmptofile]: the bytes of the file it writes. *)
Definition bmptofile (bp : Bitmap) : result (list Z) :=
  let fp := writebmpheader bp [] in
  let fp := writedibheader bp fp in
  pal <- readarray (palette bp) (Z.to_nat PALETTE_SIZE) ;;
  let fp := xfwrite pal fp in
  px <- readarray (imgpixels bp) (Z.to_nat (bmpimagesize bp)) ;;
  Ok (xfwrite px fp).

(** The position is put back after the read, so the stream is as before. *)
Definition get32bitsfromheader (fp : FILE) (offset : nat) : option Z :=
  let fp := xfseek fp offset in
  '(v, _) <~ xfread 4 fp ;;
  Some (value v).

Definition bmpfilewidth (fp : FILE) : option Z :=
  get32bitsfromheader fp WIDTH_OFFSET.

Definition bmpfileheight (fp : FILE) : option Z :=
  get32bitsfromheader fp HEIGHT_OFFSET.

(** The division by [k = 0] is undefined. *)
Definition kdivisiblesize (fp : FILE) (k : Z) : result (option bool) :=
  match bmpfilewidth fp, bmpfileheight fp with
  | Some w, Some h =>
      let pixels := i32 (u32 (w * h)) in
      if k =? 0 then Undefined
      else
        let aux := Z.quot pixels k in
        Ok (Some (pixels =? i32 (aux * k)))
  | _, _ => Ok None
  end.

End Host.

(** The fields of the headers hold values of their C types. *)
Definition bmpheader_ok (b : BMPheader.t) : Prop :=
  (0 <= fst (BMPheader.id b) < 256 /\ 0 <= snd (BMPheader.id b) < 256)
  /\ 0 <= BMPheader.size b < 2 ^ 32
  /\ 0 <= BMPheader.unused1 b < 2 ^ 16
  /\ 0 <= BMPheader.unused2 b < 2 ^ 16
  /\ 0 <= BMPheader.offset b < 2 ^ 32.

Definition dibheader_ok (d : DIBheader.t) : Prop :=
  0 <= DIBheader.size d < 2 ^ 32
  /\ 0 <= DIBheader.width d < 2 ^ 32
  /\ - 2 ^ 31 <= DIBheader.height d < 2 ^ 31
  /\ 0 <= DIBheader.nplanes d < 2 ^ 16
  /\ 0 <= DIBheader.depth d < 2 ^ 16
  /\ 0 <= DIBheader.compression d < 2 ^ 32
  /\ 0 <= DIBheader.pixelarraysize d < 2 ^ 32
  /\ 0 <= DIBheader.hres d < 2 ^ 32
  /\ 0 <= DIBheader.vres d < 2 ^ 32
  /\ 0 <= DIBheader.ncolors d < 2 ^ 32
  /\ 0 <= DIBheader.nimpcolors d < 2 ^ 32.

Definition header_ok (bp : Bitmap) : Prop :=
  bmpheader_ok (bmpheader bp) /\ dibheader_ok (dibheader bp).

(** A bitmap as the program holds it in memory: header fields of their
    types, a palette of 1024 bytes, and the pixel bytes it owns. *)
Definition valid_bitmap (bp : Bitmap) : Prop :=
  header_ok bp
  /\ bytes (palette bp) /\ length (palette bp) = Z.to_nat PALETTE_SIZE
  /\ wf_bitmap bp.

(** The bytes of the two headers in a file: every field with its least
    significant byte first. *)
Definition bmpheader_bytes (h : BMPheader.t) : list Z :=
  [fst (BMPheader.id h); snd (BMPheader.id h)]
  ++ le_bytes 4 (BMPheader.size h)
  ++ le_bytes 2 (BMPheader.unused1 h)
  ++ le_bytes 2 (BMPheader.unused2 h)
  ++ le_bytes 4 (BMPheader.offset h).

Definition dibheader_bytes (h : DIBheader.t) : list Z :=
  le_bytes 4 (DIBheader.size h)
  ++ le_bytes 4 (DIBheader.width h)
  ++ le_bytes 4 (u32 (DIBheader.height h))
  ++ le_bytes 2 (DIBheader.nplanes h)
  ++ le_bytes 2 (DIBheader.depth h)
  ++ le_bytes 4 (DIBheader.compression h)
  ++ le_bytes 4 (DIBheader.pixelarraysize h)
  ++ le_bytes 4 (DIBheader.hres h)
  ++ le_bytes 4 (DIBheader.vres h)
  ++ le_bytes 4 (DIBheader.ncolors h)
  ++ le_bytes 4 (DIBheader.nimpcolors h).

(** The file of the secret of 24 pixels, and the file followed by two more
    bytes. *)
Definition wire24 : list Z :=
  bmpheader_bytes (bmpheader secret24) ++ dibheader_bytes (dibheader secret24)
  ++ palette secret24 ++ imgpixels secret24.

Definition file24 : list Z := wire24 ++ [7; 7].

(** * Verification *)

(** ** Outcomes and loops *)

Lemma bind_Ok {A B} (m : result A) (f : A -> result B) (b : B) :
  bind m f = Ok b <-> exists a, m = Ok a /\ f a = Ok b.
Proof.
  destruct m; simpl; split; intros H.
  - eauto.
  - destruct H as (a' & [= ->] & H). exact H.
  - discriminate.
  - destruct H as (? & [=] & _).
  - discriminate.
  - destruct H as (? & [=] & _).
Qed.

(** Unfolds a successful run of a sequence of binds in a hypothesis. *)
Ltac inv_bind H :=
  repeat match type of H with
  | bind _ _ = Ok _ =>
      let a := fresh "a" in
      let Ha := fresh "Ha" in
      apply bind_Ok in H; destruct H as (a & Ha & H)
  end.

Lemma for_up_inv {S} (P : nat -> S -> Prop) body :
  forall cnt lo (s : S),
    P lo s ->
    (forall i s, (lo <= i < lo + cnt)%nat -> P i s ->
                 exists s', body i s = Ok s' /\ P (Datatypes.S i) s') ->
    exists s', for_up cnt lo body s = Ok s' /\ P (lo + cnt)%nat s'.
Proof.
  induction cnt as [|c IH]; intros lo s H0 Hstep; simpl.
  - exists s. rewrite Nat.add_0_r. auto.
  - destruct (Hstep lo s) as (s1 & -> & H1); [lia | assumption |]. simpl.
    destruct (IH (Datatypes.S lo) s1) as (s' & Hs' & HP); [assumption | |].
    + intros i s2 Hi. apply Hstep. lia.
    + exists s'. split; [assumption|].
      replace (lo + Datatypes.S c)%nat with (Datatypes.S lo + c)%nat by lia.
      assumption.
Qed.

Lemma for_inv {S} (P : nat -> S -> Prop) body lo hi (s : S) :
  (lo <= hi)%nat ->
  P lo s ->
  (forall i s, (lo <= i < hi)%nat -> P i s ->
               exists s', body i s = Ok s' /\ P (Datatypes.S i) s') ->
  exists s', for_ lo hi body s = Ok s' /\ P hi s'.
Proof.
  intros Hle H0 Hstep. unfold for_.
  destruct (for_up_inv P body (hi - lo) lo s H0) as (s' & Hs' & HP).
  - intros i s1 Hi. apply Hstep. lia.
  - exists s'. split; [assumption|].
    replace hi with (lo + (hi - lo))%nat at 1 by lia. assumption.
Qed.

Lemma for_dn_inv {S} (P : nat -> S -> Prop) body lo :
  forall cnt (s : S),
    P (lo + cnt)%nat s ->
    (forall i s, (lo < i <= lo + cnt)%nat -> P i s ->
                 exists s', body i s = Ok s' /\ P (i - 1)%nat s') ->
    exists s', for_dn cnt lo body s = Ok s' /\ P lo s'.
Proof.
  induction cnt as [|c IH]; intros s H0 Hstep; simpl.
  - exists s. rewrite Nat.add_0_r in H0. auto.
  - destruct (Hstep (lo + Datatypes.S c)%nat s) as (s1 & -> & H1);
      [lia | assumption |]. simpl.
    apply IH.
    + replace (lo + c)%nat with (lo + Datatypes.S c - 1)%nat by lia.
      assumption.
    + intros i s2 Hi. apply Hstep. lia.
Qed.

Lemma for_down_inv {S} (P : nat -> S -> Prop) body hi lo (s : S) :
  (lo <= hi)%nat ->
  P hi s ->
  (forall i s, (lo < i <= hi)%nat -> P i s ->
               exists s', body i s = Ok s' /\ P (i - 1)%nat s') ->
  exists s', for_down hi lo body s = Ok s' /\ P lo s'.
Proof.
  intros Hle H0 Hstep. unfold for_down.
  apply for_dn_inv.
  - replace (lo + (hi - lo))%nat with hi by lia. assumption.
  - intros i s1 Hi. apply Hstep. lia.
Qed.

(** Partial-correctness versions: whatever a loop that ran to its end
    returns satisfies the invariant. *)
Lemma for_up_run {S} (P : nat -> S -> Prop) body :
  forall cnt lo (s s' : S),
    for_up cnt lo body s = Ok s' ->
    P lo s ->
    (forall i s s', (lo <= i < lo + cnt)%nat -> P i s -> body i s = Ok s' ->
                    P (Datatypes.S i) s') ->
    P (lo + cnt)%nat s'.
Proof.
  induction cnt as [|c IH]; intros lo s s' Hrun H0 Hstep; simpl in Hrun.
  - injection Hrun as <-. rewrite Nat.add_0_r. assumption.
  - inv_bind Hrun.
    replace (lo + Datatypes.S c)%nat with (Datatypes.S lo + c)%nat by lia.
    apply (IH _ _ _ Hrun).
    + apply (Hstep lo s); [lia | assumption | assumption].
    + intros i s1 s2 Hi. apply Hstep. lia.
Qed.

Lemma for_run {S} (P : nat -> S -> Prop) body lo hi (s s' : S) :
  (lo <= hi)%nat ->
  for_ lo hi body s = Ok s' ->
  P lo s ->
  (forall i s s', (lo <= i < hi)%nat -> P i s -> body i s = Ok s' ->
                  P (Datatypes.S i) s') ->
  P hi s'.
Proof.
  intros Hle Hrun H0 Hstep. unfold for_ in Hrun.
  replace hi with (lo + (hi - lo))%nat by lia.
  apply (for_up_run P body _ _ _ _ Hrun H0).
  intros i s1 s2 Hi. apply Hstep. lia.
Qed.

(** ** Arrays *)

Lemma load_nth {A} (l : list A) (i : nat) (d : A) :
  (i < length l)%nat -> load l i = Ok (nth i l d).
Proof.
  intros H. unfold load. rewrite (nth_error_nth' l d H). reflexivity.
Qed.

Lemma load_Ok {A} (l : list A) (i : nat) (a d : A) :
  load l i = Ok a -> (i < length l)%nat /\ nth i l d = a.
Proof.
  unfold load. destruct (nth_error l i) eqn:E; [|discriminate].
  intros [= ->]. split.
  - apply nth_error_Some. congruence.
  - apply nth_error_nth. assumption.
Qed.

Lemma store_upd {A} (l : list A) (i : nat) (v : A) :
  (i < length l)%nat -> store l i v = Ok (upd l i v).
Proof.
  revert i. induction l as [|h t IH]; intros i H; simpl in H; [lia|].
  destruct i as [|i]; simpl; [reflexivity|].
  rewrite IH by lia. reflexivity.
Qed.

Lemma store_Ok {A} (l l' : list A) (i : nat) (v : A) :
  store l i v = Ok l' -> (i < length l)%nat /\ l' = upd l i v.
Proof.
  revert i l'. induction l as [|h t IH]; intros i l' H; simpl in H;
    [discriminate|].
  destruct i as [|i].
  - injection H as <-. simpl. split; [lia | reflexivity].
  - inv_bind H. injection H as <-. apply IH in Ha as [Hlt ->].
    simpl. split; [lia | reflexivity].
Qed.

Lemma length_upd {A} (l : list A) i v : length (upd l i v) = length l.
Proof.
  revert i. induction l as [|h t IH]; intros [|i]; simpl; auto.
Qed.

Lemma nth_upd_eq {A} (l : list A) i v d :
  (i < length l)%nat -> nth i (upd l i v) d = v.
Proof.
  revert i. induction l as [|h t IH]; intros [|i] H; simpl in *;
    try lia; auto.
  apply IH. lia.
Qed.

Lemma nth_upd_neq {A} (l : list A) i j v d :
  i <> j -> nth j (upd l i v) d = nth j l d.
Proof.
  revert i j. induction l as [|h t IH]; intros [|i] [|j] H; simpl;
    try reflexivity; try lia.
  apply IH. lia.
Qed.

Lemma nth_upd {A} (l : list A) i j v d :
  (i < length l)%nat ->
  nth j (upd l i v) d = if (j =? i)%nat then v else nth j l d.
Proof.
  intros H. destruct (Nat.eqb_spec j i) as [->|Hne].
  - apply nth_upd_eq. assumption.
  - apply nth_upd_neq. auto.
Qed.

(** ** Machine integers *)

Lemma signed_small w x :
  0 < w -> - 2 ^ (w - 1) <= x < 2 ^ (w - 1) -> signed w x = x.
Proof.
  intros Hw Hx. unfold signed.
  assert (E : 2 ^ w = 2 * 2 ^ (w - 1)).
  { rewrite <- Z.pow_succ_r by lia. f_equal. lia. }
  rewrite Z.mod_small by lia. lia.
Qed.

Lemma i32_small x : - 2 ^ 31 <= x < 2 ^ 31 -> i32 x = x.
Proof. intros H. apply (signed_small 32); [lia | exact H]. Qed.

Lemma i64_small x : - 2 ^ 63 <= x < 2 ^ 63 -> i64 x = x.
Proof. intros H. apply (signed_small 64); [lia | exact H]. Qed.

Lemma u8_small x : 0 <= x < 256 -> u8 x = x.
Proof. intros H. apply Z.mod_small. exact H. Qed.

Lemma u16_small x : 0 <= x < 65536 -> u16 x = x.
Proof. intros H. apply Z.mod_small. exact H. Qed.

Lemma u32_small x : 0 <= x < 2 ^ 32 -> u32 x = x.
Proof. intros H. apply Z.mod_small. exact H. Qed.

Lemma u8_range x : 0 <= u8 x < 256.
Proof. apply Z.mod_pos_bound. reflexivity. Qed.

(** The low 48 bits survive the wrap-around of [int64_t]. *)
Lemma i64_low48 x : i64 x mod 2 ^ 48 = x mod 2 ^ 48.
Proof.
  unfold i64, signed.
  rewrite (Z.mod_eq (x + 2 ^ (64 - 1)) (2 ^ 64)) by lia.
  replace (x + 2 ^ (64 - 1) - 2 ^ 64 * ((x + 2 ^ (64 - 1)) / 2 ^ 64)
           - 2 ^ (64 - 1))
    with (x + (- ((x + 2 ^ (64 - 1)) / 2 ^ 64) * 2 ^ 16) * 2 ^ 48) by lia.
  apply Z.mod_add. lia.
Qed.

(** ** The pseudo-random generator (C6) *)

Arguments nextbyte : simpl never.
Arguments setseed : simpl never.
Arguments randomtable : simpl never.

Lemma land_mask48 x : Z.land x 281474976710655 = x mod 2 ^ 48.
Proof. change 281474976710655 with (Z.ones 48). apply Z.land_ones. lia. Qed.

Lemma nextbyte_state rseed :
  fst (nextbyte rseed) = (rseed * 25214903917 + 11) mod 2 ^ 48.
Proof.
  unfold nextbyte. cbv zeta. simpl fst.
  rewrite land_mask48, i64_low48.
  rewrite Z.add_mod by lia. rewrite i64_low48.
  rewrite <- Z.add_mod by lia. reflexivity.
Qed.

Lemma nextbyte_value rseed :
  snd (nextbyte rseed) = fst (nextbyte rseed) / 2 ^ 17 * 256 / 2 ^ 31
  /\ 0 <= snd (nextbyte rseed) <= 255.
Proof.
  pose proof (nextbyte_state rseed) as Hs.
  assert (Hr : 0 <= fst (nextbyte rseed) < 2 ^ 48).
  { rewrite Hs. apply Z.mod_pos_bound. lia. }
  unfold nextbyte in *. cbv zeta in *. cbn [fst snd] in *.
  set (st := Z.land _ _) in *. clearbody st.
  change (48 - 31) with 17.
  rewrite (Z.shiftr_div_pow2 st 17) by lia.
  assert (Hn : 0 <= st / 2 ^ 17 < 2 ^ 31).
  { split; [apply Z.div_pos; lia|].
    apply Z.div_lt_upper_bound; lia. }
  set (n := st / 2 ^ 17) in *. clearbody n.
  rewrite i64_small by lia.
  rewrite Z.shiftr_div_pow2 by lia.
  assert (Hb : 0 <= 256 * n / 2 ^ 31 <= 255).
  { split; [apply Z.div_pos; lia|].
    assert (256 * n / 2 ^ 31 < 256); [|lia].
    apply Z.div_lt_upper_bound; lia. }
  rewrite i32_small by lia.
  rewrite (Z.mul_comm n 256). split; [reflexivity | exact Hb].
Qed.

Lemma nextbyte_spec rseed : nextbyte rseed = SpecPRNG.nextByte rseed.
Proof.
  pose proof (nextbyte_state rseed) as Hs.
  pose proof (nextbyte_value rseed) as [Hv _].
  destruct (nextbyte rseed) as [st b]. simpl in Hs, Hv. subst.
  unfold SpecPRNG.nextByte. cbv zeta.
  change (2 ^ 48 - 1) with (Z.ones 48).
  rewrite Z.land_ones by lia.
  rewrite !Z.shiftr_div_pow2 by lia.
  rewrite (Z.mul_comm 256). reflexivity.
Qed.

Lemma filltable_spec len : forall rseed,
  filltable len rseed = SpecPRNG.stream len rseed.
Proof.
  induction len as [|len IH]; intros rseed; [reflexivity|].
  cbn [filltable SpecPRNG.stream].
  rewrite <- nextbyte_spec.
  pose proof (nextbyte_value rseed) as [_ Hb].
  destruct (nextbyte rseed) as [st b]. cbn [snd] in Hb.
  rewrite u8_small by lia. rewrite IH. reflexivity.
Qed.

(** C6. The generator is the 48-bit generator of the specification, bit for
    bit: [setseed] leaves the state [(s XOR 25214903917) AND (2^48 - 1)];
    [nextbyte] leaves [(S * 25214903917 + 11) AND (2^48 - 1)] and returns
    [(256 * (S >> 17)) >> 31], a value of [0 .. 255], the wrap-around of the
    64-bit product notwithstanding; and the table of [randomtable] is the
    stream of these bytes. *)
Theorem prng_matches_spec :
  (forall s, setseed s = SpecPRNG.seed s) /\
  (forall rseed,
      nextbyte rseed = SpecPRNG.nextByte rseed /\
      0 <= snd (nextbyte rseed) <= 255) /\
  (forall tablesize s,
      randomtable tablesize s = SpecPRNG.mask s (Z.to_nat tablesize)).
Proof.
  split; [|split].
  - intros s. reflexivity.
  - intros rseed. split; [apply nextbyte_spec | apply nextbyte_value].
  - intros tablesize s. unfold randomtable, SpecPRNG.mask.
    rewrite filltable_spec. reflexivity.
Qed.

(** ** The table of inverses (C7) *)

Lemma modinv_table_check :
  forallb (fun n => match modinv_at (Z.of_nat n) with
                    | Ok v => ((Z.of_nat n * v) mod PRIME =? 1)
                              && (0 <? v) && (v <? PRIME)
                    | _ => false
                    end) (seq 1 256) = true.
Proof. vm_compute. reflexivity. Qed.

Lemma modinv_at_inverse i :
  1 <= i <= 256 ->
  exists v, modinv_at i = Ok v /\ (i * v) mod PRIME = 1 /\ 0 < v < PRIME.
Proof.
  intros Hi.
  pose proof modinv_table_check as H.
  rewrite forallb_forall in H.
  specialize (H (Z.to_nat i)).
  rewrite Z2Nat.id in H by lia.
  destruct (modinv_at i) as [v| |].
  - exists v. split; [reflexivity|].
    assert (Hin : In (Z.to_nat i) (seq 1 256)) by (apply in_seq; lia).
    apply H in Hin.
    apply andb_prop in Hin as [Hin H3]. apply andb_prop in Hin as [H1 H2].
    apply Z.eqb_eq in H1. apply Z.ltb_lt in H2, H3. lia.
  - assert (Hin : In (Z.to_nat i) (seq 1 256)) by (apply in_seq; lia).
    apply H in Hin. discriminate.
  - assert (Hin : In (Z.to_nat i) (seq 1 256)) by (apply in_seq; lia).
    apply H in Hin. discriminate.
Qed.

(** C7. The table of inverses is correct over GF(257): for every [i] in
    [1 .. 256], [modinv[i]] is read inside the table and
    [(i * modinv[i]) mod 257 = 1]. *)
Theorem modinv_correct (i : Z) :
  1 <= i <= 256 ->
  exists v, modinv_at i = Ok v /\ (i * v) mod PRIME = 1.
Proof.
  intros Hi. destruct (modinv_at_inverse i Hi) as (v & Hv & Hm & _).
  exists v. auto.
Qed.

Lemma modinv_correct_witness :
  exists v, modinv_at 200 = Ok v /\ (200 * v) mod PRIME = 1.
Proof. apply (modinv_correct 200). lia. Defined.

(** ** The whitening mask (C5) *)

Lemma filltable_length cnt : forall rseed, length (filltable cnt rseed) = cnt.
Proof.
  induction cnt as [|c IH]; intros rseed; simpl; [reflexivity|].
  destruct (nextbyte rseed). simpl. rewrite IH. reflexivity.
Qed.

Lemma filltable_bytes cnt : forall rseed, bytes (filltable cnt rseed).
Proof.
  induction cnt as [|c IH]; intros rseed; cbn [filltable]; [constructor|].
  destruct (nextbyte rseed). constructor; [apply u8_range | apply IH].
Qed.

Lemma bytes_nth l i : bytes l -> byte (nth i l 0).
Proof.
  intros H. destruct (Nat.lt_ge_cases i (length l)) as [Hi|Hi].
  - unfold bytes in H. rewrite Forall_forall in H. apply H.
    apply nth_In. assumption.
  - rewrite nth_overflow by assumption. unfold byte. lia.
Qed.

Lemma bytes_check l :
  forallb (fun p => (0 <=? p) && (p <? 256)) l = true -> bytes l.
Proof.
  intros H. apply Forall_forall. intros p Hp.
  rewrite forallb_forall in H. apply H in Hp.
  apply andb_prop in Hp as [H1 H2]. unfold byte. lia.
Qed.

Lemma lxor_byte a b : byte a -> byte b -> byte (Z.lxor a b).
Proof.
  unfold byte. intros Ha Hb.
  split; [apply Z.lxor_nonneg; lia|].
  destruct (Z.eq_dec (Z.lxor a b) 0) as [->|Hne]; [lia|].
  apply (Z.log2_lt_pow2 _ 8); [|].
  - pose proof (Z.lxor_nonneg a b). lia.
  - pose proof (Z.log2_lxor a b ltac:(lia) ltac:(lia)) as H.
    assert (Z.log2 a < 8).
    { destruct (Z.eq_dec a 0) as [->|]; [simpl; lia|].
      apply Z.log2_lt_pow2; lia. }
    assert (Z.log2 b < 8).
    { destruct (Z.eq_dec b 0) as [->|]; [simpl; lia|].
      apply Z.log2_lt_pow2; lia. }
    lia.
Qed.

(** The pixels that the loop of [xorbmpwithrandomtable] leaves. *)
Lemma xorloop_run table n px :
  (n <= length px)%nat -> (n <= length table)%nat ->
  exists px',
    for_ 0 n (fun i px =>
                p <- load px i ;;
                t <- load table i ;;
                store px i (u8 (Z.lxor p t))) px = Ok px'
    /\ length px' = length px
    /\ forall j, nth j px' 0 =
                 if (j <? n)%nat then u8 (Z.lxor (nth j px 0) (nth j table 0))
                 else nth j px 0.
Proof.
  intros Hpx Htab.
  apply (for_inv (fun i s =>
           length s = length px /\
           forall j, nth j s 0 =
                     if (j <? i)%nat
                     then u8 (Z.lxor (nth j px 0) (nth j table 0))
                     else nth j px 0)); [lia | |].
  - split; [reflexivity|]. intros j. reflexivity.
  - intros i s Hi [Hlen Hnth].
    rewrite (load_nth s i 0) by lia. simpl.
    rewrite (load_nth table i 0) by lia. simpl.
    rewrite store_upd by lia.
    eexists. split; [reflexivity|]. split.
    + rewrite length_upd. assumption.
    + intros j. rewrite nth_upd by lia.
      destruct (Nat.eqb_spec j i) as [->|Hne].
      * rewrite (Hnth i). rewrite Nat.ltb_irrefl.
        replace (i <? Datatypes.S i)%nat with true
          by (symmetry; apply Nat.ltb_lt; lia).
        reflexivity.
      * rewrite Hnth.
        destruct (Nat.ltb_spec j i), (Nat.ltb_spec j (Datatypes.S i));
          try reflexivity; lia.
Qed.

Lemma bmpimagesize_set_imgpixels bp px :
  bmpimagesize (set_imgpixels bp px) = bmpimagesize bp.
Proof. reflexivity. Qed.

(** What [xorbmpwithrandomtable] does to a well-formed bitmap. *)
Lemma xorbmp_run bmp seed :
  wf_bitmap bmp ->
  exists px,
    xorbmpwithrandomtable bmp seed = Ok (set_imgpixels bmp px)
    /\ length px = length (imgpixels bmp)
    /\ bytes px
    /\ forall j, (j < length px)%nat ->
         nth j px 0 =
         Z.lxor (nth j (imgpixels bmp) 0)
                (nth j (randomtable (bmpimagesize bmp) seed) 0).
Proof.
  intros [Hb Hlen]. unfold xorbmpwithrandomtable. cbv zeta.
  set (table := randomtable (bmpimagesize bmp) seed).
  assert (Htl : length table = length (imgpixels bmp)).
  { unfold table, randomtable. rewrite filltable_length. lia. }
  assert (Htb : bytes table) by apply filltable_bytes.
  destruct (xorloop_run table (Z.to_nat (bmpimagesize bmp)) (imgpixels bmp))
    as (px & Hrun & Hl & Hnth); [lia | lia |].
  rewrite Hrun. simpl. exists px.
  assert (Hval : forall j, (j < length px)%nat ->
            nth j px 0 = Z.lxor (nth j (imgpixels bmp) 0) (nth j table 0)).
  { intros j Hj. rewrite Hnth.
    replace (j <? Z.to_nat (bmpimagesize bmp))%nat with true
      by (symmetry; apply Nat.ltb_lt; lia).
    apply u8_small. apply lxor_byte; apply bytes_nth; assumption. }
  repeat split; try assumption.
  apply Forall_forall. intros x Hx.
  destruct (In_nth _ _ 0 Hx) as (j & Hj & <-).
  rewrite Hval by assumption.
  apply lxor_byte; apply bytes_nth; assumption.
Qed.

Lemma set_imgpixels_id bmp : set_imgpixels bmp (imgpixels bmp) = bmp.
Proof. destruct bmp. reflexivity. Qed.

Lemma set_imgpixels_twice bmp px px' :
  set_imgpixels (set_imgpixels bmp px) px' = set_imgpixels bmp px'.
Proof. reflexivity. Qed.

(** C5. Whitening twice with the same seed is the identity: for every
    well-formed bitmap (its pixels are bytes, as many as its header says) and
    every seed, [xorbmpwithrandomtable] succeeds, and applied to its own
    result it gives the bitmap back. *)
Theorem mask_involution (bmp : Bitmap) (seed : Z) :
  wf_bitmap bmp ->
  exists masked,
    xorbmpwithrandomtable bmp seed = Ok masked /\
    xorbmpwithrandomtable masked seed = Ok bmp.
Proof.
  intros Hwf.
  destruct (xorbmp_run bmp seed Hwf) as (px & Hrun & Hlen & Hb & Hnth).
  exists (set_imgpixels bmp px). split; [assumption|].
  assert (Hwf' : wf_bitmap (set_imgpixels bmp px)).
  { destruct Hwf as [_ Hsz]. split; [assumption|].
    rewrite bmpimagesize_set_imgpixels. simpl. lia. }
  destruct (xorbmp_run _ seed Hwf') as (px' & Hrun' & Hlen' & _ & Hnth').
  rewrite Hrun', set_imgpixels_twice.
  rewrite <- (set_imgpixels_id bmp) at 2. do 2 f_equal.
  simpl in Hlen', Hnth'.
  apply (nth_ext _ _ 0 0); [lia|].
  intros j Hj. rewrite Hnth' by assumption.
  rewrite bmpimagesize_set_imgpixels, Hnth by lia.
  rewrite Z.lxor_assoc, Z.lxor_nilpotent, Z.lxor_0_r. reflexivity.
Qed.

Lemma mask_involution_witness :
  exists masked,
    xorbmpwithrandomtable
      (set_imgpixels (newbitmap 4 2 0) [1; 2; 3; 4; 250; 251; 252; 253]) 691
    = Ok masked /\
    xorbmpwithrandomtable masked 691
    = Ok (set_imgpixels (newbitmap 4 2 0) [1; 2; 3; 4; 250; 251; 252; 253]).
Proof.
  apply (mask_involution
           (set_imgpixels (newbitmap 4 2 0) [1; 2; 3; 4; 250; 251; 252; 253])).
  split.
  - repeat constructor; unfold byte; lia.
  - reflexivity.
Defined.

Ltac step := cbn [bind fst snd].

(** ** Steganography (C9) *)

Lemma byte_cases (P : Z -> bool) :
  forallb P (map Z.of_nat (seq 0 256)) = true ->
  forall p, byte p -> P p = true.
Proof.
  intros H p Hp. rewrite forallb_forall in H. apply H.
  apply in_map_iff. exists (Z.to_nat p). split.
  - apply Z2Nat.id. unfold byte in Hp. lia.
  - apply in_seq. unfold byte in Hp. lia.
Qed.

Lemma bit_cases (P : nat -> bool) :
  forallb P (seq 0 8) = true -> forall b, (b < 8)%nat -> P b = true.
Proof.
  intros H b Hb. rewrite forallb_forall in H. apply H. apply in_seq. lia.
Qed.

Lemma setlsb_spec p bit :
  byte p ->
  byte (setlsb p bit) /\
  Z.shiftr (setlsb p bit) 1 = Z.shiftr p 1 /\
  Z.testbit (setlsb p bit) 0 = bit.
Proof.
  intros Hp.
  pose proof (byte_cases (fun p => forallb (fun bit =>
             (0 <=? setlsb p bit) && (setlsb p bit <? 256)
             && (Z.shiftr (setlsb p bit) 1 =? Z.shiftr p 1)
             && Bool.eqb (Z.testbit (setlsb p bit) 0) bit) [true; false])
    ltac:(vm_compute; reflexivity) p ltac:(assumption)) as H.
  cbv beta in H. rewrite forallb_forall in H.
  specialize (H bit ltac:(destruct bit; simpl; auto)).
  repeat (apply andb_prop in H as [H ?]).
  unfold byte. rewrite Z.leb_le in *. rewrite Z.ltb_lt in *.
  rewrite Z.eqb_eq in *. apply Bool.eqb_prop in H0. auto.
Qed.

(** The test [byte & 0x80] after [b] shifts reads the bit [7 - b]. *)
Lemma hide_bit s b :
  byte s -> (b < 8)%nat ->
  (Z.land (u8 (Z.shiftl s (Z.of_nat b))) 128 =? 0)
  = negb (Z.testbit s (7 - Z.of_nat b))
  /\ u8 (Z.shiftl (u8 (Z.shiftl s (Z.of_nat b))) 1)
     = u8 (Z.shiftl s (Z.of_nat (Datatypes.S b))).
Proof.
  intros Hs Hb.
  pose proof (byte_cases (fun s => forallb (fun b =>
            Bool.eqb (Z.land (u8 (Z.shiftl s (Z.of_nat b))) 128 =? 0)
                     (negb (Z.testbit s (7 - Z.of_nat b)))
            && (u8 (Z.shiftl (u8 (Z.shiftl s (Z.of_nat b))) 1)
                =? u8 (Z.shiftl s (Z.of_nat (Datatypes.S b))))) (seq 0 8))
    ltac:(vm_compute; reflexivity) s ltac:(assumption)) as H.
  cbv beta in H. apply (bit_cases _ H) in Hb.
  apply andb_prop in Hb as [H1 H2].
  apply Bool.eqb_prop in H1. apply Z.eqb_eq in H2. auto.
Qed.

Lemma divmod8 (i b : nat) :
  (b < 8)%nat -> ((i * 8 + b) / 8 = i /\ (i * 8 + b) mod 8 = b)%nat.
Proof.
  intros Hb. split.
  - symmetry. apply Nat.div_unique with b; lia.
  - symmetry. apply Nat.mod_unique with i; lia.
Qed.

Lemma hide_inner orig s i px0 :
  bytes s -> (i < length s)%nat ->
  length px0 = length orig ->
  (8 * length s <= length orig)%nat ->
  (forall m, nth m px0 0 =
             if (m <? i * 8)%nat then hidden orig s m else nth m orig 0) ->
  exists px cur,
    for_ (i * 8) (8 * (i + 1))
      (fun j '(px, byte) =>
         p <- load px j ;;
         px <- store px j
                 (if Z.land byte 128 =? 0
                  then u8 (RIGHTMOST_BIT_OFF p)
                  else u8 (RIGHTMOST_BIT_ON p)) ;;
         Ok (px, u8 (Z.shiftl byte 1))) (px0, nth i s 0) = Ok (px, cur)
    /\ length px = length orig
    /\ forall m, nth m px 0 =
                 if (m <? (i + 1) * 8)%nat then hidden orig s m
                 else nth m orig 0.
Proof.
  intros Hs Hi Hlen Hcap H0.
  pose proof (bytes_nth s i Hs) as Hbyte.
  destruct (for_inv (fun j (st : list Z * Z) =>
              length (fst st) = length orig /\
              snd st = u8 (Z.shiftl (nth i s 0) (Z.of_nat (j - i * 8))) /\
              forall m, nth m (fst st) 0 =
                        if (m <? j)%nat then hidden orig s m
                        else nth m orig 0)
            (fun j '(px, byte) =>
               p <- load px j ;;
               px <- store px j
                       (if Z.land byte 128 =? 0
                        then u8 (RIGHTMOST_BIT_OFF p)
                        else u8 (RIGHTMOST_BIT_ON p)) ;;
               Ok (px, u8 (Z.shiftl byte 1)))
            (i * 8)%nat (8 * (i + 1))%nat (px0, nth i s 0))
    as ([px cur] & Hrun & Hl & _ & Hnth).
  - lia.
  - cbn [bind fst snd]. split; [assumption|]. split; [|assumption].
    rewrite Nat.sub_diag. cbn [bind fst snd]. rewrite u8_small; [reflexivity|exact Hbyte].
  - intros j [px cur] Hj (Hl & Hcur & Hnth). cbn [fst snd] in Hl, Hcur, Hnth.
    rewrite (load_nth px j 0) by lia. cbn [bind fst snd].
    rewrite store_upd by lia. cbn [bind fst snd].
    eexists. split; [reflexivity|]. cbn [bind fst snd].
    split; [rewrite length_upd; assumption|].
    destruct (hide_bit (nth i s 0) (j - i * 8) Hbyte ltac:(lia)) as [Hb Hsh].
    split.
    + rewrite Hcur, Hsh. do 3 f_equal. lia.
    + intros m. rewrite nth_upd by lia.
      destruct (Nat.eqb_spec m j) as [->|Hne].
      * replace (j <? Datatypes.S j)%nat with true
          by (symmetry; apply Nat.ltb_lt; lia).
        rewrite Hcur, Hb. rewrite (Hnth j), Nat.ltb_irrefl.
        unfold hidden, setlsb.
        destruct (divmod8 i (j - i * 8) ltac:(lia)) as [Hd Hm].
        replace (i * 8 + (j - i * 8))%nat with j in Hd, Hm by lia.
        rewrite Hd, Hm.
        destruct (Z.testbit _ _); reflexivity.
      * rewrite Hnth.
        destruct (Nat.ltb_spec m j), (Nat.ltb_spec m (Datatypes.S j));
          try reflexivity; lia.
  - exists px, cur. split; [assumption|]. split; [assumption|].
    intros m. rewrite Hnth.
    replace (8 * (i + 1))%nat with ((i + 1) * 8)%nat by lia. reflexivity.
Qed.

(** The carrier that [hideshadow] writes. *)
Lemma hideshadow_run bp shadow :
  bytes (imgpixels shadow) ->
  Z.of_nat (length (imgpixels shadow)) = bmpimagesize shadow ->
  (8 * length (imgpixels shadow) <= length (imgpixels bp))%nat ->
  exists c,
    hideshadow bp shadow = Ok c
    /\ BMPheader.unused1 (bmpheader c) = BMPheader.unused1 (bmpheader shadow)
    /\ BMPheader.unused2 (bmpheader c) = BMPheader.unused2 (bmpheader shadow)
    /\ length (imgpixels c) = length (imgpixels bp)
    /\ forall m, nth m (imgpixels c) 0 =
                 if (m <? length (imgpixels shadow) * 8)%nat
                 then hidden (imgpixels bp) (imgpixels shadow) m
                 else nth m (imgpixels bp) 0.
Proof.
  intros Hs Hsz Hcap. unfold hideshadow. cbv zeta.
  set (s := imgpixels shadow) in *. set (orig := imgpixels bp) in *.
  destruct (for_inv (fun i px =>
              length px = length orig /\
              forall m, nth m px 0 =
                        if (m <? i * 8)%nat then hidden orig s m
                        else nth m orig 0)
            (fun i px =>
               byte <- load s i ;;
               '(px, _) <- for_ (i * 8) (8 * (i + 1))
                             (fun j '(px, byte) =>
                                p <- load px j ;;
                                px <- store px j
                                        (if Z.land byte 128 =? 0
                                         then u8 (RIGHTMOST_BIT_OFF p)
                                         else u8 (RIGHTMOST_BIT_ON p)) ;;
                                Ok (px, u8 (Z.shiftl byte 1))) (px, byte) ;;
               Ok px)
            0%nat (Z.to_nat (bmpimagesize shadow)) orig)
    as (px & Hrun & Hl & Hnth).
  - lia.
  - split; [reflexivity|]. intros m. reflexivity.
  - intros i px Hi [Hl Hnth].
    rewrite (load_nth s i 0) by lia. cbn [bind fst snd].
    destruct (hide_inner orig s i px Hs ltac:(lia) Hl Hcap Hnth)
      as (px' & cur & Hrun & Hl' & Hnth').
    rewrite Hrun. cbn [bind fst snd]. exists px'. split; [reflexivity|].
    split; [assumption|].
    intros m. rewrite Hnth'.
    replace ((i + 1) * 8)%nat with (Datatypes.S i * 8)%nat by lia.
    reflexivity.
  - rewrite Hrun. cbn [bind fst snd]. eexists. split; [reflexivity|]. cbn [bind fst snd].
    repeat split; try assumption.
    intros m. rewrite Hnth. rewrite <- Hsz, Nat2Z.id. reflexivity.
Qed.

Lemma land1_testbit p : (Z.land p 1 =? 0) = negb (Z.testbit p 0).
Proof.
  change 1 with (Z.ones 1) at 1. rewrite Z.land_ones by lia.
  rewrite Z.bit0_odd. change (2 ^ 1) with 2. rewrite Zmod_odd.
  destruct (Z.odd p); reflexivity.
Qed.

Lemma retrieve_bit s b :
  byte s -> (b < 8)%nat ->
  (if Z.testbit s (7 - Z.of_nat b)
   then u8 (Z.lor (topbits s b) (maskof b)) else topbits s b)
  = topbits s (Datatypes.S b)
  /\ u8 (Z.shiftr (maskof b) 1) = maskof (Datatypes.S b).
Proof.
  intros Hs Hb.
  pose proof (byte_cases (fun s => forallb (fun b =>
            ((if Z.testbit s (7 - Z.of_nat b)
              then u8 (Z.lor (topbits s b) (maskof b)) else topbits s b)
             =? topbits s (Datatypes.S b))
            && (u8 (Z.shiftr (maskof b) 1) =? maskof (Datatypes.S b)))
            (seq 0 8))
    ltac:(vm_compute; reflexivity) s ltac:(assumption)) as H.
  cbv beta in H. apply (bit_cases _ H) in Hb.
  apply andb_prop in Hb as [H1 H2]. rewrite Z.eqb_eq in *. auto.
Qed.

Lemma topbits_ends s : byte s -> topbits s 0 = 0 /\ topbits s 8 = s.
Proof.
  intros Hs.
  pose proof (byte_cases (fun s => (topbits s 0 =? 0) && (topbits s 8 =? s))
    ltac:(vm_compute; reflexivity) s ltac:(assumption)) as H.
  cbv beta in H. apply andb_prop in H as [H1 H2].
  rewrite Z.eqb_eq in *. auto.
Qed.

Lemma retrieve_inner c s i :
  bytes s -> (i < length s)%nat ->
  (8 * length s <= length c)%nat ->
  (forall b, (b < 8)%nat ->
     Z.testbit (nth (i * 8 + b) c 0) 0
     = Z.testbit (nth i s 0) (7 - Z.of_nat b)) ->
  exists mask,
    for_ (i * 8) (8 * (i + 1))
      (fun j '(byte, mask) =>
         p <- load c j ;;
         Ok (if Z.land p 1 =? 0 then byte else u8 (Z.lor byte mask),
             u8 (Z.shiftr mask 1))) (0, 128) = Ok (nth i s 0, mask).
Proof.
  intros Hs Hi Hcap Hbits.
  pose proof (bytes_nth s i Hs) as Hbyte.
  destruct (topbits_ends _ Hbyte) as [Ht0 Ht8].
  destruct (for_inv (fun j (st : Z * Z) =>
              fst st = topbits (nth i s 0) (j - i * 8) /\
              snd st = maskof (j - i * 8))
            (fun j '(byte, mask) =>
               p <- load c j ;;
               Ok (if Z.land p 1 =? 0 then byte else u8 (Z.lor byte mask),
                   u8 (Z.shiftr mask 1)))
            (i * 8)%nat (8 * (i + 1))%nat (0, 128))
    as ([byte mask] & Hrun & Hb & _).
  - lia.
  - rewrite Nat.sub_diag. simpl fst. simpl snd. rewrite Ht0. auto.
  - intros j [byte mask] Hj [Hb Hm]. cbn [fst snd] in Hb, Hm.
    rewrite (load_nth c j 0) by lia. cbn [bind fst snd].
    eexists. split; [reflexivity|]. cbn [bind fst snd].
    destruct (retrieve_bit (nth i s 0) (j - i * 8) Hbyte ltac:(lia))
      as [H1 H2].
    replace (Datatypes.S j - i * 8)%nat with (Datatypes.S (j - i * 8)) by lia.
    rewrite <- H1, <- H2, land1_testbit, Hb, Hm.
    replace j with (i * 8 + (j - i * 8))%nat at 1 by lia.
    rewrite Hbits by lia.
    split; [|reflexivity].
    destruct (Z.testbit (nth i s 0) _); reflexivity.
  - exists mask. rewrite Hrun. cbn [fst snd] in Hb. rewrite Hb.
    replace (8 * (i + 1) - i * 8)%nat with 8%nat by lia.
    rewrite Ht8. reflexivity.
Qed.

(** What [retrieveshadow] reads from a carrier whose low bits spell [s]. *)
Lemma retrieveshadow_run bp s width height k :
  bytes s ->
  k <> 0%nat ->
  retrievedsize width height k = Z.of_nat (length s) ->
  (8 * length s <= length (imgpixels bp))%nat ->
  8 * Z.of_nat (length s) < 2 ^ 32 ->
  (forall i b, (i < length s)%nat -> (b < 8)%nat ->
     Z.testbit (nth (i * 8 + b) (imgpixels bp) 0) 0
     = Z.testbit (nth i s 0) (7 - Z.of_nat b)) ->
  exists sh,
    retrieveshadow bp width height k = Ok sh
    /\ imgpixels sh = s
    /\ BMPheader.unused1 (bmpheader sh) = BMPheader.unused1 (bmpheader bp)
    /\ BMPheader.unused2 (bmpheader sh) = BMPheader.unused2 (bmpheader bp)
    /\ DIBheader.pixelarraysize (dibheader sh) = Z.of_nat (length s).
Proof.
  intros Hs Hk Hsize Hcap H32 Hbits.
  unfold retrieveshadow, retrievedsize in *.
  destruct (Nat.eqb_spec k 0) as [|_]; [contradiction|].
  destruct (match findclosestpair _ with Some wh => wh | None => _ end)
    as [w h].
  cbv zeta.
  set (sh0 := newshadow w h (BMPheader.unused1 (bmpheader bp))
                        (BMPheader.unused2 (bmpheader bp))).
  assert (Hps : DIBheader.pixelarraysize (dibheader sh0)
                = Z.of_nat (length s)) by exact Hsize.
  assert (Hpx0 : length (imgpixels sh0) = length s).
  { unfold sh0, newshadow, newbitmaphelper, xmalloc. cbn [imgpixels].
    rewrite repeat_length, Hsize, Nat2Z.id. reflexivity. }
  rewrite Hps, Nat2Z.id.
  destruct (for_inv (fun i px =>
              length px = length s /\
              forall m, (m < i)%nat -> nth m px 0 = nth m s 0)
            (fun i px =>
               '(byte, _) <-
                 for_ (Z.to_nat (u32 (Z.of_nat i * 8)))
                      (Z.to_nat (u32 (8 * (Z.of_nat i + 1))))
                   (fun j '(byte, mask) =>
                      p <- load (imgpixels bp) j ;;
                      Ok (if Z.land p 1 =? 0 then byte
                          else u8 (Z.lor byte mask),
                          u8 (Z.shiftr mask 1))) (0, 128) ;;
               store px i byte)
            0%nat (length s)
            (imgpixels sh0))
    as (px & Hrun & Hl & Hnth).
  - lia.
  - split; [assumption|intros m Hm; lia].
  - intros i px Hi [Hl Hnth].
    rewrite !u32_small by lia.
    replace (Z.to_nat (Z.of_nat i * 8)) with (i * 8)%nat by lia.
    replace (Z.to_nat (8 * (Z.of_nat i + 1))) with (8 * (i + 1))%nat by lia.
    destruct (retrieve_inner (imgpixels bp) s i Hs ltac:(lia) Hcap)
      as (mask & Hin).
    { intros b Hb. apply Hbits; lia. }
    rewrite Hin. cbn [bind fst snd]. rewrite store_upd by lia.
    eexists. split; [reflexivity|]. split.
    + rewrite length_upd. assumption.
    + intros m Hm. rewrite nth_upd by lia.
      destruct (Nat.eqb_spec m i) as [->|]; [reflexivity|].
      apply Hnth. lia.
  - rewrite Hrun. cbn [bind]. eexists. split; [reflexivity|].
    split; [|repeat split; assumption].
    cbn [imgpixels set_imgpixels].
    apply (nth_ext _ _ 0 0); [assumption|].
    intros m Hm. apply Hnth. lia.
Qed.

Lemma hidden_spec orig s m :
  bytes orig ->
  byte (hidden orig s m)
  /\ Z.shiftr (hidden orig s m) 1 = Z.shiftr (nth m orig 0) 1
  /\ Z.testbit (hidden orig s m) 0
     = Z.testbit (nth (m / 8) s 0) (7 - Z.of_nat (m mod 8)).
Proof.
  intros Ho. unfold hidden. apply setlsb_spec. apply bytes_nth. assumption.
Qed.

(** C9. Hiding a shadow changes least-significant bits only.  For a carrier
    of bytes with room for the shadow (eight carrier bytes for each shadow
    byte), [hideshadow] succeeds; every byte of the carrier it writes has the
    high seven bits of the byte it replaces; the low bits of the bytes
    [8 i .. 8 i + 7] are the bits of the shadow pixel [i], the most
    significant first; and [retrieveshadow], called for parameters under which
    it allocates a shadow of this size, reads the pixels of the shadow back
    exactly, with its seed and shadow number. *)
Theorem lsb_fidelity (bp shadow : Bitmap) (width height : Z) (k : nat) :
  bytes (imgpixels bp) ->
  wf_bitmap shadow ->
  (8 * length (imgpixels shadow) <= length (imgpixels bp))%nat ->
  8 * Z.of_nat (length (imgpixels shadow)) < 2 ^ 32 ->
  k <> 0%nat ->
  retrievedsize width height k = Z.of_nat (length (imgpixels shadow)) ->
  exists c,
    hideshadow bp shadow = Ok c
    /\ length (imgpixels c) = length (imgpixels bp)
    /\ (forall m, Z.shiftr (nth m (imgpixels c) 0) 1
                  = Z.shiftr (nth m (imgpixels bp) 0) 1)
    /\ (forall i b, (i < length (imgpixels shadow))%nat -> (b < 8)%nat ->
          Z.testbit (nth (8 * i + b) (imgpixels c) 0) 0
          = Z.testbit (nth i (imgpixels shadow) 0) (7 - Z.of_nat b))
    /\ exists sh,
         retrieveshadow c width height k = Ok sh
         /\ imgpixels sh = imgpixels shadow
         /\ BMPheader.unused1 (bmpheader sh)
            = BMPheader.unused1 (bmpheader shadow)
         /\ BMPheader.unused2 (bmpheader sh)
            = BMPheader.unused2 (bmpheader shadow).
Proof.
  intros Hbp [Hs Hsz] Hcap H32 Hk Hdim.
  destruct (hideshadow_run bp shadow Hs Hsz Hcap)
    as (c & Hrun & Hu1 & Hu2 & Hlen & Hnth).
  exists c. split; [assumption|]. split; [assumption|].
  assert (Hbits : forall i b,
            (i < length (imgpixels shadow))%nat -> (b < 8)%nat ->
            Z.testbit (nth (i * 8 + b) (imgpixels c) 0) 0
            = Z.testbit (nth i (imgpixels shadow) 0) (7 - Z.of_nat b)).
  { intros i b Hi Hb. rewrite Hnth.
    replace (i * 8 + b <? length (imgpixels shadow) * 8)%nat with true
      by (symmetry; apply Nat.ltb_lt; lia).
    destruct (hidden_spec (imgpixels bp) (imgpixels shadow) (i * 8 + b) Hbp)
      as (_ & _ & ->).
    destruct (divmod8 i b Hb) as [-> ->].
    reflexivity. }
  split; [|split].
  - intros m. rewrite Hnth.
    destruct (m <? length (imgpixels shadow) * 8)%nat; [|reflexivity].
    apply hidden_spec. assumption.
  - intros i b Hi Hb. rewrite (Nat.mul_comm 8 i). apply Hbits; assumption.
  - destruct (retrieveshadow_run c (imgpixels shadow) width height k)
      as (sh & Hr & Hpx & H1 & H2 & _); try assumption; [lia|].
    exists sh. repeat split; try assumption; congruence.
Qed.

Lemma lsb_fidelity_witness :
  (wf_bitmap shadow0 /\ retrievedsize 4 9 3 = 12) /\
  exists c,
    hideshadow carrier0 shadow0 = Ok c
    /\ length (imgpixels c) = length (imgpixels carrier0)
    /\ (forall m, Z.shiftr (nth m (imgpixels c) 0) 1
                  = Z.shiftr (nth m (imgpixels carrier0) 0) 1)
    /\ (forall i b, (i < length (imgpixels shadow0))%nat -> (b < 8)%nat ->
          Z.testbit (nth (8 * i + b) (imgpixels c) 0) 0
          = Z.testbit (nth i (imgpixels shadow0) 0) (7 - Z.of_nat b))
    /\ exists sh,
         retrieveshadow c 4 9 3 = Ok sh
         /\ imgpixels sh = imgpixels shadow0
         /\ BMPheader.unused1 (bmpheader sh)
            = BMPheader.unused1 (bmpheader shadow0)
         /\ BMPheader.unused2 (bmpheader sh)
            = BMPheader.unused2 (bmpheader shadow0).
Proof.
  assert (Hwf : wf_bitmap shadow0).
  { split; [|reflexivity]. repeat constructor; unfold byte; lia. }
  split; [split; [exact Hwf | reflexivity]|].
  apply (lsb_fidelity carrier0 shadow0 4 9 3).
  - apply bytes_check. vm_compute. reflexivity.
  - exact Hwf.
  - vm_compute. lia.
  - vm_compute. reflexivity.
  - discriminate.
  - reflexivity.
Defined.

(** ** Matrices *)

Lemma mget_entry k mat i t :
  shape k mat -> (i < k)%nat -> (t <= k)%nat ->
  mget mat i t = Ok (entry mat i t).
Proof.
  intros [Hl Hr] Hi Ht. unfold mget, entry.
  rewrite (load_nth mat i []) by lia. cbn [bind fst snd].
  apply load_nth. rewrite Hr by assumption. lia.
Qed.

Lemma mset_mupd k mat i t v :
  shape k mat -> (i < k)%nat -> (t <= k)%nat ->
  mset mat i t v = Ok (mupd mat i t v).
Proof.
  intros [Hl Hr] Hi Ht. unfold mset, mupd.
  rewrite (load_nth mat i []) by lia. cbn [bind fst snd].
  rewrite store_upd by (rewrite Hr by assumption; lia). cbn [bind fst snd].
  apply store_upd. lia.
Qed.

Lemma shape_mupd k mat i t v : shape k mat -> shape k (mupd mat i t v).
Proof.
  intros [Hl Hr]. unfold mupd. split.
  - rewrite length_upd. assumption.
  - intros r Hrk.
    destruct (Nat.eq_dec r i) as [->|Hne].
    + rewrite nth_upd_eq by lia. rewrite length_upd. apply Hr. assumption.
    + rewrite nth_upd_neq by auto. apply Hr. assumption.
Qed.

Lemma entry_mupd k mat i t v i' t' :
  shape k mat -> (i < k)%nat -> (t <= k)%nat ->
  entry (mupd mat i t v) i' t'
  = if ((i' =? i) && (t' =? t))%nat then v else entry mat i' t'.
Proof.
  intros [Hl Hr] Hi Ht. unfold entry, mupd.
  destruct (Nat.eqb_spec i' i) as [->|Hne]; cbn [bind fst snd].
  - rewrite nth_upd_eq by lia.
    rewrite nth_upd by (rewrite Hr by assumption; lia). reflexivity.
  - rewrite nth_upd_neq by auto. reflexivity.
Qed.

Lemma shape_xmalloc k : shape k (repeat (xmalloc (Z.of_nat k + 1)) k).
Proof.
  split.
  - apply repeat_length.
  - intros i Hi. rewrite nth_repeat_lt by assumption.
    unfold xmalloc. rewrite repeat_length. lia.
Qed.

(** ** Assembling the share matrix (C3) *)

Lemma pow_le_top x (t k : nat) :
  0 <= x -> (1 <= t <= k)%nat -> 0 <= x ^ Z.of_nat t <= x ^ Z.of_nat k.
Proof.
  intros Hx Ht. split; [apply Z.pow_nonneg; assumption|].
  destruct (Z.eq_dec x 0) as [->|Hne].
  - rewrite !Z.pow_0_l by lia. lia.
  - apply Z.pow_le_mono_r; lia.
Qed.

Lemma load_nth_error {A} (l : list A) i a :
  nth_error l i = Some a -> load l i = Ok a.
Proof. intros H. unfold load. rewrite H. reflexivity. Qed.

Lemma fillrow_run sp k i j mat :
  shape k mat -> (j < k)%nat ->
  0 <= shadownumber sp -> shadownumber sp ^ Z.of_nat k < 2 ^ 31 ->
  (i < length (imgpixels sp))%nat ->
  exists mat',
    fillrow sp k i j mat = Ok mat'
    /\ shape k mat'
    /\ forall r t, (r < k)%nat -> (t <= k)%nat ->
         entry mat' r t =
         if (r =? j)%nat
         then sharerow (shadownumber sp) (nth i (imgpixels sp) 0) k t
         else entry mat r t.
Proof.
  intros Hsh Hj Hx0 Hxk Hi. unfold fillrow.
  fold (shadownumber sp). set (x := shadownumber sp) in *.
  rewrite (mset_mupd k) by (assumption || lia). cbn [bind fst snd].
  destruct (for_inv (fun t (st : matrix * Z) =>
              shape k (fst st) /\ snd st = x ^ Z.of_nat t /\
              forall r c, (r < k)%nat -> (c <= k)%nat ->
                entry (fst st) r c =
                if ((r =? j) && (c <? t))%nat then x ^ Z.of_nat c
                else entry mat r c)
            (fun t '(mat, value) =>
               mat <- mset mat j t value ;; Ok (mat, i32 (value * x)))
            1%nat k (mupd mat j 0 1, x))
    as ([m1 v1] & Hrun & Hs1 & _ & He1).
  - lia.
  - cbn [bind fst snd]. split; [apply shape_mupd; assumption|].
    split; [rewrite Z.pow_1_r; reflexivity|].
    intros r c Hr Hc. rewrite (entry_mupd k) by (assumption || lia).
    destruct (Nat.eqb_spec r j); simpl; [|reflexivity].
    destruct (Nat.eqb_spec c 0) as [->|]; simpl; [reflexivity|].
    replace (c <? 1)%nat with false; [reflexivity|].
    symmetry. apply Nat.ltb_ge. lia.
  - intros t [m v] Ht (Hs & Hv & He). cbn [fst snd] in Hs, Hv, He.
    rewrite (mset_mupd k) by (assumption || lia). cbn [bind fst snd].
    eexists. split; [reflexivity|]. cbn [bind fst snd].
    split; [apply shape_mupd; assumption|]. split.
    + subst v.
      pose proof (pow_le_top x (Datatypes.S t) k Hx0 ltac:(lia)) as Hp.
      rewrite Nat2Z.inj_succ in *. rewrite Z.pow_succ_r in * by lia.
      rewrite (Z.mul_comm (x ^ Z.of_nat t) x).
      apply i32_small. lia.
    + intros r c Hr Hc. rewrite (entry_mupd k) by (assumption || lia).
      rewrite He by assumption.
      destruct (Nat.eqb_spec r j); simpl; [|reflexivity].
      destruct (Nat.eqb_spec c t) as [->|Hne].
      * replace (t <? Datatypes.S t)%nat with true
          by (symmetry; apply Nat.ltb_lt; lia).
        assumption.
      * destruct (Nat.ltb_spec c t), (Nat.ltb_spec c (Datatypes.S t));
          try reflexivity; lia.
  - rewrite Hrun. cbn [bind fst snd].
    rewrite (load_nth _ i 0) by assumption. cbn [bind fst snd].
    rewrite (mset_mupd k) by (assumption || lia).
    eexists. split; [reflexivity|].
    split; [apply shape_mupd; assumption|].
    intros r t Hr Ht. rewrite (entry_mupd k) by (assumption || lia).
    cbn [fst snd] in He1. rewrite He1 by assumption. unfold sharerow.
    destruct (Nat.eqb_spec r j); simpl; [|reflexivity].
    destruct (Nat.eqb_spec t k) as [->|Hne]; [reflexivity|].
    replace (t <? k)%nat with true by (symmetry; apply Nat.ltb_lt; lia).
    reflexivity.
Qed.

Lemma fillmatrix_run shadows k i mat :
  shape k mat ->
  (forall j, (j < k)%nat ->
     exists sp, nth_error shadows j = Some sp
       /\ 0 <= shadownumber sp /\ shadownumber sp ^ Z.of_nat k < 2 ^ 31
       /\ (i < length (imgpixels sp))%nat) ->
  exists mat',
    fillmatrix shadows k i mat = Ok mat'
    /\ shape k mat'
    /\ forall j sp t, (j < k)%nat -> (t <= k)%nat ->
         nth_error shadows j = Some sp ->
         entry mat' j t
         = sharerow (shadownumber sp) (nth i (imgpixels sp) 0) k t.
Proof.
  intros Hsh Hsp. unfold fillmatrix.
  destruct (for_inv (fun j m =>
              shape k m /\
              forall r sp t, (r < j)%nat -> (t <= k)%nat ->
                nth_error shadows r = Some sp ->
                entry m r t
                = sharerow (shadownumber sp) (nth i (imgpixels sp) 0) k t)
            (fun j mat => sp <- load shadows j ;; fillrow sp k i j mat)
            0%nat k mat)
    as (m & Hrun & Hs & He).
  - lia.
  - split; [assumption|]. intros r sp t Hr. lia.
  - intros j m Hj [Hs He].
    destruct (Hsp j ltac:(lia)) as (sp & Hnth & Hx0 & Hxk & Hi).
    rewrite (load_nth_error _ _ _ Hnth). cbn [bind fst snd].
    destruct (fillrow_run sp k i j m Hs ltac:(lia) Hx0 Hxk Hi)
      as (m' & Hrun & Hs' & He').
    exists m'. split; [assumption|]. split; [assumption|].
    intros r sp' t Hr Ht Hnth'. rewrite He' by lia.
    destruct (Nat.eqb_spec r j) as [->|Hne].
    + congruence.
    + apply He; (assumption || lia).
  - exists m. split; [assumption|]. split; [assumption|].
    intros j sp t Hj Ht Hnth. apply He; assumption.
Qed.

(** C3, amended.  The matrix that [revealsecret] assembles for a pixel holds
    in the column [t < k] of the row [j] the power [shadowIndex_j ^ t] itself,
    not reduced modulo 257 (it is congruent to the reduced power, and the
    elimination reduces it later), and in the column [k] the pixel of the
    shadow, a byte; this for shadow numbers whose [k]-th power fits the
    [int] in which the powers are computed. *)
Theorem sharematrix_entries (shadows : list Bitmap) (k i : nat) (mat : matrix) :
  shape k mat ->
  (forall j, (j < k)%nat ->
     exists sp, nth_error shadows j = Some sp
       /\ 0 <= shadownumber sp /\ shadownumber sp ^ Z.of_nat k < 2 ^ 31
       /\ (i < length (imgpixels sp))%nat /\ bytes (imgpixels sp)) ->
  exists mat',
    fillmatrix shadows k i mat = Ok mat'
    /\ shape k mat'
    /\ forall j sp, (j < k)%nat -> nth_error shadows j = Some sp ->
         (forall t, (t < k)%nat ->
            entry mat' j t = shadownumber sp ^ Z.of_nat t
            /\ entry mat' j t mod PRIME
               = shadownumber sp ^ Z.of_nat t mod PRIME)
         /\ entry mat' j k = nth i (imgpixels sp) 0
         /\ 0 <= entry mat' j k <= 255.
Proof.
  intros Hsh Hsp.
  destruct (fillmatrix_run shadows k i mat Hsh) as (m & Hrun & Hs & He).
  { intros j Hj. destruct (Hsp j Hj) as (sp & H1 & H2 & H3 & H4 & _).
    exists sp. auto. }
  exists m. split; [assumption|]. split; [assumption|].
  intros j sp Hj Hnth.
  assert (Hk : entry m j k = nth i (imgpixels sp) 0).
  { rewrite (He j sp k) by (assumption || lia).
    unfold sharerow. rewrite Nat.eqb_refl. reflexivity. }
  split; [|split; [assumption|]].
  - intros t Ht. rewrite (He j sp t) by (assumption || lia).
    unfold sharerow.
    destruct (Nat.eqb_spec t k); [lia|]. split; reflexivity.
  - rewrite Hk. destruct (Hsp j Hj) as (sp' & H1 & _ & _ & _ & Hb).
    assert (sp' = sp) by congruence. subst sp'.
    pose proof (bytes_nth _ i Hb) as H. unfold byte in H. lia.
Qed.

Lemma sharematrix_entries_witness :
  exists mat',
    fillmatrix shadows17 3 0 (repeat (xmalloc 4) 3) = Ok mat'
    /\ shape 3 mat'
    /\ forall j sp, (j < 3)%nat -> nth_error shadows17 j = Some sp ->
         (forall t, (t < 3)%nat ->
            entry mat' j t = shadownumber sp ^ Z.of_nat t
            /\ entry mat' j t mod PRIME
               = shadownumber sp ^ Z.of_nat t mod PRIME)
         /\ entry mat' j 3%nat = nth 0 (imgpixels sp) 0
         /\ 0 <= entry mat' j 3%nat <= 255.
Proof.
  apply (sharematrix_entries shadows17 3 0).
  - apply (shape_xmalloc 3).
  - intros j Hj.
    destruct j as [|[|[|j]]]; [| | |lia];
      (eexists; split; [reflexivity|]);
      (repeat split; try (vm_compute; congruence);
       [simpl; lia | repeat constructor; unfold byte; lia]).
Defined.

(** C3 as stated fails: with the shadow number 17 and [k = 3] the matrix
    holds 289 in the column 2, which is neither below 257 nor
    [17^2 mod 257 = 32]. *)
Lemma sharematrix_not_reduced :
  fillmatrix shadows17 3 0 (repeat (xmalloc 4) 3)
  = Ok [[1; 17; 289; 5]; [1; 2; 4; 6]; [1; 3; 9; 7]]
  /\ entry [[1; 17; 289; 5]; [1; 2; 4; 6]; [1; 3; 9; 7]] 0 2 = 289
  /\ 257 <= 289
  /\ 17 ^ 2 mod 257 = 32.
Proof. repeat split; vm_compute; congruence. Qed.

(** ** Zero pivots (C8) *)

Lemma modinv_at_range v :
  0 <= v < PRIME -> exists inv, modinv_at v = Ok inv /\ 0 <= inv < PRIME.
Proof.
  intros Hv. unfold PRIME in *.
  destruct (Z.eq_dec v 0) as [->|Hne].
  - exists 0. split; [reflexivity | lia].
  - destruct (modinv_at_inverse v ltac:(lia)) as (inv & H & _ & Hr).
    exists inv. unfold PRIME in Hr. split; [assumption | lia].
Qed.

Lemma mod__range x : 0 <= mod_ x PRIME < PRIME.
Proof. apply Z.mod_pos_bound. reflexivity. Qed.

Lemma crem_mul_range a b :
  0 <= a < PRIME -> 0 <= b < PRIME ->
  crem (i32 (a * b)) PRIME = (a * b) mod PRIME
  /\ 0 <= crem (i32 (a * b)) PRIME < PRIME.
Proof.
  unfold PRIME. intros Ha Hb.
  assert (0 <= a * b < 257 * 257) by nia.
  rewrite i32_small by lia. unfold crem.
  rewrite Z.rem_mod_nonneg by lia.
  split; [reflexivity | apply Z.mod_pos_bound; lia].
Qed.

Lemma reduced_mupd k mat i t v :
  shape k mat -> reduced k mat -> (i < k)%nat -> (t <= k)%nat ->
  0 <= v < PRIME -> reduced k (mupd mat i t v).
Proof.
  intros Hs Hr Hi Ht Hv i' t' Hi' Ht'.
  rewrite (entry_mupd k) by assumption.
  destruct ((i' =? i) && (t' =? t))%nat; [assumption | apply Hr; assumption].
Qed.

Lemma eliminate_reduced k j i mat :
  shape k mat -> reduced k mat -> (1 <= i < k)%nat -> (j <= k)%nat ->
  exists mat',
    eliminate k j i mat = Ok mat' /\ shape k mat' /\ reduced k mat'.
Proof.
  intros Hs Hr Hi Hj. unfold eliminate.
  rewrite !(mget_entry k) by (assumption || lia). cbn [bind fst snd].
  destruct (modinv_at_range (entry mat (i - 1) j)) as (inv & -> & Hinv);
    [apply Hr; lia|]. cbn [bind fst snd].
  apply (for_inv (fun _ m => shape k m /\ reduced k m)); [lia | auto |].
  intros t m Ht [Hs' Hr'].
  rewrite !(mget_entry k) by (assumption || lia). cbn [bind fst snd].
  rewrite (mset_mupd k) by (assumption || lia).
  eexists. split; [reflexivity|].
  split; [apply shape_mupd; assumption|].
  apply reduced_mupd; try assumption; try lia. apply mod__range.
Qed.

Lemma echelon_reduced k mat :
  shape k mat -> reduced k mat ->
  exists mat', echelon k mat = Ok mat' /\ shape k mat' /\ reduced k mat'.
Proof.
  intros Hs Hr. unfold echelon.
  apply (for_inv (fun _ m => shape k m /\ reduced k m)); [lia | auto |].
  intros j m Hj [Hs' Hr'].
  apply (for_down_inv (fun _ m => shape k m /\ reduced k m));
    [lia | auto |].
  intros i m' Hi [Hs'' Hr''].
  apply eliminate_reduced; (assumption || lia).
Qed.

Lemma substitute_reduced k i mat :
  shape k mat -> reduced k mat -> (1 <= i < k)%nat ->
  exists mat',
    substitute k i mat = Ok mat' /\ shape k mat' /\ reduced k mat'.
Proof.
  intros Hs Hr Hi. unfold substitute.
  rewrite !(mget_entry k) by (assumption || lia). cbn [bind fst snd].
  destruct (modinv_at_range (entry mat i i)) as (inv & -> & Hinv);
    [apply Hr; lia|]. cbn [bind fst snd].
  rewrite (mset_mupd k) by (assumption || lia). cbn [bind fst snd].
  set (m1 := mupd mat i k _).
  assert (Hs1 : shape k m1) by (apply shape_mupd; assumption).
  assert (Hr1 : reduced k m1).
  { apply reduced_mupd; try assumption; try lia.
    apply crem_mul_range; [apply Hr; lia | assumption]. }
  rewrite !(mget_entry k) by (assumption || lia). cbn [bind fst snd].
  destruct (modinv_at_range (entry m1 i i)) as (inv' & -> & Hinv');
    [apply Hr1; lia|]. cbn [bind fst snd].
  rewrite (mset_mupd k) by (assumption || lia). cbn [bind fst snd].
  set (m2 := mupd m1 i i _).
  assert (Hs2 : shape k m2) by (apply shape_mupd; assumption).
  assert (Hr2 : reduced k m2).
  { apply reduced_mupd; try assumption; try lia.
    apply crem_mul_range; [apply Hr1; lia | assumption]. }
  apply (for_down_inv (fun _ m => shape k m /\ reduced k m));
    [lia | auto |].
  intros t1 m Ht [Hs' Hr'].
  rewrite !(mget_entry k) by (assumption || lia). cbn [bind fst snd].
  rewrite (mset_mupd k) by (assumption || lia). cbn [bind fst snd].
  rewrite (mset_mupd k) by (try apply shape_mupd; assumption || lia).
  eexists. split; [reflexivity|].
  split; [repeat apply shape_mupd; assumption|].
  apply reduced_mupd; try lia.
  - apply shape_mupd; assumption.
  - apply reduced_mupd; try assumption; try lia. apply mod__range.
Qed.

Lemma reduce_reduced k mat :
  shape k mat -> reduced k mat ->
  exists mat', reduce k mat = Ok mat' /\ shape k mat' /\ reduced k mat'.
Proof.
  intros Hs Hr. unfold reduce.
  apply (for_down_inv (fun _ m => shape k m /\ reduced k m));
    [lia | auto |].
  intros i m Hi [Hs' Hr'].
  apply substitute_reduced; (assumption || lia).
Qed.

(** C8, amended.  [findcoefficients] has no test for a zero pivot: the
    table gives [modinv[0] = 0], the row operation goes on with the factor 0,
    and for every [k >= 1] and every [k] by [k + 1] matrix with entries in
    [[0, 257)], singular or not, it returns a matrix of the same kind. *)
Theorem findcoefficients_returns (mat : matrix) (k : nat) :
  (1 <= k)%nat -> shape k mat -> reduced k mat ->
  modinv_at 0 = Ok 0 /\
  exists mat',
    findcoefficients mat k = Ok mat' /\ shape k mat' /\ reduced k mat'.
Proof.
  intros Hk Hs Hr. split; [reflexivity|].
  unfold findcoefficients.
  destruct (Nat.eqb_spec k 0) as [|_]; [lia|].
  destruct (echelon_reduced k mat Hs Hr) as (m1 & -> & Hs1 & Hr1). cbn [bind fst snd].
  apply reduce_reduced; assumption.
Qed.

Lemma samerows_reduced : shape 2 samerows /\ reduced 2 samerows.
Proof.
  split.
  - split; [reflexivity|]. intros [|[|i]] Hi; try reflexivity; lia.
  - intros [|[|i]] [|[|[|t]]] Hi Ht; try lia; vm_compute; split; congruence.
Qed.

Lemma findcoefficients_returns_witness :
  modinv_at 0 = Ok 0 /\
  exists mat',
    findcoefficients samerows 2 = Ok mat' /\ shape 2 mat' /\ reduced 2 mat'.
Proof.
  apply (findcoefficients_returns samerows 2);
    [lia | apply samerows_reduced | apply samerows_reduced].
Defined.

(** C8 as stated fails: for two rows with the same shadow number the
    elimination leaves the pivot [mat[1][1] = 0], the back substitution
    multiplies by [modinv[0]], and [findcoefficients] returns a matrix all
    the same. *)
Lemma zero_pivot_not_fatal :
  echelon 2 samerows = Ok [[1; 1; 5]; [0; 0; 4]]
  /\ mget [[1; 1; 5]; [0; 0; 4]] 1 1 = Ok 0
  /\ findcoefficients samerows 2 = Ok [[1; 0; 5]; [0; 0; 0]].
Proof. repeat split. Qed.

(** * Further properties of the code *)

(** ** The [double] arithmetic *)

Lemma pow2_53_lt_1024 : 2 ^ 53 < 2 ^ 1024.
Proof. apply Z.pow_lt_mono_r; lia. Qed.

Lemma of_Z_exact x : 0 <= x < 2 ^ 53 -> Double.of_Z x = Double.Fin x.
Proof.
  intros Hx. unfold Double.of_Z, Double.round53.
  destruct (Z.ltb_spec x (2 ^ 53)) as [_|]; [|lia].
  destruct (Z.ltb_spec x (2 ^ 1024)) as [_|H]; [reflexivity|].
  pose proof pow2_53_lt_1024. lia.
Qed.

Lemma pow_nonneg_lt x (r k : nat) :
  1 <= x -> (r <= k)%nat -> 1 <= x ^ Z.of_nat r <= x ^ Z.of_nat k.
Proof.
  intros Hx Hr. split.
  - assert (0 < x ^ Z.of_nat r) by (apply Z.pow_pos_nonneg; lia). lia.
  - apply Z.pow_le_mono_r; lia.
Qed.

(** One turn of the loop over the coefficients, when nothing is rounded. *)
Lemma shadowpixel_step value c x (r : nat) :
  0 <= value -> 0 <= c -> 1 <= x ->
  x ^ Z.of_nat r < 2 ^ 53 ->
  value + c * x ^ Z.of_nat r < 2 ^ 53 ->
  Double.to_u64
    (Double.add (Double.of_Z value)
       (Double.mul (Double.of_Z c) (Double.pow x r)))
  = Ok (value + c * x ^ Z.of_nat r).
Proof.
  intros Hv Hc Hx Hp Hs.
  assert (Hp0 : 1 <= x ^ Z.of_nat r) by (apply (pow_nonneg_lt x r r); lia).
  assert (Hcp : 0 <= c * x ^ Z.of_nat r) by nia.
  assert (Hc53 : c < 2 ^ 53) by nia.
  unfold Double.pow.
  rewrite (of_Z_exact value), (of_Z_exact c), (of_Z_exact (x ^ Z.of_nat r))
    by lia.
  cbn [Double.mul]. rewrite of_Z_exact by lia.
  cbn [Double.add]. rewrite of_Z_exact by lia.
  cbn [Double.to_u64].
  destruct (Z.ltb_spec (value + c * x ^ Z.of_nat r) (2 ^ 64)) as [_|H];
    [reflexivity|].
  assert (2 ^ 53 < 2 ^ 64) by (apply Z.pow_lt_mono_r; lia). lia.
Qed.

Lemma polyeval_nonneg k coeff x :
  bytes coeff -> 0 <= x -> 0 <= polyeval k coeff x.
Proof.
  intros Hb Hx. induction k as [|k IH]; cbn [polyeval]; [lia|].
  pose proof (bytes_nth coeff k Hb) as Hk. unfold byte in Hk.
  assert (0 <= x ^ Z.of_nat k) by (apply Z.pow_nonneg; lia). nia.
Qed.

Lemma polyeval_mono k k' coeff x :
  bytes coeff -> 0 <= x -> (k <= k')%nat ->
  polyeval k coeff x <= polyeval k' coeff x.
Proof.
  intros Hb Hx Hk. induction Hk as [|k' Hk IH]; [lia|].
  cbn [polyeval].
  pose proof (bytes_nth coeff k' Hb) as Hc. unfold byte in Hc.
  assert (0 <= x ^ Z.of_nat k') by (apply Z.pow_nonneg; lia). nia.
Qed.

(** ** The section polynomial *)

Lemma shadowpixel_exact coeff k i :
  bytes coeff -> (k <= length coeff)%nat ->
  (Z.of_nat i + 1) ^ Z.of_nat (k - 1) < 2 ^ 53 ->
  polyeval k coeff (Z.of_nat i + 1) < 2 ^ 53 ->
  shadowpixel coeff k i = Ok (polyeval k coeff (Z.of_nat i + 1) mod PRIME).
Proof.
  intros Hb Hk Hpow Hval. unfold shadowpixel.
  set (x := Z.of_nat i + 1) in *.
  assert (Hx : 1 <= x) by (unfold x; lia).
  destruct (for_inv (fun r value => value = polyeval r coeff x)
              (fun r value =>
                 c <- load coeff r ;;
                 Double.to_u64
                   (Double.add (Double.of_Z value)
                      (Double.mul (Double.of_Z c) (Double.pow x r))))
              0%nat k 0) as (value & Hrun & Hv).
  - lia.
  - reflexivity.
  - intros r value Hr ->.
    rewrite (load_nth coeff r 0) by lia. step.
    pose proof (bytes_nth coeff r Hb) as Hc. unfold byte in Hc.
    pose proof (polyeval_nonneg r coeff x Hb ltac:(lia)).
    pose proof (polyeval_mono (Datatypes.S r) k coeff x Hb ltac:(lia)
                  ltac:(lia)) as Hm.
    cbn [polyeval] in Hm.
    pose proof (pow_nonneg_lt x r (k - 1) Hx ltac:(lia)).
    rewrite shadowpixel_step by lia.
    eexists. split; reflexivity.
  - rewrite Hrun. step. subst value. f_equal.
    apply u16_small.
    pose proof (Z.mod_pos_bound (polyeval k coeff x) PRIME ltac:(reflexivity)).
    unfold PRIME in *. lia.
Qed.

(** A group of zeros never evaluates to 256. *)
Lemma shadowpixel_zero coeff k i v :
  (forall r, (r < k)%nat -> nth r coeff 0 = 0) ->
  shadowpixel coeff k i = Ok v -> v = 0.
Proof.
  intros Hz Hrun. unfold shadowpixel in Hrun. inv_bind Hrun.
  injection Hrun as <-.
  assert (a = 0); [|subst a; reflexivity].
  apply (for_run (fun _ value => value = 0) _ 0%nat k 0 a (Nat.le_0_l k) Ha);
    [reflexivity|].
  intros r value value' Hr -> Hbody. inv_bind Hbody.
  apply (load_Ok _ _ _ 0) in Ha0 as [_ Hc]. rewrite Hz in Hc by lia.
  subst a0. unfold Double.pow in Hbody.
  rewrite (of_Z_exact 0) in Hbody by lia.
  destruct (Double.of_Z ((Z.of_nat i + 1) ^ Z.of_nat r)) as [p| |];
    cbn [Double.mul Double.add Double.to_u64] in Hbody;
    try discriminate.
  - rewrite Z.mul_0_l, (of_Z_exact 0) in Hbody by lia.
    cbn [Double.add] in Hbody. rewrite Z.add_0_l, (of_Z_exact 0) in Hbody by lia.
    cbn [Double.to_u64] in Hbody.
    destruct (0 <? 2 ^ 64); congruence.
Qed.

(** ** Coefficient repair *)

Lemma decreasecoeff_first coeff : forall i,
  (forall j, (j < i)%nat -> nth j coeff 0 = 0) ->
  (i < length coeff)%nat -> nth i coeff 0 <> 0 ->
  decreasecoeff coeff = Ok (upd coeff i (u8 (nth i coeff 0 - 1))).
Proof.
  induction coeff as [|c rest IH]; intros i Hz Hi Hc; cbn [length] in Hi;
    [lia|].
  cbn [decreasecoeff]. destruct i as [|i].
  - cbn [nth] in Hc. destruct (Z.eqb_spec c 0); [contradiction|].
    reflexivity.
  - pose proof (Hz 0%nat ltac:(lia)) as H0. cbn [nth] in H0. subst c.
    cbn [Z.eqb]. rewrite (IH i).
    + reflexivity.
    + intros j Hj. apply (Hz (Datatypes.S j)). lia.
    + lia.
    + exact Hc.
Qed.

Lemma decreasecoeff_zeros coeff :
  Forall (fun c => c = 0) coeff -> decreasecoeff coeff = Undefined.
Proof.
  induction 1 as [|c rest Hc _ IH]; [reflexivity|].
  subst c. cbn [decreasecoeff Z.eqb]. rewrite IH. reflexivity.
Qed.

(** Among the first [k] coefficients, if not all are zero, one is the first
    that is not. *)
Lemma first_nonzero k coeff :
  (forall r, (r < k)%nat -> nth r coeff 0 = 0)
  \/ exists i, (i < k)%nat /\ nth i coeff 0 <> 0
               /\ forall j, (j < i)%nat -> nth j coeff 0 = 0.
Proof.
  induction k as [|k [IH|IH]].
  - left. intros r Hr. lia.
  - destruct (Z.eq_dec (nth k coeff 0) 0) as [Hz|Hnz].
    + left. intros r Hr.
      destruct (Nat.eq_dec r k) as [->|]; [assumption | apply IH; lia].
    + right. exists k. split; [lia|]. split; [assumption|].
      intros j Hj. apply IH. assumption.
  - right. destruct IH as (i & Hi & Hnz & Hz).
    exists i. split; [lia|]. auto.
Qed.

Lemma groupsum_upd k coeff i v :
  (i < length coeff)%nat ->
  groupsum k (upd coeff i v)
  = if (i <? k)%nat then groupsum k coeff - nth i coeff 0 + v
    else groupsum k coeff.
Proof.
  intros Hi. induction k as [|k IH]; cbn [groupsum].
  - reflexivity.
  - rewrite IH, nth_upd by assumption.
    destruct (Nat.eqb_spec k i) as [->|Hne].
    + rewrite Nat.ltb_irrefl.
      replace (i <? Datatypes.S i)%nat with true
        by (symmetry; apply Nat.ltb_lt; lia).
      lia.
    + destruct (Nat.ltb_spec i k), (Nat.ltb_spec i (Datatypes.S k));
        try lia.
Qed.

Lemma groupsum_nonneg k coeff : bytes coeff -> 0 <= groupsum k coeff.
Proof.
  intros Hb. induction k as [|k IH]; cbn [groupsum]; [lia|].
  pose proof (bytes_nth coeff k Hb) as H. unfold byte in H. lia.
Qed.

Lemma bytes_upd coeff i v : bytes coeff -> byte v -> bytes (upd coeff i v).
Proof.
  intros Hb Hv. apply Forall_forall. intros x Hx.
  destruct (In_nth _ _ 0 Hx) as (j & Hj & <-).
  rewrite length_upd in Hj.
  destruct (Nat.eq_dec j i) as [->|Hne].
  - rewrite nth_upd_eq by assumption. assumption.
  - rewrite nth_upd_neq by auto. apply bytes_nth. assumption.
Qed.

(** ** Outcomes that are never [OutOfFuel] *)

Lemma for_up_fuel {S} (body : nat -> S -> result S) :
  (forall i s, body i s <> OutOfFuel) ->
  forall cnt lo s, for_up cnt lo body s <> OutOfFuel.
Proof.
  intros Hb. induction cnt as [|c IH]; intros lo s; cbn [for_up].
  - discriminate.
  - destruct (body lo s) eqn:E; cbn [bind].
    + apply IH.
    + discriminate.
    + exfalso. exact (Hb _ _ E).
Qed.

Lemma load_fuel {A} (l : list A) i : load l i <> OutOfFuel.
Proof. unfold load. destruct (nth_error l i); discriminate. Qed.

Lemma store_fuel {A} (l : list A) : forall i v, store l i v <> OutOfFuel.
Proof.
  induction l as [|h t IH]; intros [|i] v; cbn [store]; try discriminate.
  specialize (IH i v). destruct (store t i v); cbn [bind];
    [discriminate | discriminate | contradiction].
Qed.

Lemma shadowpixel_fuel coeff k i : shadowpixel coeff k i <> OutOfFuel.
Proof.
  unfold shadowpixel.
  match goal with |- bind ?m _ <> _ => assert (H : m <> OutOfFuel) end.
  { apply for_up_fuel. intros r value.
    pose proof (load_fuel coeff r) as Hl.
    destruct (load coeff r); cbn [bind];
      [|discriminate|contradiction].
    destruct (Double.add _ _) as [v| |]; cbn [Double.to_u64];
      try discriminate.
    destruct (v <? 2 ^ 64); discriminate. }
  destruct (for_ _ _ _ _); cbn [bind];
    [discriminate | discriminate | contradiction].
Qed.

Lemma evalshadows_fuel coeff k n : evalshadows coeff k n <> OutOfFuel.
Proof.
  apply for_up_fuel. intros i pixels.
  pose proof (shadowpixel_fuel coeff k i) as H.
  destruct (shadowpixel coeff k i); cbn [bind];
    [apply store_fuel | discriminate | contradiction].
Qed.

Lemma shadowpixel_range coeff k i v :
  shadowpixel coeff k i = Ok v -> 0 <= v <= 256.
Proof.
  unfold shadowpixel. intros H. inv_bind H. injection H as <-.
  pose proof (Z.mod_pos_bound a PRIME ltac:(reflexivity)) as Hm.
  unfold PRIME in *. rewrite u16_small; lia.
Qed.

(** The pixels that the loop over the shadows computes. *)
Lemma evalshadows_Ok coeff k n pixels :
  evalshadows coeff k n = Ok pixels ->
  length pixels = n
  /\ forall i, (i < n)%nat -> shadowpixel coeff k i = Ok (nth i pixels 0).
Proof.
  intros Hrun.
  apply (for_run (fun i px =>
           length px = n /\
           forall m, (m < i)%nat -> shadowpixel coeff k m = Ok (nth m px 0))
           _ 0%nat n _ _ (Nat.le_0_l n) Hrun).
  - split; [|intros m Hm; lia].
    unfold xmalloc. rewrite repeat_length. lia.
  - intros i px px' Hi [Hl Hm] Hbody. inv_bind Hbody.
    apply store_Ok in Hbody as [_ ->]. split.
    + rewrite length_upd. assumption.
    + intros m Hlt. rewrite nth_upd by lia.
      destruct (Nat.eqb_spec m i) as [->|Hne]; [assumption|].
      apply Hm. lia.
Qed.

Lemma evalshadows_defined coeff k n :
  (forall i, (i < n)%nat -> exists v, shadowpixel coeff k i = Ok v) ->
  exists pixels, evalshadows coeff k n = Ok pixels.
Proof.
  intros Hdef.
  destruct (for_inv (fun _ px => length px = n)
              (fun i pixels =>
                 v <- shadowpixel coeff k i ;; store pixels i v)
              0%nat n (xmalloc (Z.of_nat n))) as (px & Hrun & _).
  - lia.
  - unfold xmalloc. rewrite repeat_length. lia.
  - intros i px Hi Hl. destruct (Hdef i ltac:(lia)) as (v & ->). step.
    rewrite store_upd by lia. eexists. split; [reflexivity|].
    rewrite length_upd. assumption.
  - exists px. exact Hrun.
Qed.

Lemma step4_unfold fuel coeff k n :
  step4 (Datatypes.S fuel) coeff k n
  = (pixels <- evalshadows coeff k n ;;
     if existsb (Z.eqb 256) pixels
     then coeff' <- decreasecoeff coeff ;; step4 fuel coeff' k n
     else Ok (coeff, pixels)).
Proof. reflexivity. Qed.

Lemma step4_post_refl coeff k n pixels :
  bytes coeff ->
  evalshadows coeff k n = Ok pixels ->
  existsb (Z.eqb 256) pixels = false ->
  step4_post coeff k n coeff pixels.
Proof.
  intros Hb He Hx. destruct (evalshadows_Ok _ _ _ _ He) as [Hl Hp].
  unfold step4_post.
  split; [assumption|]. split; [reflexivity|]. split; [reflexivity|].
  split; [intros r; lia|]. split; [assumption|]. split; [assumption|].
  split; [|reflexivity].
  intros i Hi.
  pose proof (shadowpixel_range _ _ _ _ (Hp i Hi)) as Hr.
  assert (Hil : (i < length pixels)%nat) by lia.
  pose proof (existsb_nth (Z.eqb 256) pixels 0 Hil Hx) as Hn.
  apply Z.eqb_neq in Hn. lia.
Qed.

(** One repair: the first non-zero coefficient of the group goes down by
    one, without wrapping, and so does the sum of the group. *)
Lemma repair_step coeff k n pixels :
  bytes coeff -> (k <= length coeff)%nat ->
  evalshadows coeff k n = Ok pixels ->
  existsb (Z.eqb 256) pixels = true ->
  exists i,
    (i < k)%nat
    /\ (forall j, (j < i)%nat -> nth j coeff 0 = 0)
    /\ 1 <= nth i coeff 0
    /\ decreasecoeff coeff = Ok (upd coeff i (nth i coeff 0 - 1))
    /\ groupsum k (upd coeff i (nth i coeff 0 - 1)) = groupsum k coeff - 1.
Proof.
  intros Hb Hk He Hx.
  destruct (evalshadows_Ok _ _ _ _ He) as [Hl Hp].
  apply existsb_exists in Hx as (v & Hin & Hv).
  apply Z.eqb_eq in Hv. subst v.
  destruct (In_nth _ _ 0 Hin) as (m & Hm & Hnth).
  specialize (Hp m ltac:(lia)). rewrite Hnth in Hp.
  destruct (first_nonzero k coeff) as [Hz|(i & Hi & Hnz & Hz)].
  - apply (shadowpixel_zero _ _ _ _ Hz) in Hp. discriminate.
  - exists i. pose proof (bytes_nth coeff i Hb) as Hc. unfold byte in Hc.
    split; [assumption|]. split; [assumption|]. split; [lia|].
    rewrite (decreasecoeff_first coeff i Hz ltac:(lia) Hnz).
    rewrite u8_small by lia. split; [reflexivity|].
    rewrite groupsum_upd by lia.
    replace (i <? k)%nat with true by (symmetry; apply Nat.ltb_lt; lia).
    lia.
Qed.

Lemma step4_result k n : forall fuel coeff,
  bytes coeff -> (k <= length coeff)%nat ->
  groupsum k coeff < Z.of_nat fuel ->
  match step4 fuel coeff k n with
  | Ok (coeff', pixels) => step4_post coeff k n coeff' pixels
  | Undefined => True
  | OutOfFuel => False
  end.
Proof.
  induction fuel as [|fuel IH]; intros coeff Hb Hk Hsum.
  - pose proof (groupsum_nonneg k coeff Hb). lia.
  - rewrite step4_unfold.
    pose proof (evalshadows_fuel coeff k n) as Hf.
    destruct (evalshadows coeff k n) as [pixels| |] eqn:He; cbn [bind];
      [|exact I|contradiction].
    destruct (existsb (Z.eqb 256) pixels) eqn:Hx.
    + destruct (repair_step coeff k n pixels Hb Hk He Hx)
        as (i & Hi & Hz & Hc & -> & Hs). cbn [bind].
      pose proof (bytes_nth coeff i Hb) as Hci. unfold byte in Hci.
      set (coeff1 := upd coeff i (nth i coeff 0 - 1)) in *.
      assert (Hb1 : bytes coeff1)
        by (apply bytes_upd; [assumption | unfold byte; lia]).
      specialize (IH coeff1 Hb1).
      unfold coeff1 in IH at 1. rewrite length_upd in IH.
      specialize (IH Hk ltac:(lia)).
      destruct (step4 fuel coeff1 k n) as [[coeff' px]| |]; try exact IH.
      destruct IH as (H1 & H2 & H3 & H4 & H5 & H6 & H7 & _).
      unfold coeff1 in H2. rewrite length_upd in H2.
      unfold step4_post.
      split; [assumption|]. split; [assumption|]. split; [|split].
      * intros r Hr. rewrite H3 by assumption.
        unfold coeff1. apply nth_upd_neq. lia.
      * intros r. specialize (H4 r). unfold coeff1 in H4.
        destruct (Nat.eq_dec r i) as [->|Hne].
        -- rewrite nth_upd_eq in H4 by lia. lia.
        -- rewrite nth_upd_neq in H4 by auto. assumption.
      * split; [assumption|]. split; [assumption|]. split; [assumption|].
        intros pixels0 Hp0 Hx0. rewrite He in Hp0. injection Hp0 as <-.
        congruence.
    + apply step4_post_refl; assumption.
Qed.

Lemma polyeval_bound coeff x (n k : nat) : forall r,
  bytes coeff -> 1 <= x <= Z.of_nat n -> (r <= k)%nat ->
  polyeval r coeff x <= 255 * Z.of_nat r * Z.of_nat n ^ Z.of_nat (k - 1).
Proof.
  intros r Hb Hx. induction r as [|r IH]; intros Hr; cbn [polyeval].
  - lia.
  - specialize (IH ltac:(lia)).
    pose proof (bytes_nth coeff r Hb) as Hc. unfold byte in Hc.
    assert (Hp : 0 <= x ^ Z.of_nat r <= Z.of_nat n ^ Z.of_nat (k - 1)).
    { split; [apply Z.pow_nonneg; lia|].
      transitivity (Z.of_nat n ^ Z.of_nat r).
      - apply Z.pow_le_mono_l. lia.
      - apply Z.pow_le_mono_r; lia. }
    rewrite Nat2Z.inj_succ. nia.
Qed.

(** Inside [exactrange] every section polynomial is evaluated exactly. *)
Lemma shadowpixel_in_range coeff k n i :
  bytes coeff -> (k <= length coeff)%nat -> exactrange k n -> (i < n)%nat ->
  shadowpixel coeff k i = Ok (polyeval k coeff (Z.of_nat i + 1) mod PRIME).
Proof.
  intros Hb Hk Hex Hi. unfold exactrange in Hex.
  assert (Hn : 0 < Z.of_nat n ^ Z.of_nat (k - 1))
    by (apply Z.pow_pos_nonneg; lia).
  apply shadowpixel_exact; try assumption.
  - destruct k as [|k].
    + cbn. lia.
    + assert ((Z.of_nat i + 1) ^ Z.of_nat (Datatypes.S k - 1)
              <= Z.of_nat n ^ Z.of_nat (Datatypes.S k - 1))
        by (apply Z.pow_le_mono_l; lia).
      nia.
  - pose proof (polyeval_bound coeff (Z.of_nat i + 1) n k k Hb
                  ltac:(lia) ltac:(lia)).
    lia.
Qed.

Lemma step4_defined k n : forall fuel coeff,
  bytes coeff -> (k <= length coeff)%nat -> exactrange k n ->
  groupsum k coeff < Z.of_nat fuel ->
  exists coeff' pixels, step4 fuel coeff k n = Ok (coeff', pixels).
Proof.
  induction fuel as [|fuel IH]; intros coeff Hb Hk Hex Hsum.
  - pose proof (groupsum_nonneg k coeff Hb). lia.
  - rewrite step4_unfold.
    destruct (evalshadows_defined coeff k n) as (pixels & He).
    { intros i Hi. eexists.
      apply (shadowpixel_in_range coeff k n i); assumption. }
    rewrite He. cbn [bind].
    destruct (existsb (Z.eqb 256) pixels) eqn:Hx.
    + destruct (repair_step coeff k n pixels Hb Hk He Hx)
        as (i & Hi & Hz & Hc & -> & Hs). cbn [bind].
      pose proof (bytes_nth coeff i Hb) as Hci. unfold byte in Hci.
      apply IH.
      * apply bytes_upd; [assumption | unfold byte; lia].
      * rewrite length_upd. assumption.
      * assumption.
      * lia.
    + eauto.
Qed.

Lemma groupsum_bound k coeff :
  bytes coeff -> groupsum k coeff <= 255 * Z.of_nat k.
Proof.
  intros Hb. induction k as [|k IH]; cbn [groupsum]; [lia|].
  pose proof (bytes_nth coeff k Hb) as H. unfold byte in H. lia.
Qed.

(** ** Forming the shadows *)

Lemma step4_terminates_aux coeff k n fuel :
  bytes coeff -> (k <= length coeff)%nat ->
  255 * Z.of_nat k < Z.of_nat fuel ->
  step4 fuel coeff k n <> OutOfFuel
  /\ forall coeff' pixels,
       step4 fuel coeff k n = Ok (coeff', pixels) ->
       step4_post coeff k n coeff' pixels.
Proof.
  intros Hb Hk Hf.
  pose proof (groupsum_bound k coeff Hb) as Hs.
  pose proof (step4_result k n fuel coeff Hb Hk ltac:(lia)) as H.
  destruct (step4 fuel coeff k n) as [[c' px]| |].
  - split; [discriminate|]. intros c'' px' [= <- <-]. exact H.
  - split; [discriminate|]. intros c'' px' [=].
  - contradiction.
Qed.

(** The loop that stores the pixel [j] of every shadow. *)
Lemma putpixels_run (d : Bitmap) shadows pixels j n :
  length shadows = n -> length pixels = n ->
  (forall i, (i < n)%nat -> (j < length (imgpixels (nth i shadows d)))%nat) ->
  exists shadows',
    for_ 0 n (fun i shadows =>
                sp <- load shadows i ;;
                p <- load pixels i ;;
                px <- store (imgpixels sp) j (u8 p) ;;
                store shadows i (set_imgpixels sp px)) shadows = Ok shadows'
    /\ length shadows' = n
    /\ forall i, (i < n)%nat ->
         nth i shadows' d = putpixel j (nth i pixels 0) (nth i shadows d).
Proof.
  intros Hls Hlp Hj.
  destruct (for_inv (fun i s =>
              length s = n /\
              forall m, nth m s d =
                        if (m <? i)%nat
                        then putpixel j (nth m pixels 0) (nth m shadows d)
                        else nth m shadows d)
              (fun i shadows =>
                 sp <- load shadows i ;;
                 p <- load pixels i ;;
                 px <- store (imgpixels sp) j (u8 p) ;;
                 store shadows i (set_imgpixels sp px))
              0%nat n shadows) as (s & Hrun & Hl & Hn).
  - lia.
  - split; [assumption | reflexivity].
  - intros i s Hi [Hl Hn].
    rewrite (load_nth s i d) by lia. step.
    rewrite (load_nth pixels i 0) by lia. step.
    assert (Hsi : nth i s d = nth i shadows d).
    { rewrite Hn, Nat.ltb_irrefl. reflexivity. }
    rewrite Hsi.
    rewrite store_upd by (apply Hj; lia). step.
    rewrite store_upd by lia.
    eexists. split; [reflexivity|]. split.
    + rewrite length_upd. assumption.
    + intros m. rewrite nth_upd by lia.
      destruct (Nat.eqb_spec m i) as [->|Hne].
      * replace (i <? Datatypes.S i)%nat with true
          by (symmetry; apply Nat.ltb_lt; lia).
        reflexivity.
      * rewrite Hn.
        destruct (Nat.ltb_spec m i), (Nat.ltb_spec m (Datatypes.S i));
          try reflexivity; lia.
  - exists s. split; [assumption|]. split; [assumption|].
    intros i Hi. rewrite Hn.
    replace (i <? n)%nat with true by (symmetry; apply Nat.ltb_lt; lia).
    reflexivity.
Qed.

Lemma polyeval_ext k c1 c2 x :
  (forall r, (r < k)%nat -> nth r c1 0 = nth r c2 0) ->
  polyeval k c1 x = polyeval k c2 x.
Proof.
  induction k as [|k IH]; intros H; cbn [polyeval]; [reflexivity|].
  rewrite IH by (intros r Hr; apply H; lia).
  rewrite (H k) by lia. reflexivity.
Qed.

Lemma nth_skipn_add {A} (l : list A) a r d :
  nth r (skipn a l) d = nth (a + r) l d.
Proof.
  revert l. induction a as [|a IH]; intros l; [reflexivity|].
  destruct l as [|h t]; [destruct r; reflexivity|].
  cbn [skipn Nat.add nth]. apply IH.
Qed.

Lemma nth_firstn_app {A} (l c : list A) a m d :
  (a <= length l)%nat ->
  nth m (firstn a l ++ c) d
  = if (m <? a)%nat then nth m l d else nth (m - a) c d.
Proof.
  intros Ha.
  assert (Hl : length (firstn a l) = a) by (rewrite length_firstn; lia).
  destruct (Nat.ltb_spec m a) as [Hm|Hm].
  - rewrite app_nth1 by lia. rewrite nth_firstn.
    replace (m <? a)%nat with true by (symmetry; apply Nat.ltb_lt; lia).
    reflexivity.
  - rewrite app_nth2 by lia. rewrite Hl. reflexivity.
Qed.

(** ** The closest pair of divisors *)

Lemma closestpair_spec x : forall y w h,
  closestpair y x = Some (w, h) ->
  3 <= w <= Z.of_nat y /\ x mod w = 0 /\ h = i32 (x / w)
  /\ forall y', w < y' <= Z.of_nat y -> x mod y' <> 0.
Proof.
  induction y as [|y IH]; intros w h H; [discriminate|].
  destruct y as [|[|y]]; try discriminate.
  cbn [closestpair] in H.
  set (y3 := Datatypes.S (Datatypes.S (Datatypes.S y))) in *.
  destruct (Z.eqb_spec (x mod Z.of_nat y3) 0) as [Hz|Hnz].
  - injection H as <- <-. unfold y3.
    repeat split; try lia; try assumption.
  - apply IH in H as (H1 & H2 & H3 & H4).
    repeat split; try lia; try assumption.
    intros y' Hy'.
    destruct (Z.eq_dec y' (Z.of_nat y3)) as [->|]; [assumption|].
    apply H4. lia.
Qed.

Lemma closestpair_none x : forall y,
  closestpair y x = None ->
  forall y', 3 <= y' <= Z.of_nat y -> x mod y' <> 0.
Proof.
  induction y as [|y IH]; intros H y' Hy'; [lia|].
  destruct y as [|[|y]]; try lia.
  cbn [closestpair] in H.
  set (y3 := Datatypes.S (Datatypes.S (Datatypes.S y))) in *.
  destruct (Z.eqb_spec (x mod Z.of_nat y3) 0) as [Hz|Hnz]; [discriminate|].
  destruct (Z.eq_dec y' (Z.of_nat y3)) as [->|]; [assumption|].
  apply IH; [assumption | lia].
Qed.

Lemma findclosestpair_Some x w h :
  0 <= x < 2 ^ 32 ->
  findclosestpair x = Some (w, h) ->
  3 <= w <= h /\ w * h = x /\ 0 <= h < 2 ^ 31
  /\ forall y', w < y' -> y' * y' <= x -> x mod y' <> 0.
Proof.
  intros Hx H. unfold findclosestpair in H.
  apply closestpair_spec in H as (Hw & Hm & Hh & Hmax).
  rewrite Z2Nat.id in * by apply Z.sqrt_nonneg.
  assert (Hsq : w * w <= x) by (apply Z.sqrt_le_square; lia).
  assert (Hd : x = w * (x / w)).
  { rewrite (Z.div_mod x w) at 1 by lia. lia. }
  assert (Hq : 0 <= x / w < 2 ^ 31).
  { split; [apply Z.div_pos; lia|].
    apply Z.div_lt_upper_bound; lia. }
  rewrite i32_small in Hh by lia. subst h.
  split; [|split; [lia|split; [lia|]]].
  - split; [lia|]. nia.
  - intros y' Hy' Hy2. apply Hmax. split; [assumption|].
    apply Z.sqrt_le_square; lia.
Qed.

Lemma findclosestpair_None x :
  0 <= x ->
  (findclosestpair x = None
   <-> forall y', 3 <= y' -> y' * y' <= x -> x mod y' <> 0).
Proof.
  intros Hx. unfold findclosestpair. split.
  - intros H y' Hy' Hy2.
    apply (closestpair_none x _ H). rewrite Z2Nat.id by apply Z.sqrt_nonneg.
    split; [assumption|]. apply Z.sqrt_le_square; lia.
  - intros H.
    destruct (closestpair (Z.to_nat (Z.sqrt x)) x) as [[w h]|] eqn:E;
      [|reflexivity].
    apply closestpair_spec in E as (Hw & Hm & _).
    rewrite Z2Nat.id in Hw by apply Z.sqrt_nonneg.
    exfalso. apply (H w); [lia | | assumption].
    apply Z.sqrt_le_square; lia.
Qed.

Lemma ngroups_exact (M k : nat) :
  (1 <= k)%nat -> ngroups (Z.of_nat (M * k)) k = M.
Proof.
  intros Hk. unfold ngroups.
  replace ((Z.of_nat (M * k) + Z.of_nat k - 1) / Z.of_nat k)
    with (Z.of_nat M); [lia|].
  apply Z.div_unique with (Z.of_nat k - 1); lia.
Qed.

Lemma bytes_skipn a l : bytes l -> bytes (skipn a l).
Proof.
  intros H. apply Forall_forall. intros x Hx.
  unfold bytes in H. rewrite Forall_forall in H. apply H.
  rewrite <- (firstn_skipn a l). apply in_or_app. right. assumption.
Qed.

Lemma bytes_firstn a l : bytes l -> bytes (firstn a l).
Proof.
  intros H. apply Forall_forall. intros x Hx.
  unfold bytes in H. rewrite Forall_forall in H. apply H.
  rewrite <- (firstn_skipn a l). apply in_or_app. left. assumption.
Qed.

Lemma skipn_firstn_app {A} (l c : list A) a :
  (a <= length l)%nat -> skipn a (firstn a l ++ c) = c.
Proof.
  intros Ha.
  assert (Hl : length (firstn a l) = a) by (rewrite length_firstn; lia).
  rewrite skipn_app, Hl, Nat.sub_diag.
  rewrite skipn_all2 by lia. reflexivity.
Qed.

(** One group: [step4], the write-back of the coefficients and the stores
    into the shadows. *)
Lemma shared_step px w h seed k n M d fuel j img shadows :
  (1 <= k)%nat -> length px = (M * k)%nat -> (j < M)%nat ->
  255 * Z.of_nat k < Z.of_nat fuel -> exactrange k n ->
  shared px w h seed k n M j d (img, shadows) ->
  exists st',
    ('(coeff, pixels) <- step4 fuel (skipn (j * k) img) k n ;;
     let img := firstn (j * k) img ++ coeff in
     shadows <- for_ 0 n (fun i shadows =>
                  sp <- load shadows i ;;
                  p <- load pixels i ;;
                  px <- store (imgpixels sp) j (u8 p) ;;
                  store shadows i (set_imgpixels sp px)) shadows ;;
     Ok (img, shadows)) = Ok st'
    /\ shared px w h seed k n M (Datatypes.S j) d st'.
Proof.
  intros Hk HL Hj Hfuel Hex (Hb & Hl & Hrest & Hle & Hsn & Hsh).
  assert (Hjk : (j * k + k <= length img)%nat) by nia.
  set (coeff := skipn (j * k) img).
  assert (Hbc : bytes coeff) by (apply bytes_skipn; assumption).
  assert (Hlc : length coeff = (length img - j * k)%nat)
    by apply length_skipn.
  destruct (step4_defined k n fuel coeff Hbc ltac:(lia) Hex)
    as (coeff' & pixels & Hrun).
  { pose proof (groupsum_bound k coeff Hbc). lia. }
  destruct (step4_terminates_aux coeff k n fuel Hbc ltac:(lia) Hfuel)
    as [_ Hpost].
  specialize (Hpost _ _ Hrun).
  destruct Hpost as (Hb' & Hl' & Hhigh & Hdec & Heval & Hlp & Hrange & _).
  rewrite Hrun. cbn [bind]. cbv zeta.
  destruct (putpixels_run d shadows pixels j n Hsn Hlp)
    as (shadows' & Hput & Hsn' & Hnth').
  { intros i Hi. destruct (Hsh i Hi) as (pxi & -> & Hlen & _).
    unfold shadow_of. cbn [imgpixels set_imgpixels]. lia. }
  rewrite Hput. cbn [bind]. eexists. split; [reflexivity|].
  set (img' := firstn (j * k) img ++ coeff').
  assert (Hnth : forall m, nth m img' 0 =
            if (m <? j * k)%nat then nth m img 0
            else nth (m - j * k) coeff' 0).
  { intros m. unfold img'. apply nth_firstn_app. lia. }
  assert (Hskip : skipn (j * k) img' = coeff')
    by (apply skipn_firstn_app; lia).
  assert (Hle' : forall m, nth m img' 0 <= nth m img 0).
  { intros m. rewrite Hnth. destruct (Nat.ltb_spec m (j * k)); [lia|].
    specialize (Hdec (m - j * k)%nat). unfold coeff in Hdec.
    rewrite nth_skipn_add in Hdec.
    replace (j * k + (m - j * k))%nat with m in Hdec by lia. exact Hdec. }
  unfold shared.
  split; [|split; [|split; [|split; [|split]]]].
  - apply Forall_app. split; [apply bytes_firstn|]; assumption.
  - unfold img'. rewrite length_app, length_firstn, Hl'. lia.
  - intros m Hm. rewrite Hnth.
    destruct (Nat.ltb_spec m (j * k)); [lia|].
    rewrite Hhigh by lia. unfold coeff. rewrite nth_skipn_add.
    replace (j * k + (m - j * k))%nat with m by lia.
    apply Hrest. lia.
  - intros m. specialize (Hle m). specialize (Hle' m). lia.
  - assumption.
  - intros i Hi. destruct (Hsh i Hi) as (pxi & Hsp & Hlen & Hpix).
    exists (upd pxi j (u8 (nth i pixels 0))).
    split; [|split].
    + rewrite Hnth' by assumption. rewrite Hsp. reflexivity.
    + rewrite length_upd. assumption.
    + intros j' Hj'.
      destruct (evalshadows_Ok _ _ _ _ Heval) as [_ Hev].
      specialize (Hev i Hi).
      rewrite (shadowpixel_in_range coeff' k n i Hb' ltac:(lia) Hex Hi)
        in Hev.
      injection Hev as Hev.
      destruct (Nat.eq_dec j' j) as [->|Hne].
      * rewrite nth_upd_eq by lia.
        unfold sectionvalue. rewrite Hskip, Hev.
        specialize (Hrange i Hi).
        rewrite u8_small by lia. split; [reflexivity | assumption].
      * rewrite nth_upd_neq by auto.
        assert (Hsame : sectionvalue img' k j' i = sectionvalue img k j' i).
        { unfold sectionvalue. f_equal. apply polyeval_ext.
          intros r Hr. rewrite !nth_skipn_add, Hnth.
          replace (j' * k + r <? j * k)%nat with true; [reflexivity|].
          symmetry. apply Nat.ltb_lt. nia. }
        rewrite Hsame. apply Hpix. lia.
Qed.

Lemma newshadow_pixels w h seed num x :
  0 <= x < 2 ^ 32 -> w * h = x -> 0 <= h < 2 ^ 31 ->
  imgpixels (newshadow w h seed num) = repeat 0 (Z.to_nat x)
  /\ DIBheader.pixelarraysize (dibheader (newshadow w h seed num)) = x.
Proof.
  intros Hx Hwh Hh. unfold newshadow, newbitmaphelper, xmalloc.
  cbn [imgpixels dibheader DIBheader.pixelarraysize].
  rewrite (u32_small h) by lia. rewrite Hwh, u32_small by lia.
  split; reflexivity.
Qed.

Lemma formshadows_run fuel bp k n seed M w h :
  wf_bitmap bp -> (1 <= k)%nat ->
  length (imgpixels bp) = (M * k)%nat ->
  Z.of_nat M < 2 ^ 32 ->
  findclosestpair (Z.of_nat M) = Some (w, h) ->
  255 * Z.of_nat k < Z.of_nat fuel -> exactrange k n ->
  exists img shadows,
    formshadows fuel bp k n seed = Ok (set_imgpixels bp img, shadows)
    /\ shared (imgpixels bp) w h seed k n M M bp (img, shadows).
Proof.
  intros [Hb Hsz] Hk HL HM Hfind Hfuel Hex.
  destruct (findclosestpair_Some (Z.of_nat M) w h ltac:(lia) Hfind)
    as (Hw & Hwh & Hh & _).
  unfold formshadows. cbv zeta.
  destruct (Nat.eqb_spec k 0) as [|_]; [lia|].
  rewrite <- Hsz, HL.
  replace (Z.of_nat (M * k) / Z.of_nat k) with (Z.of_nat M)
    by (rewrite Nat2Z.inj_mul, Z.div_mul; lia).
  rewrite Hfind, ngroups_exact by assumption.
  match goal with
  | |- context [for_ 0 M ?body ?s0] =>
      destruct (for_inv (fun j st =>
                  shared (imgpixels bp) w h seed k n M j bp st)
                  body 0%nat M s0) as ([img shadows] & Hrun & Hsh)
  end.
  - lia.
  - unfold shared.
    split; [assumption|]. split; [reflexivity|]. split; [reflexivity|].
    split; [intros m; lia|]. split; [rewrite length_map, length_seq; lia|].
    intros i Hi.
    destruct (newshadow_pixels w h seed (u16 (Z.of_nat i + 1)) (Z.of_nat M)
                ltac:(lia) Hwh Hh) as [Hpx _].
    exists (repeat 0 M). split; [|split].
    + rewrite (nth_indep _ bp
                 (newshadow w h seed (u16 (Z.of_nat 0%nat + 1))))
        by (rewrite length_map, length_seq; lia).
      rewrite (map_nth (fun i => newshadow w h seed (u16 (Z.of_nat i + 1)))
                 (seq 0 n) 0%nat i).
      rewrite seq_nth by lia. cbn [Nat.add].
      unfold shadow_of. rewrite <- (Nat2Z.id M), <- Hpx.
      symmetry. apply set_imgpixels_id.
    + apply repeat_length.
    + intros j' Hj'. lia.
  - intros j [img shadows] Hj Hsh.
    apply shared_step; try assumption. lia.
  - rewrite Hrun. cbn [bind]. exists img, shadows.
    split; [reflexivity | assumption].
Qed.

(** ** Fresh bitmaps *)

Lemma bmpimagesize_newbitmaphelper w h seed num p :
  0 <= p < 2 ^ 32 ->
  bmpimagesize (newbitmaphelper w h seed num p) = p.
Proof.
  intros Hp. unfold bmpimagesize, newbitmaphelper.
  cbn [bmpheader dibheader BMPheader.size BMPheader.offset
       DIBheader.pixelarraysize].
  destruct (0 <? u32 (PIXEL_ARRAY_OFFSET + p)); [|reflexivity].
  unfold u32, unsigned.
  rewrite Zminus_mod_idemp_l.
  replace (PIXEL_ARRAY_OFFSET + p - PIXEL_ARRAY_OFFSET) with p by lia.
  apply Z.mod_small. assumption.
Qed.

Lemma bytes_repeat0 n : bytes (repeat 0 n).
Proof.
  apply Forall_forall. intros x Hx. apply repeat_spec in Hx. subst x.
  unfold byte. lia.
Qed.

Lemma u32_range x : 0 <= u32 x < 2 ^ 32.
Proof. apply Z.mod_pos_bound. reflexivity. Qed.

Lemma newbitmaphelper_wf w h seed num p :
  0 <= p < 2 ^ 32 -> wf_bitmap (newbitmaphelper w h seed num p).
Proof.
  intros Hp. split.
  - apply bytes_repeat0.
  - rewrite bmpimagesize_newbitmaphelper by assumption.
    unfold newbitmaphelper, xmalloc. cbn [imgpixels].
    rewrite repeat_length. lia.
Qed.

(** The size of the pixel array: rows padded to a multiple of four bytes. *)
Lemma rowsize_padded w : 0 <= w -> (8 * w + 31) / 32 = (w + 3) / 4.
Proof.
  intros Hw.
  pose proof (Z.mod_pos_bound (w + 3) 4 ltac:(lia)) as Hr.
  pose proof (Z.div_mod (w + 3) 4 ltac:(lia)) as Hd.
  symmetry. apply Z.div_unique with (8 * ((w + 3) mod 4) + 7); lia.
Qed.

Lemma calculatepixelarraysize_value w h :
  0 <= w -> 8 * w + 31 < 2 ^ 32 ->
  calculatepixelarraysize w h = (4 * ((w + 3) / 4) * u32 h) mod 2 ^ 32.
Proof.
  intros Hw H32. unfold calculatepixelarraysize, BITS_PER_PIXEL.
  rewrite (u32_small (8 * w)) by lia.
  rewrite (u32_small (8 * w + 31)) by lia.
  rewrite rowsize_padded by assumption.
  pose proof (Z.mul_div_le (w + 3) 4 ltac:(lia)).
  assert (0 <= (w + 3) / 4) by (apply Z.div_pos; lia).
  rewrite (u32_small ((w + 3) / 4 * 4)) by lia.
  unfold u32 at 1, unsigned. f_equal. lia.
Qed.

(** ** Hiding a shadow: what is left alone, and carriers that are too small *)

Lemma for_fuel {S} (body : nat -> S -> result S) lo hi s :
  (forall i s, body i s <> OutOfFuel) -> for_ lo hi body s <> OutOfFuel.
Proof. intros H. apply for_up_fuel. assumption. Qed.

Lemma bind_fuel {A B} (m : result A) (f : A -> result B) :
  m <> OutOfFuel -> (forall a, f a <> OutOfFuel) -> bind m f <> OutOfFuel.
Proof.
  intros Hm Hf.
  destruct m; cbn [bind]; [apply Hf | discriminate | exfalso; auto].
Qed.

Lemma hideshadow_fuel bp shadow : hideshadow bp shadow <> OutOfFuel.
Proof.
  unfold hideshadow. cbv zeta.
  apply bind_fuel; [|discriminate].
  apply for_fuel. intros i px.
  apply bind_fuel; [apply load_fuel|]. intros byte.
  apply bind_fuel; [|intros [px' b]; discriminate].
  apply for_fuel. intros j [px' b].
  apply bind_fuel; [apply load_fuel|]. intros p.
  apply bind_fuel; [apply store_fuel | discriminate].
Qed.

Lemma hideshadow_needs_room bp shadow c :
  hideshadow bp shadow = Ok c ->
  (8 * Z.to_nat (bmpimagesize shadow) <= length (imgpixels bp))%nat.
Proof.
  unfold hideshadow. cbv zeta. intros H. inv_bind H. clear H.
  set (orig := imgpixels bp) in *.
  apply (for_run (fun i px =>
           length px = length orig /\ (8 * i <= length orig)%nat)
           _ 0%nat _ _ _ (Nat.le_0_l _) Ha).
  - split; [reflexivity | lia].
  - intros i px px' Hi [Hl Hc] Hbody. inv_bind Hbody.
    destruct a1 as [px1 b1]. injection Hbody as <-.
    assert (Hin : length px1 = length orig
                  /\ (8 * (i + 1) <= length orig)%nat).
    { assert (Hle : (i * 8 <= 8 * (i + 1))%nat) by lia.
      pose proof (for_run (fun j (st : list Z * Z) =>
                    length (fst st) = length orig /\
                    (j <= Nat.max (i * 8) (length orig))%nat)
                    _ _ _ _ _ Hle Ha1) as Hq.
      cbn [fst] in Hq. destruct Hq as [Hq1 Hq2].
      - split; [assumption | lia].
      - intros j [pxa ba] [pxb bb] Hj [Hla Hja] Hb. cbn [fst] in *.
        inv_bind Hb. injection Hb as <- _.
        apply (load_Ok _ _ _ 0) in Ha2 as [Hlt _].
        apply store_Ok in Ha3 as [_ ->].
        rewrite length_upd. split; [assumption | lia].
      - split; [assumption | lia]. }
    destruct Hin as [Hl1 Hc1]. split; [assumption | lia].
Qed.

(** * Properties beyond the specification's claims *)

(** X1. [decreasecoeff] decrements the first non-zero byte of the memory it
    is given by exactly one, without wrapping, and leaves every other byte
    alone; on memory that holds only zeros its scan leaves the array, which
    is undefined. *)
Theorem decreasecoeff_behaviour (coeff : list Z) :
  bytes coeff ->
  (Forall (fun c => c = 0) coeff -> decreasecoeff coeff = Undefined)
  /\ forall i,
       (i < length coeff)%nat -> nth i coeff 0 <> 0 ->
       (forall j, (j < i)%nat -> nth j coeff 0 = 0) ->
       decreasecoeff coeff = Ok (upd coeff i (nth i coeff 0 - 1))
       /\ 0 <= nth i coeff 0 - 1 < 255.
Proof.
  intros Hb. split; [apply decreasecoeff_zeros|].
  intros i Hi Hnz Hz.
  pose proof (bytes_nth coeff i Hb) as Hc. unfold byte in Hc.
  rewrite (decreasecoeff_first coeff i Hz Hi Hnz).
  rewrite u8_small by lia. split; [reflexivity | lia].
Qed.

Lemma decreasecoeff_behaviour_witness :
  (Forall (fun c => c = 0) [0; 0; 7; 0; 9] ->
   decreasecoeff [0; 0; 7; 0; 9] = Undefined)
  /\ forall i,
       (i < length [0; 0; 7; 0; 9])%nat -> nth i [0; 0; 7; 0; 9] 0 <> 0 ->
       (forall j, (j < i)%nat -> nth j [0; 0; 7; 0; 9] 0 = 0) ->
       decreasecoeff [0; 0; 7; 0; 9]
       = Ok (upd [0; 0; 7; 0; 9] i (nth i [0; 0; 7; 0; 9] 0 - 1))
       /\ 0 <= nth i [0; 0; 7; 0; 9] 0 - 1 < 255.
Proof.
  apply (decreasecoeff_behaviour [0; 0; 7; 0; 9]).
  apply bytes_check. reflexivity.
Defined.



(** X3. As long as nothing is rounded (the value of the polynomial and the
    highest power of the point are below [2^53]), the pixel that
    [formshadows] computes for the shadow [i + 1] is the value of the
    section polynomial at [i + 1] modulo 257. *)
Theorem shadowpixel_polynomial (coeff : list Z) (k i : nat) :
  bytes coeff -> (k <= length coeff)%nat ->
  (Z.of_nat i + 1) ^ Z.of_nat (k - 1) < 2 ^ 53 ->
  polyeval k coeff (Z.of_nat i + 1) < 2 ^ 53 ->
  shadowpixel coeff k i = Ok (polyeval k coeff (Z.of_nat i + 1) mod PRIME).
Proof. apply shadowpixel_exact. Qed.

Lemma shadowpixel_polynomial_witness :
  shadowpixel [200; 100; 50] 3 4
  = Ok (polyeval 3 [200; 100; 50] (Z.of_nat 4 + 1) mod PRIME).
Proof.
  apply (shadowpixel_polynomial [200; 100; 50] 3 4).
  - apply bytes_check. reflexivity.
  - cbn. lia.
  - vm_compute. reflexivity.
  - vm_compute. reflexivity.
Defined.

(** X4. Inside [exactrange] the repair loop also never meets undefined
    behaviour: it returns coefficients and pixels, and the pixel of the
    shadow [i + 1] is the value at [i + 1] of the polynomial of the
    coefficients returned, modulo 257, a value of [0 .. 255]. *)
Theorem step4_exact (coeff : list Z) (k n fuel : nat) :
  bytes coeff -> (k <= length coeff)%nat -> exactrange k n ->
  255 * Z.of_nat k < Z.of_nat fuel ->
  exists coeff' pixels,
    step4 fuel coeff k n = Ok (coeff', pixels)
    /\ step4_post coeff k n coeff' pixels
    /\ forall i, (i < n)%nat ->
         nth i pixels 0 = polyeval k coeff' (Z.of_nat i + 1) mod PRIME
         /\ 0 <= nth i pixels 0 <= 255.
Proof.
  intros Hb Hk Hex Hfuel.
  pose proof (groupsum_bound k coeff Hb) as Hs.
  destruct (step4_defined k n fuel coeff Hb Hk Hex ltac:(lia))
    as (coeff' & pixels & Hrun).
  destruct (step4_terminates_aux coeff k n fuel Hb Hk Hfuel) as [_ Hpost].
  specialize (Hpost _ _ Hrun).
  exists coeff', pixels. split; [assumption|]. split; [assumption|].
  destruct Hpost as (Hb' & Hl' & _ & _ & Heval & _ & Hrange & _).
  intros i Hi. split; [|apply Hrange; assumption].
  destruct (evalshadows_Ok _ _ _ _ Heval) as [_ Hev].
  specialize (Hev i Hi).
  rewrite (shadowpixel_in_range coeff' k n i Hb' ltac:(lia) Hex Hi) in Hev.
  injection Hev as Hev. symmetry. assumption.
Qed.

Lemma step4_exact_witness :
  exists coeff' pixels,
    step4 600 [128; 128; 3] 2 2 = Ok (coeff', pixels)
    /\ step4_post [128; 128; 3] 2 2 coeff' pixels
    /\ forall i, (i < 2)%nat ->
         nth i pixels 0 = polyeval 2 coeff' (Z.of_nat i + 1) mod PRIME
         /\ 0 <= nth i pixels 0 <= 255.
Proof.
  apply (step4_exact [128; 128; 3] 2 2 600).
  - apply bytes_check. reflexivity.
  - cbn. lia.
  - vm_compute. reflexivity.
  - lia.
Defined.

(** X5. When [findclosestpair] finds a pair for an [x] of 32 bits, the
    width is a divisor of [x] of at least 3, the height is the quotient, not
    smaller than the width, and no larger divisor of [x] has its square
    below [x]: the pair is the most square one. *)
Theorem findclosestpair_most_square (x w h : Z) :
  0 <= x < 2 ^ 32 ->
  findclosestpair x = Some (w, h) ->
  3 <= w <= h /\ w * h = x
  /\ forall y, w < y -> y * y <= x -> x mod y <> 0.
Proof.
  intros Hx H.
  destruct (findclosestpair_Some x w h Hx H) as (H1 & H2 & _ & H3). auto.
Qed.

Lemma findclosestpair_most_square_witness :
  3 <= 3 <= 4 /\ 3 * 4 = 12
  /\ forall y, 3 < y -> y * y <= 12 -> 12 mod y <> 0.
Proof.
  apply (findclosestpair_most_square 12 3 4); [lia | reflexivity].
Defined.

(** X6. [findclosestpair] leaves width and height untouched exactly when
    [x] has no divisor from 3 up to its square root: for every [x] below 9,
    for every prime, for twice a prime. *)
Theorem findclosestpair_untouched (x : Z) :
  0 <= x ->
  (findclosestpair x = None
   <-> forall y, 3 <= y -> y * y <= x -> x mod y <> 0).
Proof. apply findclosestpair_None. Qed.

Lemma findclosestpair_untouched_witness :
  findclosestpair 8 = None
  <-> forall y, 3 <= y -> y * y <= 8 -> 8 mod y <> 0.
Proof. apply (findclosestpair_untouched 8). lia. Defined.



(** X8. A bitmap made by [newbitmap] or [newshadow] is well formed: it
    owns as many pixel bytes as [bmpimagesize] computes from its header,
    and that is the size computed for the pixel array, also when the file
    size in the header has wrapped around (to zero or past it). *)
Theorem newbitmap_wf (width height seed shadownumber : Z) :
  wf_bitmap (newbitmap width height seed)
  /\ bmpimagesize (newbitmap width height seed)
     = calculatepixelarraysize width height
  /\ wf_bitmap (newshadow width height seed shadownumber)
  /\ bmpimagesize (newshadow width height seed shadownumber)
     = u32 (width * u32 height).
Proof.
  pose proof (u32_range (width * u32 height)) as H1.
  assert (H2 : 0 <= calculatepixelarraysize width height < 2 ^ 32)
    by apply u32_range.
  unfold newbitmap, newshadow.
  repeat split;
    try (apply newbitmaphelper_wf; assumption);
    try (apply bmpimagesize_newbitmaphelper; assumption).
Qed.

(** X9. For a width and a height that are not negative and fit,
    [calculatepixelarraysize] is the height times the width rounded up to a
    multiple of four: it is a multiple of four and at least
    [width * height]. *)
Theorem calculatepixelarraysize_padded (width height : Z) :
  0 <= width -> 0 <= height < 2 ^ 31 -> 8 * width + 31 < 2 ^ 32 ->
  4 * ((width + 3) / 4) * height < 2 ^ 32 ->
  calculatepixelarraysize width height = 4 * ((width + 3) / 4) * height
  /\ width * height <= calculatepixelarraysize width height
  /\ calculatepixelarraysize width height mod 4 = 0.
Proof.
  intros Hw Hh H32 Hfit.
  rewrite calculatepixelarraysize_value by assumption.
  rewrite (u32_small height) by lia.
  assert (Hq : 0 <= (width + 3) / 4) by (apply Z.div_pos; lia).
  rewrite Z.mod_small by nia.
  split; [reflexivity|]. split.
  - pose proof (Z.mod_pos_bound (width + 3) 4 ltac:(lia)).
    pose proof (Z.div_mod (width + 3) 4 ltac:(lia)). nia.
  - replace (4 * ((width + 3) / 4) * height)
      with ((width + 3) / 4 * height * 4) by lia.
    apply Z.mod_mul. lia.
Qed.

Lemma calculatepixelarraysize_padded_witness :
  calculatepixelarraysize 5 3 = 4 * ((5 + 3) / 4) * 3
  /\ 5 * 3 <= calculatepixelarraysize 5 3
  /\ calculatepixelarraysize 5 3 mod 4 = 0.
Proof. apply (calculatepixelarraysize_padded 5 3); cbn; lia. Defined.

(** X10. A negative height (a top-down bitmap) is not made positive: it
    enters the product as an unsigned number, and the size wraps around to
    [2^32] minus the size of the pixel array for the height without its
    sign. *)
Theorem calculatepixelarraysize_topdown (width height : Z) :
  0 <= width -> - 2 ^ 31 <= height < 0 -> 8 * width + 31 < 2 ^ 32 ->
  0 < 4 * ((width + 3) / 4) * (- height) < 2 ^ 32 ->
  calculatepixelarraysize width height
  = 2 ^ 32 - 4 * ((width + 3) / 4) * (- height).
Proof.
  intros Hw Hh H32 Hfit.
  rewrite calculatepixelarraysize_value by assumption.
  assert (Hu : u32 height = 2 ^ 32 + height).
  { unfold u32, unsigned. symmetry.
    apply Z.mod_unique with (-1); lia. }
  rewrite Hu. symmetry.
  apply Z.mod_unique with (4 * ((width + 3) / 4) - 1); lia.
Qed.

Lemma calculatepixelarraysize_topdown_witness :
  calculatepixelarraysize 8 (-3) = 2 ^ 32 - 4 * ((8 + 3) / 4) * (- (-3)).
Proof. apply (calculatepixelarraysize_topdown 8 (-3)); cbn; lia. Defined.

(** X11. What [formshadows] returns inside [exactrange], for a well-formed
    secret of [M] groups of [k] pixels whose [M] has a closest pair
    [(w, h)]: the secret with coefficients that are bytes, none larger than
    before, and [n] shadows; the shadow at the position [i] has the header of
    a [w] by [h] bitmap with the seed and the shadow number [i + 1], and [M]
    pixels, the pixel [j] being the value at [i + 1] of the polynomial of the
    group [j] as it was left, modulo 257, a byte. *)
Theorem formshadows_shadows (fuel : nat) (bp : Bitmap) (k n : nat) (seed : Z)
        (M : nat) (w h : Z) :
  wf_bitmap bp -> (1 <= k)%nat ->
  length (imgpixels bp) = (M * k)%nat ->
  Z.of_nat M < 2 ^ 32 ->
  findclosestpair (Z.of_nat M) = Some (w, h) ->
  255 * Z.of_nat k < Z.of_nat fuel -> exactrange k n ->
  Z.of_nat n <= 65535 ->
  exists img shadows,
    formshadows fuel bp k n seed = Ok (set_imgpixels bp img, shadows)
    /\ bytes img
    /\ length img = length (imgpixels bp)
    /\ (forall m, nth m img 0 <= nth m (imgpixels bp) 0)
    /\ length shadows = n
    /\ forall i, (i < n)%nat ->
         exists pxi,
           nth_error shadows i
           = Some (set_imgpixels (newshadow w h seed (Z.of_nat i + 1)) pxi)
           /\ length pxi = M
           /\ forall j, (j < M)%nat ->
                nth j pxi 0 = sectionvalue img k j i
                /\ 0 <= nth j pxi 0 <= 255.
Proof.
  intros Hwf Hk HL HM Hfind Hfuel Hex Hn.
  destruct (formshadows_run fuel bp k n seed M w h Hwf Hk HL HM Hfind
              Hfuel Hex) as (img & shadows & Hrun & Hsh).
  destruct Hsh as (H1 & H2 & _ & H4 & H5 & H6).
  exists img, shadows. repeat (split; [assumption|]).
  intros i Hi. destruct (H6 i Hi) as (pxi & Hnth & Hlen & Hpix).
  exists pxi. split; [|split; [assumption|]].
  - rewrite (nth_error_nth' shadows bp) by lia.
    rewrite Hnth. unfold shadow_of. rewrite u16_small by lia. reflexivity.
  - intros j Hj. destruct (Hpix j Hj) as [-> Hr]. auto.
Qed.

Lemma formshadows_shadows_witness :
  exists img shadows,
    formshadows 600 secret24 2 3 691 = Ok (set_imgpixels secret24 img, shadows)
    /\ bytes img
    /\ length img = length (imgpixels secret24)
    /\ (forall m, nth m img 0 <= nth m (imgpixels secret24) 0)
    /\ length shadows = 3%nat
    /\ forall i, (i < 3)%nat ->
         exists pxi,
           nth_error shadows i
           = Some (set_imgpixels (newshadow 3 4 691 (Z.of_nat i + 1)) pxi)
           /\ length pxi = 12%nat
           /\ forall j, (j < 12)%nat ->
                nth j pxi 0 = sectionvalue img 2 j i
                /\ 0 <= nth j pxi 0 <= 255.
Proof.
  apply (formshadows_shadows 600 secret24 2 3 691 12 3 4).
  - split; [apply bytes_check|]; reflexivity.
  - lia.
  - reflexivity.
  - cbn. lia.
  - reflexivity.
  - lia.
  - vm_compute. reflexivity.
  - lia.
Defined.

(** X12. [hideshadow] touches nothing but the low bits it writes: the
    carrier bytes from [8 * |shadow pixels|] on are the bytes of the carrier,
    the DIB header, the palette, and the magic number, size and offset of the
    file header are kept, and the two reserved fields become the seed and
    the shadow number of the shadow. *)
Theorem hideshadow_frame (bp shadow : Bitmap) :
  wf_bitmap shadow ->
  (8 * length (imgpixels shadow) <= length (imgpixels bp))%nat ->
  exists c,
    hideshadow bp shadow = Ok c
    /\ (forall m, (8 * length (imgpixels shadow) <= m)%nat ->
          nth m (imgpixels c) 0 = nth m (imgpixels bp) 0)
    /\ length (imgpixels c) = length (imgpixels bp)
    /\ dibheader c = dibheader bp
    /\ palette c = palette bp
    /\ BMPheader.id (bmpheader c) = BMPheader.id (bmpheader bp)
    /\ BMPheader.size (bmpheader c) = BMPheader.size (bmpheader bp)
    /\ BMPheader.offset (bmpheader c) = BMPheader.offset (bmpheader bp)
    /\ BMPheader.unused1 (bmpheader c) = BMPheader.unused1 (bmpheader shadow)
    /\ BMPheader.unused2 (bmpheader c) = BMPheader.unused2 (bmpheader shadow).
Proof.
  intros [Hs Hsz] Hcap.
  destruct (hideshadow_run bp shadow Hs Hsz Hcap)
    as (c & Hrun & Hu1 & Hu2 & Hlen & Hnth).
  exists c. split; [assumption|]. split.
  - intros m Hm. rewrite Hnth.
    replace (m <? length (imgpixels shadow) * 8)%nat with false;
      [reflexivity|].
    symmetry. apply Nat.ltb_ge. lia.
  - unfold hideshadow in Hrun. cbv zeta in Hrun. inv_bind Hrun.
    injection Hrun as <-. cbn in *. auto 10.
Qed.

Lemma hideshadow_frame_witness :
  exists c,
    hideshadow carrier0 shadow0 = Ok c
    /\ (forall m, (8 * length (imgpixels shadow0) <= m)%nat ->
          nth m (imgpixels c) 0 = nth m (imgpixels carrier0) 0)
    /\ length (imgpixels c) = length (imgpixels carrier0)
    /\ dibheader c = dibheader carrier0
    /\ palette c = palette carrier0
    /\ BMPheader.id (bmpheader c) = BMPheader.id (bmpheader carrier0)
    /\ BMPheader.size (bmpheader c) = BMPheader.size (bmpheader carrier0)
    /\ BMPheader.offset (bmpheader c) = BMPheader.offset (bmpheader carrier0)
    /\ BMPheader.unused1 (bmpheader c) = BMPheader.unused1 (bmpheader shadow0)
    /\ BMPheader.unused2 (bmpheader c) = BMPheader.unused2 (bmpheader shadow0).
Proof.
  apply (hideshadow_frame carrier0 shadow0).
  - split; [apply bytes_check|]; reflexivity.
  - vm_compute. lia.
Defined.

(** X13. [hideshadow] does not check the size of the carrier: when the
    carrier has fewer than eight bytes for each byte of the shadow, it
    reads and writes past the end of the carrier's pixels, which is
    undefined. *)
Theorem hideshadow_small_carrier (bp shadow : Bitmap) :
  (length (imgpixels bp) < 8 * Z.to_nat (bmpimagesize shadow))%nat ->
  hideshadow bp shadow = Undefined.
Proof.
  intros Hsmall.
  pose proof (hideshadow_fuel bp shadow) as Hf.
  destruct (hideshadow bp shadow) as [c| |] eqn:E;
    [|reflexivity|contradiction].
  apply hideshadow_needs_room in E. lia.
Qed.

Lemma hideshadow_small_carrier_witness :
  hideshadow secret24 shadow0 = Undefined.
Proof.
  apply (hideshadow_small_carrier secret24 shadow0). vm_compute. lia.
Defined.

(** * Reconstruction from any [k] shadows *)

(** ** Congruences modulo 257 *)

#[local] Instance eqp_equiv : Equivalence eqp.
Proof.
  split.
  - intros a. reflexivity.
  - intros a b H. unfold eqp in *. congruence.
  - intros a b d H1 H2. unfold eqp in *. congruence.
Qed.

#[local] Instance eqp_add : Proper (eqp ==> eqp ==> eqp) Z.add.
Proof.
  intros a a' Ha b b' Hb. unfold eqp in *.
  rewrite (Z.add_mod a b), (Z.add_mod a' b') by (unfold PRIME; lia).
  rewrite Ha, Hb. reflexivity.
Qed.

#[local] Instance eqp_sub : Proper (eqp ==> eqp ==> eqp) Z.sub.
Proof.
  intros a a' Ha b b' Hb. unfold eqp in *.
  rewrite (Zminus_mod a b), (Zminus_mod a' b').
  rewrite Ha, Hb. reflexivity.
Qed.

#[local] Instance eqp_mul : Proper (eqp ==> eqp ==> eqp) Z.mul.
Proof.
  intros a a' Ha b b' Hb. unfold eqp in *.
  rewrite (Z.mul_mod a b), (Z.mul_mod a' b') by (unfold PRIME; lia).
  rewrite Ha, Hb. reflexivity.
Qed.

Lemma eqp_mod a : eqp (a mod PRIME) a.
Proof. unfold eqp. apply Z.mod_mod. unfold PRIME. lia. Qed.

Lemma eqp_eq a b : a = b -> eqp a b.
Proof. intros ->. reflexivity. Qed.

Lemma eqp_small a b :
  eqp a b -> 0 <= a < PRIME -> 0 <= b < PRIME -> a = b.
Proof.
  unfold eqp. intros H Ha Hb.
  rewrite !Z.mod_small in H by assumption. assumption.
Qed.

(** A product of two numbers that are not zero modulo 257 is not zero
    modulo 257: the table of inverses has an inverse of the first. *)
Lemma eqp_mul_nonzero a b :
  ~ eqp a 0 -> ~ eqp b 0 -> ~ eqp (a * b) 0.
Proof.
  intros Ha Hb Hab.
  assert (Hr : 1 <= a mod PRIME <= 256).
  { pose proof (Z.mod_pos_bound a PRIME ltac:(reflexivity)) as H.
    assert (a mod PRIME <> 0).
    { intros H0. apply Ha. unfold eqp. rewrite H0. reflexivity. }
    unfold PRIME in *. lia. }
  destruct (modinv_at_inverse _ Hr) as (v & _ & Hv & _).
  apply Hb.
  assert (H1 : eqp (a mod PRIME * v) 1).
  { unfold eqp. rewrite Hv. reflexivity. }
  rewrite eqp_mod in H1.
  transitivity (b * (a * v)).
  - rewrite H1. apply eqp_eq. ring.
  - transitivity (v * (a * b)); [apply eqp_eq; ring|].
    rewrite Hab. apply eqp_eq. ring.
Qed.

(** ** Complete homogeneous symmetric polynomials *)

Lemma hsym_0 l : hsym 0 l = 1.
Proof. reflexivity. Qed.

Lemma hsym_nil m : hsym (S m) [] = 0.
Proof. reflexivity. Qed.

Lemma hsym_cons m y ys :
  hsym (S m) (y :: ys) = hsym (S m) ys + y * hsym m (y :: ys).
Proof. reflexivity. Qed.

(** A number may be taken out of any place of the list. *)
Lemma hsym_insert : forall m l1 b l2,
  hsym (S m) (l1 ++ b :: l2)
  = hsym (S m) (l1 ++ l2) + b * hsym m (l1 ++ b :: l2).
Proof.
  induction m as [|m IHm]; induction l1 as [|y l1 IHl]; intros b l2.
  - apply hsym_cons.
  - cbn [app]. rewrite !hsym_cons, IHl, !hsym_0. ring.
  - apply hsym_cons.
  - cbn [app].
    pose proof (IHm (y :: l1) b l2) as H. cbn [app] in H.
    pose proof (hsym_cons m y (l1 ++ b :: l2)) as H2.
    rewrite (hsym_cons (S m) y (l1 ++ b :: l2)), IHl.
    rewrite (hsym_cons (S m) y (l1 ++ l2)).
    set (A := hsym (S m) (y :: l1 ++ b :: l2)) in *.
    replace (hsym (S m) (l1 ++ b :: l2))
      with (A - y * hsym m (y :: l1 ++ b :: l2)) by lia.
    replace (hsym (S m) (y :: l1 ++ l2))
      with (A - b * hsym m (y :: l1 ++ b :: l2)) by lia.
    ring.
Qed.

(** The difference of the polynomials of two overlapping lists. *)
Lemma hsym_diff m a b Y :
  hsym (S m) (Y ++ [b]) - hsym (S m) (a :: Y)
  = (b - a) * hsym m (a :: Y ++ [b]).
Proof.
  pose proof (hsym_insert m (a :: Y) b []) as H1.
  cbn [app] in H1. rewrite app_nil_r in H1.
  pose proof (hsym_cons m a (Y ++ [b])) as H2.
  lia.
Qed.

Lemma hsym_single m y : hsym m [y] = y ^ Z.of_nat m.
Proof.
  induction m as [|m IH]; [reflexivity|].
  rewrite hsym_cons, hsym_nil, IH, Nat2Z.inj_succ, Z.pow_succ_r by lia.
  ring.
Qed.

(** ** The rows of the Vandermonde matrix under elimination *)

Section Levels.

Variable xs : nat -> Z.
Variable c : nat -> Z.

Lemma nodes_cons a len : nodes xs a (S len) = xs a :: nodes xs (S a) len.
Proof. reflexivity. Qed.

Lemma nodes_snoc a len :
  nodes xs a (S len) = nodes xs a len ++ [xs (a + len)%nat].
Proof. unfold nodes. rewrite seq_S, map_app. reflexivity. Qed.

Lemma level_0 i t : level xs i 0 t = xs i ^ Z.of_nat t.
Proof.
  unfold level. cbn [Nat.ltb Nat.leb pivotprod].
  rewrite !Nat.sub_0_r. unfold nodes. cbn [seq map].
  rewrite hsym_single. ring.
Qed.

Lemma level_diag i m : level xs i m m = pivotprod xs i m.
Proof.
  unfold level. rewrite Nat.ltb_irrefl, Nat.sub_diag, hsym_0. ring.
Qed.

Lemma level_below i m t : (t < m)%nat -> level xs i m t = 0.
Proof.
  intros H. unfold level.
  replace (t <? m)%nat with true by (symmetry; apply Nat.ltb_lt; lia).
  reflexivity.
Qed.

(** The row operation in exact arithmetic. *)
Lemma level_elim i j t :
  (j < i)%nat -> (j <= t)%nat ->
  level xs i j t
  - pivotprod xs i j * hsym (t - j) (nodes xs (i - 1 - j) (S j))
  = level xs i (S j) t.
Proof.
  intros Hji Hjt. unfold level.
  replace (t <? j)%nat with false by (symmetry; apply Nat.ltb_ge; lia).
  assert (Ha : nodes xs (i - 1 - j) (S j)
               = xs (i - 1 - j)%nat :: nodes xs (i - j) j).
  { rewrite nodes_cons. do 2 f_equal. lia. }
  assert (Hb : nodes xs (i - j) (S j) = nodes xs (i - j) j ++ [xs i]).
  { rewrite nodes_snoc. do 3 f_equal. lia. }
  assert (Hc : nodes xs (i - S j) (S (S j))
               = xs (i - 1 - j)%nat :: nodes xs (i - j) j ++ [xs i]).
  { rewrite nodes_cons.
    replace (S (i - S j)) with (i - j)%nat by lia.
    rewrite Hb. do 2 f_equal. lia. }
  rewrite Ha, Hb, Hc.
  destruct (Nat.eq_dec t j) as [->|Hne].
  - rewrite Nat.sub_diag.
    replace (j <? S j)%nat with true by (symmetry; apply Nat.ltb_lt; lia).
    rewrite !hsym_0. ring.
  - replace (t <? S j)%nat with false by (symmetry; apply Nat.ltb_ge; lia).
    replace (t - j)%nat with (S (t - S j)) by lia.
    cbn [pivotprod].
    pose proof (hsym_diff (t - S j) (xs (i - 1 - j)%nat) (xs i)
                  (nodes xs (i - j) j)) as Hd.
    replace (i - S j)%nat with (i - 1 - j)%nat by lia.
    set (h1 := hsym (S (t - S j)) (nodes xs (i - j) j ++ [xs i])) in *.
    set (h2 := hsym (S (t - S j)) (xs (i - 1 - j)%nat :: nodes xs (i - j) j))
      in *.
    replace h1 with (h2 + (xs i - xs (i - 1 - j)%nat)
                          * hsym (t - S j)
                              (xs (i - 1 - j)%nat :: nodes xs (i - j) j
                               ++ [xs i])) by lia.
    ring.
Qed.

(** The row operation modulo 257, with the inverse of the pivot. *)
Lemma level_elim_eqp i j t ei ep eij piv inv :
  (j < i)%nat -> (j <= t)%nat ->
  eqp ei (level xs i j t) -> eqp ep (level xs (i - 1) j t) ->
  eqp eij (level xs i j j) -> eqp piv (level xs (i - 1) j j) ->
  eqp (piv * inv) 1 ->
  eqp (ei - ep * (eij * inv)) (level xs i (S j) t).
Proof.
  intros Hji Hjt Hei Hep Heij Hpiv Hinv.
  rewrite <- (level_elim i j t Hji Hjt).
  rewrite Hei, Hep, Heij, level_diag.
  apply eqp_sub; [reflexivity|].
  rewrite level_diag in Hpiv.
  unfold level at 1.
  replace (t <? j)%nat with false by (symmetry; apply Nat.ltb_ge; lia).
  replace (i - 1 - j)%nat with (i - 1 - j)%nat by reflexivity.
  transitivity (pivotprod xs i j
                * hsym (t - j) (nodes xs (i - 1 - j) (S j))
                * (pivotprod xs (i - 1) j * inv)).
  - apply eqp_eq. ring.
  - rewrite <- Hpiv, Hinv. apply eqp_eq. ring.
Qed.

Lemma pivotprod_nonzero k i : forall m,
  distinct xs k -> (i < k)%nat -> (m <= i)%nat ->
  ~ eqp (pivotprod xs i m) 0.
Proof.
  intros m Hd Hi. induction m as [|m IH]; intros Hm; cbn [pivotprod].
  - unfold eqp, PRIME. cbn. discriminate.
  - apply eqp_mul_nonzero; [apply IH; lia|].
    apply Hd; lia.
Qed.

Lemma dotf_congr f g k :
  (forall t, (t < k)%nat -> eqp (f t) (g t)) ->
  eqp (dotf c f k) (dotf c g k).
Proof.
  induction k as [|k IH]; intros H; cbn [dotf]; [reflexivity|].
  rewrite IH by (intros t Ht; apply H; lia).
  rewrite (H k) by lia. reflexivity.
Qed.

Lemma dotf_lincomb f g a k :
  dotf c (fun t => f t - g t * a) k = dotf c f k - dotf c g k * a.
Proof.
  induction k as [|k IH]; cbn [dotf]; [ring|]. rewrite IH. ring.
Qed.

Lemma dotf_single f i k :
  (i < k)%nat ->
  (forall t, (t < k)%nat -> t <> i -> eqp (f t) 0) ->
  eqp (dotf c f k) (f i * c i).
Proof.
  induction k as [|k IH]; intros Hi H; [lia|]. cbn [dotf].
  destruct (Nat.eq_dec i k) as [->|Hne].
  - rewrite (dotf_congr f (fun _ => 0) k)
      by (intros t Ht; apply H; lia).
    assert (Hz : forall n, dotf c (fun _ => 0) n = 0).
    { induction n as [|n IHn]; cbn [dotf]; [reflexivity|].
      rewrite IHn. ring. }
    rewrite Hz. apply eqp_eq. ring.
  - rewrite IH by (try lia; intros t Ht; apply H; lia).
    rewrite (H k) by lia. apply eqp_eq. ring.
Qed.

Lemma dotf_clear f i k :
  (i < k)%nat ->
  dotf c (fun t => if (t =? i)%nat then 0 else f t) k
  = dotf c f k - f i * c i.
Proof.
  induction k as [|k IH]; intros Hi; [lia|]. cbn [dotf].
  destruct (Nat.eq_dec i k) as [->|Hne].
  - rewrite Nat.eqb_refl.
    assert (He : forall n, (n <= k)%nat ->
              dotf c (fun t => if (t =? k)%nat then 0 else f t) n
              = dotf c f n).
    { induction n as [|n IHn]; intros Hn; cbn [dotf]; [reflexivity|].
      rewrite IHn by lia.
      destruct (Nat.eqb_spec n k); [lia | reflexivity]. }
    rewrite He by lia. ring.
  - rewrite IH by lia.
    destruct (Nat.eqb_spec k i); [lia | ring].
Qed.

End Levels.

(** ** What one row operation does to the matrix *)

Lemma crem_mod a : 0 <= a -> crem a PRIME = a mod PRIME.
Proof. intros H. unfold crem. apply Z.rem_mod_nonneg; unfold PRIME; lia. Qed.

Lemma rowop_value mit mpt a :
  0 <= mpt * a < 2 ^ 31 -> - 2 ^ 31 + 257 <= mit < 2 ^ 31 ->
  mod_ (i32 (mit - crem (i32 (mpt * a)) PRIME)) PRIME
  = (mit - mpt * a) mod PRIME.
Proof.
  intros Hp Hm.
  rewrite (i32_small (mpt * a)) by lia.
  rewrite crem_mod by lia.
  pose proof (Z.mod_pos_bound (mpt * a) PRIME ltac:(reflexivity)) as Hr.
  unfold PRIME in *.
  rewrite i32_small by lia.
  unfold mod_. apply Zminus_mod_idemp_r.
Qed.

Lemma eliminate_spec k j i m inv :
  shape k m -> (1 <= i < k)%nat -> (j <= k)%nat ->
  modinv_at (entry m (i - 1) j) = Ok inv ->
  - 2 ^ 31 <= entry m i j * inv < 2 ^ 31 ->
  (forall t, (j <= t <= k)%nat ->
     0 <= entry m (i - 1) t * (entry m i j * inv) < 2 ^ 31
     /\ - 2 ^ 31 + 257 <= entry m i t < 2 ^ 31) ->
  exists m',
    eliminate k j i m = Ok m'
    /\ shape k m'
    /\ forall r t, (r < k)%nat -> (t <= k)%nat ->
         entry m' r t
         = if ((r =? i) && (j <=? t))%nat
           then (entry m i t - entry m (i - 1) t * (entry m i j * inv))
                mod PRIME
           else entry m r t.
Proof.
  intros Hs Hi Hj Hinv Ha Hrange. unfold eliminate.
  rewrite !(mget_entry k) by (assumption || lia). step.
  rewrite Hinv. step.
  rewrite (i32_small (entry m i j * inv)) by assumption.
  set (a := entry m i j * inv) in *.
  destruct (for_inv (fun t m1 =>
              shape k m1 /\
              forall r c, (r < k)%nat -> (c <= k)%nat ->
                entry m1 r c
                = if ((r =? i) && (j <=? c) && (c <? t))%nat
                  then (entry m i c - entry m (i - 1) c * a) mod PRIME
                  else entry m r c)
              (fun t mat =>
                 mit <- mget mat i t ;;
                 mpt <- mget mat (i - 1) t ;;
                 let temp := i32 (mit - crem (i32 (mpt * a)) PRIME) in
                 mset mat i t (mod_ temp PRIME))
              j (k + 1)%nat m) as (m' & Hrun & Hs' & He').
  - lia.
  - split; [assumption|]. intros r c Hr Hc.
    destruct (r =? i)%nat; cbn [andb]; [|reflexivity].
    destruct (Nat.leb_spec j c); cbn [andb]; [|reflexivity].
    replace (c <? j)%nat with false by (symmetry; apply Nat.ltb_ge; lia).
    reflexivity.
  - intros t m1 Ht [Hs1 He1].
    rewrite !(mget_entry k) by (assumption || lia). step. cbv zeta.
    rewrite (mset_mupd k) by (assumption || lia).
    eexists. split; [reflexivity|].
    split; [apply shape_mupd; assumption|].
    intros r c Hr Hc.
    rewrite (entry_mupd k) by (assumption || lia).
    rewrite (He1 i t), (He1 (i - 1)%nat t) by lia.
    rewrite Nat.eqb_refl, Nat.ltb_irrefl, andb_false_r.
    replace (i - 1 =? i)%nat with false
      by (symmetry; apply Nat.eqb_neq; lia).
    cbn [andb].
    destruct (Hrange t ltac:(lia)) as [Hp Hm].
    rewrite rowop_value by assumption.
    rewrite He1 by assumption.
    destruct (Nat.eqb_spec r i) as [->|Hne]; cbn [andb]; [|reflexivity].
    destruct (Nat.eqb_spec c t) as [->|Hct]; cbn [andb].
    + replace (j <=? t)%nat with true by (symmetry; apply Nat.leb_le; lia).
      replace (t <? S t)%nat with true by (symmetry; apply Nat.ltb_lt; lia).
      reflexivity.
    + destruct (j <=? c)%nat; cbn [andb]; [|reflexivity].
      destruct (Nat.ltb_spec c t), (Nat.ltb_spec c (S t));
        try reflexivity; lia.
  - exists m'. split; [assumption|]. split; [assumption|].
    intros r t Hr Ht. rewrite He' by assumption.
    replace (t <? k + 1)%nat with true by (symmetry; apply Nat.ltb_lt; lia).
    rewrite andb_true_r. reflexivity.
Qed.

Lemma substitute_spec k i m inv :
  shape k m -> (1 <= i < k)%nat ->
  modinv_at (entry m i i) = Ok inv ->
  0 <= entry m i k * inv < 2 ^ 31 ->
  0 <= entry m i i * inv < 2 ^ 31 ->
  (forall t, (t < i)%nat ->
     0 <= (entry m i k * inv) mod PRIME * entry m t i < 2 ^ 31
     /\ - 2 ^ 31 + 257 <= entry m t k < 2 ^ 31) ->
  exists m',
    substitute k i m = Ok m'
    /\ shape k m'
    /\ forall r c, (r < k)%nat -> (c <= k)%nat ->
         entry m' r c
         = if (r =? i)%nat
           then if (c =? k)%nat then (entry m i k * inv) mod PRIME
                else if (c =? i)%nat then (entry m i i * inv) mod PRIME
                else entry m r c
           else if (r <? i)%nat
           then if (c =? k)%nat
                then (entry m r k
                      - entry m r i * ((entry m i k * inv) mod PRIME))
                     mod PRIME
                else if (c =? i)%nat then 0
                else entry m r c
           else entry m r c.
Proof.
  intros Hs Hi Hinv Hik Hii Hrange. unfold substitute.
  rewrite !(mget_entry k) by (assumption || lia). step.
  rewrite Hinv. step.
  rewrite (mset_mupd k) by (assumption || lia). step.
  rewrite (i32_small (entry m i k * inv)), crem_mod by lia.
  set (v := (entry m i k * inv) mod PRIME) in *.
  set (m1 := mupd m i k v).
  assert (Hs1 : shape k m1) by (apply shape_mupd; assumption).
  assert (He1 : forall r c, (r < k)%nat -> (c <= k)%nat ->
            entry m1 r c
            = if ((r =? i) && (c =? k))%nat then v else entry m r c).
  { intros r c Hr Hc. unfold m1.
    apply (entry_mupd k); (assumption || lia). }
  rewrite !(mget_entry k) by (assumption || lia). step.
  rewrite (He1 i i) by lia.
  replace (i =? k)%nat with false by (symmetry; apply Nat.eqb_neq; lia).
  rewrite andb_false_r, Hinv. step.
  rewrite (mset_mupd k) by (assumption || lia). step.
  rewrite (i32_small (entry m i i * inv)), crem_mod by lia.
  set (d := (entry m i i * inv) mod PRIME).
  set (m2 := mupd m1 i i d).
  assert (Hs2 : shape k m2) by (apply shape_mupd; assumption).
  assert (He2 : forall r c, (r < k)%nat -> (c <= k)%nat ->
            entry m2 r c
            = if (r =? i)%nat
              then if (c =? k)%nat then v
                   else if (c =? i)%nat then d else entry m r c
              else entry m r c).
  { intros r c Hr Hc. unfold m2.
    rewrite (entry_mupd k) by (assumption || lia).
    rewrite He1 by assumption.
    destruct (Nat.eqb_spec r i) as [->|]; cbn [andb]; [|reflexivity].
    destruct (Nat.eqb_spec c i) as [->|]; cbn [andb].
    - replace (i =? k)%nat with false
        by (symmetry; apply Nat.eqb_neq; lia).
      reflexivity.
    - reflexivity. }
  destruct (for_down_inv (fun idx m3 =>
              shape k m3 /\
              forall r c, (r < k)%nat -> (c <= k)%nat ->
                entry m3 r c
                = if ((idx <=? r) && (r <? i))%nat
                  then if (c =? k)%nat
                       then (entry m r k - entry m r i * v) mod PRIME
                       else if (c =? i)%nat then 0 else entry m r c
                  else entry m2 r c)
              (fun t1 mat =>
                 let t := (t1 - 1)%nat in
                 mtk <- mget mat t k ;;
                 mik <- mget mat i k ;;
                 mti <- mget mat t i ;;
                 let temp := i32 (mtk - crem (i32 (mik * mti)) PRIME) in
                 mat <- mset mat t k (mod_ temp PRIME) ;;
                 mset mat t i 0)
              i 0%nat m2) as (m' & Hrun & Hs' & He').
  - lia.
  - split; [assumption|]. intros r c Hr Hc.
    destruct (Nat.leb_spec i r); cbn [andb]; [|reflexivity].
    replace (r <? i)%nat with false by (symmetry; apply Nat.ltb_ge; lia).
    reflexivity.
  - intros t1 m3 Ht [Hs3 He3]. cbv zeta.
    rewrite !(mget_entry k) by (assumption || lia). step.
    rewrite (He3 (t1 - 1)%nat k), (He3 i k), (He3 (t1 - 1)%nat i) by lia.
    replace (t1 <=? t1 - 1)%nat with false
      by (symmetry; apply Nat.leb_gt; lia).
    replace (i <? i)%nat with false by (symmetry; apply Nat.ltb_irrefl).
    rewrite andb_false_r. cbn [andb].
    rewrite (He2 (t1 - 1)%nat k), (He2 i k), (He2 (t1 - 1)%nat i) by lia.
    rewrite !Nat.eqb_refl.
    replace (t1 - 1 =? i)%nat with false
      by (symmetry; apply Nat.eqb_neq; lia).
    destruct (Hrange (t1 - 1)%nat ltac:(lia)) as [Hp Hm].
    rewrite rowop_value by assumption.
    rewrite (mset_mupd k) by (assumption || lia). step.
    rewrite (mset_mupd k) by (try apply shape_mupd; assumption || lia).
    eexists. split; [reflexivity|].
    split; [repeat apply shape_mupd; assumption|].
    intros r c Hr Hc.
    rewrite (entry_mupd k) by (try apply shape_mupd; assumption || lia).
    rewrite (entry_mupd k) by (assumption || lia).
    rewrite He3 by assumption.
    destruct (Nat.eqb_spec r (t1 - 1)) as [->|Hne]; cbn [andb].
    + replace (t1 - 1 <=? t1 - 1)%nat with true
        by (symmetry; apply Nat.leb_le; lia).
      replace (t1 - 1 <? i)%nat with true
        by (symmetry; apply Nat.ltb_lt; lia).
      cbn [andb].
      destruct (Nat.eqb_spec c i) as [->|Hci].
      * replace (i =? k)%nat with false
          by (symmetry; apply Nat.eqb_neq; lia).
        reflexivity.
      * destruct (Nat.eqb_spec c k) as [->|Hck].
        -- f_equal. ring.
        -- rewrite He2 by lia.
           replace (t1 - 1 =? i)%nat with false
             by (symmetry; apply Nat.eqb_neq; lia).
           destruct ((t1 <=? t1 - 1)%nat && true); reflexivity.
    + destruct (Nat.leb_spec t1 r), (Nat.leb_spec (t1 - 1) r);
        try reflexivity; lia.
  - exists m'. split; [assumption|]. split; [assumption|].
    intros r c Hr Hc. rewrite He' by assumption.
    cbn [Nat.leb andb]. rewrite He2 by assumption.
    destruct (Nat.eqb_spec r i) as [->|Hne].
    + rewrite Nat.ltb_irrefl. reflexivity.
    + destruct (Nat.ltb_spec r i); reflexivity.
Qed.

(** ** Elimination on the matrix of [k] shadows *)

Section Elimination.

Variable k : nat.
Variable xs : nat -> Z.
Variable ps : nat -> Z.
Variable c : nat -> Z.

(** The shadow numbers are not negative and their powers fit an [int]; the
    pixels are bytes, and so are the coefficients, which solve the equation
    of every row; the shadow numbers are distinct modulo 257. *)
Hypothesis Hk1 : (1 <= k)%nat.
Hypothesis Hx : forall r, (r < k)%nat ->
  0 <= xs r /\ xs r ^ Z.of_nat k < 2 ^ 31
  /\ 256 * xs r ^ Z.of_nat (k - 1) < 2 ^ 31.
Hypothesis Hps : forall r, (r < k)%nat -> 0 <= ps r < 256.
Hypothesis Hc : forall t, (t < k)%nat -> 0 <= c t < 256.
Hypothesis Hsol : forall r, (r < k)%nat ->
  eqp (dotf c (fun t => xs r ^ Z.of_nat t) k) (ps r).
Hypothesis Hd : distinct xs k.

Lemma raw_range m r t :
  rowraw k xs ps m r -> (r < k)%nat -> (t <= k)%nat ->
  0 <= entry m r t < 2 ^ 31.
Proof.
  intros [He Hk] Hr Ht. destruct (Hx r Hr) as (H0 & Hpow & _).
  destruct (Nat.eq_dec t k) as [->|Hne].
  - rewrite Hk. specialize (Hps r Hr). lia.
  - rewrite He by lia.
    destruct (Nat.eq_dec t 0) as [->|Hnz].
    + cbn. lia.
    + pose proof (pow_le_top (xs r) t k H0 ltac:(lia)). lia.
Qed.

Lemma raw_lvl m r :
  rowraw k xs ps m r -> (r < k)%nat -> rowlvl k xs c m r 0.
Proof.
  intros [He Hk] Hr. split.
  - intros t Ht. rewrite He by assumption. rewrite level_0. reflexivity.
  - rewrite Hk, <- (Hsol r Hr). apply dotf_congr.
    intros t Ht. apply eqp_eq, He. assumption.
Qed.

Lemma rowraw_same m m' r :
  (forall t, (t <= k)%nat -> entry m' r t = entry m r t) ->
  rowraw k xs ps m r -> rowraw k xs ps m' r.
Proof.
  intros Hsame [He Hk]. split.
  - intros t Ht. rewrite Hsame by lia. apply He. assumption.
  - rewrite Hsame by lia. assumption.
Qed.

Lemma rowred_same m m' r :
  (forall t, (t <= k)%nat -> entry m' r t = entry m r t) ->
  rowred k m r -> rowred k m' r.
Proof.
  intros Hsame H t Ht. rewrite Hsame by assumption. apply H. assumption.
Qed.

Lemma rowlvl_same m m' r l :
  (forall t, (t <= k)%nat -> entry m' r t = entry m r t) ->
  rowlvl k xs c m r l -> rowlvl k xs c m' r l.
Proof.
  intros Hsame [He Hdot]. split.
  - intros t Ht. rewrite Hsame by lia. apply He. assumption.
  - rewrite Hsame by lia. rewrite <- Hdot. apply dotf_congr.
    intros t Ht. apply eqp_eq, Hsame. lia.
Qed.

(** The new row [i] is one level further. *)
Lemma newrow_lvl j i m m' inv :
  (j < i)%nat -> (i < k)%nat ->
  rowlvl k xs c m i j -> rowlvl k xs c m (i - 1) j ->
  eqp (entry m (i - 1) j * inv) 1 ->
  (forall t, (t <= k)%nat ->
     entry m' i t
     = if (j <=? t)%nat
       then (entry m i t - entry m (i - 1) t * (entry m i j * inv))
            mod PRIME
       else entry m i t) ->
  rowlvl k xs c m' i (S j).
Proof.
  intros Hji Hik [Hei Hdi] [Hep Hdp] Hinv Hnew.
  set (a := entry m i j * inv) in *.
  assert (Hall : forall t, (t <= k)%nat ->
            eqp (entry m' i t) (entry m i t - entry m (i - 1) t * a)).
  { intros t Ht. rewrite Hnew by assumption.
    destruct (Nat.leb_spec j t) as [Hjt|Hjt]; [apply eqp_mod|].
    rewrite (Hep t) by lia. rewrite level_below by assumption.
    apply eqp_eq. ring. }
  split.
  - intros t Ht. destruct (Nat.leb_spec j t) as [Hjt|Hjt].
    + rewrite Hall by lia. unfold a.
      apply level_elim_eqp with (piv := entry m (i - 1) j);
        try assumption; try lia.
      * apply Hei. assumption.
      * apply Hep. assumption.
      * apply Hei. lia.
      * apply Hep. lia.
    + rewrite Hnew by lia.
      replace (j <=? t)%nat with false by (symmetry; apply Nat.leb_gt; lia).
      rewrite (Hei t) by lia. rewrite !level_below by lia. reflexivity.
  - rewrite (Hall k) by lia.
    rewrite <- Hdi, <- Hdp, <- dotf_lincomb.
    apply dotf_congr. intros t Ht. apply Hall. lia.
Qed.

Lemma newrow_red j i m m' inv :
  (forall t, (t < j)%nat -> 0 <= entry m i t < PRIME) ->
  (forall t, (t <= k)%nat ->
     entry m' i t
     = if (j <=? t)%nat
       then (entry m i t - entry m (i - 1) t * (entry m i j * inv))
            mod PRIME
       else entry m i t) ->
  rowred k m' i.
Proof.
  intros Hlow Hnew t Ht. rewrite Hnew by assumption.
  destruct (Nat.leb_spec j t).
  - apply Z.mod_pos_bound. reflexivity.
  - apply Hlow. assumption.
Qed.

(** What the two rows of a row operation are like. *)
Lemma einv_rows j i m :
  (j < i)%nat -> (i < k)%nat -> einv k xs ps c j i m ->
  rowlvl k xs c m i j /\ rowlvl k xs c m (i - 1) j
  /\ (forall t, (t < j)%nat -> 0 <= entry m i t < PRIME)
  /\ exists inv,
       modinv_at (entry m (i - 1) j) = Ok inv
       /\ eqp (entry m (i - 1) j * inv) 1
       /\ 0 <= entry m i j * inv < 2 ^ 31
       /\ forall t, (t <= k)%nat ->
            0 <= entry m (i - 1) t * (entry m i j * inv) < 2 ^ 31
            /\ 0 <= entry m i t < 2 ^ 31.
Proof.
  intros Hji Hik (Hs & Hraw0 & Hrows).
  pose proof (Hrows i ltac:(lia)) as Hi. rewrite Nat.ltb_irrefl in Hi.
  destruct j as [|j'].
  - (* the first pass: both rows are as assembled *)
    cbn [Nat.eqb] in Hi.
    assert (Hp : rowraw k xs ps m (i - 1)).
    { destruct (Nat.eq_dec (i - 1) 0) as [->|Hne]; [assumption|].
      pose proof (Hrows (i - 1)%nat ltac:(lia)) as H.
      replace (i <? i - 1)%nat with false in H
        by (symmetry; apply Nat.ltb_ge; lia).
      assumption. }
    split; [apply raw_lvl; assumption || lia|].
    split; [apply raw_lvl; assumption || lia|].
    split; [intros t Ht; lia|].
    exists 1.
    pose proof (proj1 Hi 0%nat ltac:(lia)) as Hi0.
    pose proof (proj1 Hp 0%nat ltac:(lia)) as Hp0.
    change (xs i ^ Z.of_nat 0) with 1 in Hi0.
    change (xs (i - 1)%nat ^ Z.of_nat 0) with 1 in Hp0.
    rewrite Hi0, Hp0.
    split; [reflexivity|]. split; [reflexivity|]. split; [lia|].
    intros t Ht. rewrite Z.mul_1_r. split.
    + apply raw_range; try assumption; lia.
    + apply raw_range; try assumption; lia.
  - (* a later pass: both rows are reduced *)
    cbn [Nat.eqb] in Hi. destruct Hi as [Hri Hli].
    replace (Nat.min i (S j')) with (S j') in Hli by lia.
    pose proof (Hrows (i - 1)%nat ltac:(lia)) as Hp.
    replace (i <? i - 1)%nat with false in Hp
      by (symmetry; apply Nat.ltb_ge; lia).
    cbn [Nat.eqb] in Hp. destruct Hp as [Hrp Hlp].
    replace (Nat.min (i - 1) (S j')) with (S j') in Hlp by lia.
    split; [assumption|]. split; [assumption|].
    split; [intros t Ht; apply Hri; lia|].
    assert (Hpiv : 1 <= entry m (i - 1) (S j') <= 256).
    { pose proof (Hrp (S j') ltac:(lia)) as Hr. unfold PRIME in Hr.
      assert (entry m (i - 1) (S j') <> 0); [|lia].
      intros H0.
      apply (pivotprod_nonzero xs k (i - 1) (S j') Hd); try lia.
      rewrite <- level_diag. rewrite <- (proj1 Hlp (S j')) by lia.
      rewrite H0. reflexivity. }
    destruct (modinv_at_inverse _ Hpiv) as (inv & Hinv & Hone & Hir).
    exists inv. split; [assumption|].
    split; [unfold eqp; rewrite Hone; reflexivity|].
    pose proof (Hri (S j') ltac:(lia)) as Hij. unfold PRIME in *.
    assert (Ha : 0 <= entry m i (S j') * inv <= 256 * 256) by nia.
    split; [lia|].
    intros t Ht. pose proof (Hrp t Ht). pose proof (Hri t Ht).
    unfold PRIME in *.
    set (a := entry m i (S j') * inv) in *. clearbody a.
    assert (0 <= entry m (i - 1) t * a <= 256 * (256 * 256))
      by (split; [apply Z.mul_nonneg_nonneg
                 |apply Z.mul_le_mono_nonneg]; lia).
    split; lia.
Qed.

(** One row operation of the forward elimination. *)
Lemma einv_step j i m :
  (j < i)%nat -> (i < k)%nat -> einv k xs ps c j i m ->
  exists m', eliminate k j i m = Ok m' /\ einv k xs ps c j (i - 1) m'.
Proof.
  intros Hji Hik Hinv.
  destruct (einv_rows j i m Hji Hik Hinv)
    as (Hli & Hlp & Hlow & inv & Hmi & Hone & Ha & Hrange).
  destruct Hinv as (Hs & Hraw0 & Hrows).
  destruct (eliminate_spec k j i m inv Hs ltac:(lia) ltac:(lia) Hmi
              ltac:(lia)) as (m' & Hrun & Hs' & He').
  { intros t Ht. destruct (Hrange t ltac:(lia)). split; lia. }
  exists m'. split; [assumption|].
  assert (Hnew : forall t, (t <= k)%nat ->
            entry m' i t
            = if (j <=? t)%nat
              then (entry m i t - entry m (i - 1) t * (entry m i j * inv))
                   mod PRIME
              else entry m i t).
  { intros t Ht. rewrite He' by lia. rewrite Nat.eqb_refl. reflexivity. }
  assert (Hsame : forall r, (r < k)%nat -> r <> i ->
            forall t, (t <= k)%nat -> entry m' r t = entry m r t).
  { intros r Hr Hne t Ht. rewrite He' by lia.
    replace (r =? i)%nat with false by (symmetry; apply Nat.eqb_neq; lia).
    reflexivity. }
  split; [assumption|]. split.
  - apply (rowraw_same m); [apply Hsame; lia | assumption].
  - intros r Hr. specialize (Hrows r Hr).
    destruct (Nat.eq_dec r i) as [->|Hne].
    + replace (i - 1 <? i)%nat with true
        by (symmetry; apply Nat.ltb_lt; lia).
      split.
      * apply (newrow_red j i m m' inv); assumption.
      * apply (newrow_lvl j i m m' inv); assumption.
    + destruct (Nat.ltb_spec i r) as [Hir|Hir].
      * replace (i - 1 <? r)%nat with true
          by (symmetry; apply Nat.ltb_lt; lia).
        destruct Hrows as [H1 H2]. split.
        -- apply (rowred_same m); [apply Hsame; lia | assumption].
        -- apply (rowlvl_same m); [apply Hsame; lia | assumption].
      * replace (i - 1 <? r)%nat with false
          by (symmetry; apply Nat.ltb_ge; lia).
        destruct (j =? 0)%nat.
        -- apply (rowraw_same m); [apply Hsame; lia | assumption].
        -- destruct Hrows as [H1 H2]. split.
           ++ apply (rowred_same m); [apply Hsame; lia | assumption].
           ++ apply (rowlvl_same m); [apply Hsame; lia | assumption].
Qed.

(** From the end of a pass to the start of the next. *)
Lemma einv_next j m :
  einv k xs ps c j j m -> einv k xs ps c (S j) (k - 1) m.
Proof.
  intros (Hs & Hraw0 & Hrows). split; [assumption|].
  split; [assumption|].
  intros r Hr. specialize (Hrows r Hr).
  replace (k - 1 <? r)%nat with false by (symmetry; apply Nat.ltb_ge; lia).
  cbn [Nat.eqb].
  destruct (Nat.ltb_spec j r) as [Hjr|Hjr].
  - replace (Nat.min r (S j)) with (S j) by lia. assumption.
  - destruct j as [|j']; [lia|]. cbn [Nat.eqb] in Hrows.
    replace (Nat.min r (S (S j'))) with (Nat.min r (S j')) by lia.
    assumption.
Qed.

Lemma echelon_run m :
  shape k m -> (forall r, (r < k)%nat -> rowraw k xs ps m r) ->
  exists m',
    echelon k m = Ok m'
    /\ shape k m'
    /\ rowraw k xs ps m' 0
    /\ forall r, (1 <= r < k)%nat -> rowred k m' r /\ rowlvl k xs c m' r r.
Proof.
  intros Hs Hraw. unfold echelon.
  destruct (for_inv (fun j m1 => einv k xs ps c j (k - 1) m1)
              (fun j mat => for_down (k - 1) j (eliminate k j) mat)
              0%nat (k - 1)%nat m) as (m' & Hrun & Hinv).
  - lia.
  - split; [assumption|]. split; [apply Hraw; lia|].
    intros r Hr.
    replace (k - 1 <? r)%nat with false
      by (symmetry; apply Nat.ltb_ge; lia).
    cbn [Nat.eqb]. apply Hraw. lia.
  - intros j m1 Hj Hm1.
    destruct (for_down_inv (fun i m2 => einv k xs ps c j i m2)
                (eliminate k j) (k - 1)%nat j m1) as (m2 & Hrun2 & Hm2).
    + lia.
    + assumption.
    + intros i m2 Hi Hm2. apply einv_step; (assumption || lia).
    + exists m2. split; [assumption|]. apply einv_next. assumption.
  - exists m'. split; [assumption|].
    destruct Hinv as (Hs' & Hraw0 & Hrows).
    split; [assumption|]. split; [assumption|].
    intros r Hr. specialize (Hrows r Hr).
    replace (k - 1 <? r)%nat with false in Hrows
      by (symmetry; apply Nat.ltb_ge; lia).
    destruct (k - 1)%nat as [|k'] eqn:Ek; [lia|].
    cbn [Nat.eqb] in Hrows.
    replace (Nat.min r (S k')) with r in Hrows by lia.
    assumption.
Qed.

(** The matrix in echelon form is ready for the back substitution. *)
Lemma sinv_start m :
  shape k m -> rowraw k xs ps m 0 ->
  (forall r, (1 <= r < k)%nat -> rowred k m r /\ rowlvl k xs c m r r) ->
  sinv k xs c (k - 1) m.
Proof.
  intros Hs Hraw0 Hrows.
  split; [assumption|]. split; [intros r Hr; lia|]. split; [|split].
  - intros r Hr Hrk. split; [intros t Ht; lia|].
    destruct (Nat.eq_dec r 0) as [->|Hne].
    + pose proof (raw_lvl m 0%nat Hraw0 Hk1) as [Hl Hdot].
      split; [intros t _ Ht; apply Hl; assumption|].
      split; [assumption|].
      rewrite (proj2 Hraw0). specialize (Hps 0%nat Hk1).
      unfold PRIME. lia.
    + destruct (Hrows r ltac:(lia)) as [Hred [Hl Hdot]].
      split; [intros t _ Ht; apply Hl; assumption|].
      split; [assumption|]. apply Hred. lia.
  - intros r Hr Hrk. apply Hrows. lia.
  - intros t _ Ht. apply (proj1 Hraw0). assumption.
Qed.

(** One step of the back substitution: the row [i] is solved. *)
Lemma sinv_step i m :
  (1 <= i < k)%nat -> sinv k xs c i m ->
  exists m', substitute k i m = Ok m' /\ sinv k xs c (i - 1) m'.
Proof.
  intros Hi (Hs & Hsolved & Hrows & Hred & Hrow0).
  destruct (Hrows i ltac:(lia) ltac:(lia)) as (Hzi & Hli & Hdi & Hki).
  pose proof (Hred i ltac:(lia) ltac:(lia)) as Hri.
  (* the pivot is not zero *)
  assert (Hpiv : 1 <= entry m i i <= 256).
  { pose proof (Hri i ltac:(lia)) as Hr. unfold PRIME in Hr.
    assert (entry m i i <> 0); [|lia].
    intros H0.
    apply (pivotprod_nonzero xs k i i Hd); try lia.
    rewrite <- level_diag. rewrite <- (Hli i) by lia.
    rewrite H0. reflexivity. }
  destruct (modinv_at_inverse _ Hpiv) as (inv & Hinv & Hone & Hir).
  assert (Hone' : eqp (entry m i i * inv) 1)
    by (unfold eqp; rewrite Hone; reflexivity).
  (* the scaled right-hand side is the coefficient *)
  assert (Hv : (entry m i k * inv) mod PRIME = c i).
  { apply eqp_small.
    - assert (Hsingle : eqp (dotf c (entry m i) k) (entry m i i * c i)).
      { apply dotf_single; [lia|]. intros t Ht Hne.
        destruct (Nat.lt_ge_cases t i).
        - rewrite Hli by lia. rewrite level_below by lia. reflexivity.
        - rewrite Hzi by lia. reflexivity. }
      rewrite eqp_mod, <- Hdi, Hsingle.
      transitivity (c i * (entry m i i * inv)); [apply eqp_eq; ring|].
      rewrite Hone'. apply eqp_eq. ring.
    - apply Z.mod_pos_bound. reflexivity.
    - specialize (Hc i ltac:(lia)). unfold PRIME. lia. }
  pose proof (Hri k ltac:(lia)) as Hik. unfold PRIME in Hik, Hir.
  destruct (substitute_spec k i m inv Hs Hi Hinv ltac:(nia) ltac:(nia))
    as (m' & Hrun & Hs' & He').
  { intros t Hti. rewrite Hv. pose proof (Hc i ltac:(lia)) as Hci.
    destruct (Hrows t ltac:(lia) ltac:(lia)) as (_ & _ & _ & Htk).
    unfold PRIME in Htk. split; [|lia].
    destruct (Nat.eq_dec t 0) as [->|Hne].
    - rewrite Hrow0 by lia.
      destruct (Hx 0%nat Hk1) as (H0 & _ & Hb).
      pose proof (pow_le_top (xs 0%nat) i (k - 1) H0 ltac:(lia)) as Hp.
      split; [apply Z.mul_nonneg_nonneg; lia|].
      assert (c i * xs 0%nat ^ Z.of_nat i
              <= 256 * xs 0%nat ^ Z.of_nat (k - 1))
        by (apply Z.mul_le_mono_nonneg; lia).
      lia.
    - pose proof (Hred t ltac:(lia) ltac:(lia) i ltac:(lia)) as Hti'.
      unfold PRIME in Hti'.
      split; [apply Z.mul_nonneg_nonneg; lia|].
      assert (c i * entry m t i <= 256 * 256)
        by (apply Z.mul_le_mono_nonneg; lia).
      lia. }
  exists m'. split; [assumption|].
  rewrite Hv in He'.
  split; [assumption|]. split; [|split; [|split]].
  - (* the solved rows *)
    intros r Hr. rewrite He' by lia.
    destruct (Nat.eqb_spec r i) as [->|Hne].
    + rewrite Nat.eqb_refl. reflexivity.
    + replace (r <? i)%nat with false by (symmetry; apply Nat.ltb_ge; lia).
      apply Hsolved. lia.
  - (* the rows that are left *)
    intros r Hr Hrk.
    destruct (Hrows r ltac:(lia) Hrk) as (Hzr & Hlr & Hdr & Hkr).
    assert (Hrow : forall t, (t <= k)%nat ->
              entry m' r t
              = if (t =? k)%nat
                then (entry m r k - entry m r i * c i) mod PRIME
                else if (t =? i)%nat then 0 else entry m r t).
    { intros t Ht. rewrite He' by lia.
      replace (r =? i)%nat with false by (symmetry; apply Nat.eqb_neq; lia).
      replace (r <? i)%nat with true by (symmetry; apply Nat.ltb_lt; lia).
      reflexivity. }
    split; [|split; [|split]].
    + intros t Ht. rewrite Hrow by lia.
      replace (t =? k)%nat with false by (symmetry; apply Nat.eqb_neq; lia).
      destruct (Nat.eqb_spec t i); [reflexivity | apply Hzr; lia].
    + intros t Ht Htk. rewrite Hrow by lia.
      replace (t =? k)%nat with false by (symmetry; apply Nat.eqb_neq; lia).
      replace (t =? i)%nat with false by (symmetry; apply Nat.eqb_neq; lia).
      apply Hlr; lia.
    + rewrite (Hrow k) by lia. rewrite Nat.eqb_refl, eqp_mod.
      rewrite <- Hdr, <- (dotf_clear c (entry m r) i k) by lia.
      apply dotf_congr. intros t Ht. rewrite Hrow by lia.
      replace (t =? k)%nat with false by (symmetry; apply Nat.eqb_neq; lia).
      reflexivity.
    + rewrite (Hrow k) by lia. rewrite Nat.eqb_refl.
      apply Z.mod_pos_bound. reflexivity.
  - (* they stay reduced *)
    intros r Hr Hrk t Ht. rewrite He' by lia.
    replace (r =? i)%nat with false by (symmetry; apply Nat.eqb_neq; lia).
    replace (r <? i)%nat with true by (symmetry; apply Nat.ltb_lt; lia).
    destruct (t =? k)%nat; [apply Z.mod_pos_bound; reflexivity|].
    destruct (t =? i)%nat; [unfold PRIME; lia|].
    apply Hred; lia.
  - (* the first row keeps its powers *)
    intros t Ht Htk. rewrite He' by lia.
    replace (0 =? i)%nat with false by (symmetry; apply Nat.eqb_neq; lia).
    replace (0 <? i)%nat with true by (symmetry; apply Nat.ltb_lt; lia).
    replace (t =? k)%nat with false by (symmetry; apply Nat.eqb_neq; lia).
    replace (t =? i)%nat with false by (symmetry; apply Nat.eqb_neq; lia).
    apply Hrow0; lia.
Qed.

(** [findcoefficients] on the matrix of [k] shadows with numbers that are
    distinct modulo 257 leaves the coefficients in the last column. *)
Lemma findcoefficients_run m :
  shape k m -> (forall r, (r < k)%nat -> rowraw k xs ps m r) ->
  exists m',
    findcoefficients m k = Ok m'
    /\ shape k m'
    /\ forall r, (r < k)%nat -> entry m' r k = c r.
Proof.
  intros Hs Hraw. unfold findcoefficients.
  destruct (Nat.eqb_spec k 0) as [|_]; [lia|].
  destruct (echelon_run m Hs Hraw) as (m1 & -> & Hs1 & Hraw0 & Hrows).
  cbn [bind]. unfold reduce.
  destruct (for_down_inv (fun i m2 => sinv k xs c i m2)
              (substitute k) (k - 1)%nat 0%nat m1) as (m' & Hrun & Hfin).
  - lia.
  - apply sinv_start; assumption.
  - intros i m2 Hi Hm2. apply sinv_step; (assumption || lia).
  - exists m'. split; [assumption|].
    destruct Hfin as (Hs' & Hsolved & Hrows' & _ & Hrow0).
    split; [assumption|].
    intros r Hr. destruct (Nat.eq_dec r 0) as [->|Hne];
      [|apply Hsolved; lia].
    destruct (Hrows' 0%nat ltac:(lia) Hk1) as (Hz & _ & Hdot & Hrange).
    apply eqp_small; [|assumption|].
    + assert (Hsingle : eqp (dotf c (entry m' 0) k)
                            (entry m' 0 0 * c 0%nat)).
      { apply dotf_single; [lia|]. intros t Ht Hne.
        rewrite Hz by lia. reflexivity. }
      rewrite <- Hdot, Hsingle.
      rewrite Hrow0 by lia. apply eqp_eq.
      change (Z.of_nat 0) with 0. rewrite Z.pow_0_r. ring.
    + specialize (Hc 0%nat Hk1). unfold PRIME. lia.
Qed.

End Elimination.

(** ** Revealing the secret *)

Lemma dotf_polyeval coeff x k :
  dotf (fun t => nth t coeff 0) (fun t => x ^ Z.of_nat t) k
  = polyeval k coeff x.
Proof.
  induction k as [|k IH]; cbn [dotf polyeval]; [reflexivity|].
  rewrite IH. ring.
Qed.

(** The loop that copies the coefficients out of the matrix. *)
Lemma copyout_run k i mat px (cf : nat -> Z) :
  (1 <= k)%nat -> shape k mat ->
  ((i + 1) * k <= length px)%nat ->
  (forall r, (r < k)%nat -> entry mat r k = cf r) ->
  (forall r, (r < k)%nat -> 0 <= cf r < 256) ->
  exists px',
    for_ (i * k) ((i + 1) * k) (fun j px =>
      v <- mget mat (j mod k) k ;;
      store px j (u8 v)) px = Ok px'
    /\ length px' = length px
    /\ forall j, nth j px' 0 =
                 if ((i * k <=? j) && (j <? (i + 1) * k))%nat
                 then cf (j - i * k)%nat else nth j px 0.
Proof.
  intros Hk Hs Hlen He Hb.
  destruct (for_inv (fun j1 px1 =>
              length px1 = length px /\
              forall j, nth j px1 0 =
                        if ((i * k <=? j) && (j <? j1))%nat
                        then cf (j - i * k)%nat else nth j px 0)
              (fun j px => v <- mget mat (j mod k) k ;; store px j (u8 v))
              (i * k)%nat ((i + 1) * k)%nat px) as (px' & Hrun & Hl & Hn).
  - lia.
  - split; [reflexivity|]. intros j.
    destruct (Nat.leb_spec (i * k) j); cbn [andb]; [|reflexivity].
    replace (j <? i * k)%nat with false
      by (symmetry; apply Nat.ltb_ge; lia).
    reflexivity.
  - intros j px1 Hj [Hl Hn].
    assert (Hmod : (j mod k = j - i * k)%nat).
    { symmetry. apply Nat.mod_unique with i; lia. }
    rewrite Hmod.
    rewrite (mget_entry k) by (assumption || lia). step.
    rewrite He by lia. rewrite u8_small by (apply Hb; lia).
    rewrite store_upd by lia.
    eexists. split; [reflexivity|]. split.
    + rewrite length_upd. assumption.
    + intros j'. rewrite nth_upd by lia.
      destruct (Nat.eqb_spec j' j) as [->|Hne].
      * replace (i * k <=? j)%nat with true
          by (symmetry; apply Nat.leb_le; lia).
        replace (j <? S j)%nat with true
          by (symmetry; apply Nat.ltb_lt; lia).
        reflexivity.
      * rewrite Hn.
        destruct (Nat.leb_spec (i * k) j'); cbn [andb]; [|reflexivity].
        destruct (Nat.ltb_spec j' j), (Nat.ltb_spec j' (S j));
          try reflexivity; lia.
  - exists px'. split; [assumption|]. split; assumption.
Qed.

(** One pixel of every shadow gives [k] pixels of the secret. *)
Lemma reveal_step img k M shadows i mat px :
  (1 <= k)%nat -> bytes img -> length img = (M * k)%nat ->
  (forall j, (j < k)%nat ->
     exists sp, nth_error shadows j = Some sp /\ shadow_for img k M sp) ->
  distinct_shadows shadows k ->
  (i < M)%nat -> shape k mat -> length px = (M * k)%nat ->
  exists mat' px',
    (mat <- fillmatrix shadows k i mat ;;
     mat <- findcoefficients mat k ;;
     px <- for_ (i * k) ((i + 1) * k) (fun j px =>
             v <- mget mat (j mod k) k ;;
             store px j (u8 v)) px ;;
     Ok (mat, px)) = Ok (mat', px')
    /\ shape k mat'
    /\ length px' = (M * k)%nat
    /\ forall j, nth j px' 0 =
                 if ((i * k <=? j) && (j <? (i + 1) * k))%nat
                 then nth j img 0 else nth j px 0.
Proof.
  intros Hk Hb HL Hsh Hdist Hi Hs Hlen.
  destruct (Hsh 0%nat ltac:(lia)) as (d & _ & _).
  set (xs := fun j => shadownumber (nth j shadows d)).
  set (ps := fun j => nth i (imgpixels (nth j shadows d)) 0).
  set (cf := fun t => nth t (skipn (i * k) img) 0).
  assert (Hnth : forall j sp, nth_error shadows j = Some sp ->
            nth j shadows d = sp).
  { intros j sp H. apply nth_error_nth. assumption. }
  destruct (fillmatrix_run shadows k i mat Hs) as (m1 & Hfill & Hs1 & He1).
  { intros j Hj. destruct (Hsh j Hj) as (sp & Hsp & H0 & H1 & _ & H3 & _).
    exists sp. repeat split; try assumption. lia. }
  rewrite Hfill. cbn [bind].
  destruct (findcoefficients_run k xs ps cf Hk) with (m := m1)
    as (m2 & Hfind & Hs2 & He2).
  - intros r Hr. destruct (Hsh r Hr) as (sp & Hsp & H0 & H1 & H2 & _).
    unfold xs. rewrite (Hnth r sp Hsp). auto.
  - intros r Hr. destruct (Hsh r Hr) as (sp & Hsp & _ & _ & _ & H3 & H4).
    unfold ps. rewrite (Hnth r sp Hsp).
    destruct (H4 i Hi) as [Hv Hle]. rewrite Hv in *.
    pose proof (Z.mod_pos_bound
                  (polyeval k (skipn (i * k) img) (shadownumber sp)) PRIME
                  ltac:(reflexivity)).
    lia.
  - intros t Ht. unfold cf.
    pose proof (bytes_nth _ t (bytes_skipn (i * k) img Hb)) as H.
    exact H.
  - intros r Hr. destruct (Hsh r Hr) as (sp & Hsp & _ & _ & _ & _ & H4).
    unfold ps, xs, cf. rewrite (Hnth r sp Hsp).
    destruct (H4 i Hi) as [-> _].
    rewrite dotf_polyeval. symmetry. apply eqp_mod.
  - intros a b Ha Hb' Hab.
    destruct (Hsh a Ha) as (sa & Hsa & _).
    destruct (Hsh b Hb') as (sb & Hsb & _).
    unfold xs. rewrite (Hnth a sa Hsa), (Hnth b sb Hsb).
    apply (Hdist a b); assumption.
  - assumption.
  - intros r Hr. destruct (Hsh r Hr) as (sp & Hsp & _).
    split.
    + intros t Ht. rewrite (He1 r sp t) by (assumption || lia).
      unfold sharerow, xs. rewrite (Hnth r sp Hsp).
      replace (t =? k)%nat with false
        by (symmetry; apply Nat.eqb_neq; lia).
      reflexivity.
    + rewrite (He1 r sp k) by (assumption || lia).
      unfold sharerow, ps. rewrite (Hnth r sp Hsp), Nat.eqb_refl.
      reflexivity.
  - rewrite Hfind. cbn [bind].
    destruct (copyout_run k i m2 px cf Hk Hs2) as (px' & Hcopy & Hl' & Hn').
    + nia.
    + assumption.
    + intros r Hr. unfold cf.
      pose proof (bytes_nth _ r (bytes_skipn (i * k) img Hb)) as H.
      exact H.
    + rewrite Hcopy. cbn [bind]. exists m2, px'.
      split; [reflexivity|]. split; [assumption|]. split; [lia|].
      intros j. rewrite Hn'.
      destruct ((i * k <=? j) && (j <? (i + 1) * k))%nat eqn:E;
        [|reflexivity].
      apply andb_prop in E as [E1 E2].
      apply Nat.leb_le in E1. apply Nat.ltb_lt in E2.
      unfold cf. rewrite nth_skipn_add. f_equal. lia.
Qed.

Lemma revealsecret_run img k M shadows width height seed first :
  (1 <= k)%nat -> bytes img -> length img = (M * k)%nat ->
  (forall j, (j < k)%nat ->
     exists sp, nth_error shadows j = Some sp /\ shadow_for img k M sp) ->
  distinct_shadows shadows k ->
  nth_error shadows 0 = Some first ->
  DIBheader.pixelarraysize (dibheader first) = Z.of_nat M ->
  BMPheader.unused1 (bmpheader first) = seed ->
  calculatepixelarraysize width height = Z.of_nat (M * k) ->
  revealsecret shadows width height k
  = xorbmpwithrandomtable
      (set_imgpixels (newbitmap width height seed) img) seed.
Proof.
  intros Hk Hb HL Hsh Hdist Hfirst Hpix Hseed Hcps.
  unfold revealsecret.
  rewrite (load_nth_error _ _ _ Hfirst). cbn [bind]. cbv zeta.
  rewrite Hpix, Hseed, Nat2Z.id.
  set (bmp := newbitmap width height seed).
  assert (Hl0 : length (imgpixels bmp) = (M * k)%nat).
  { unfold bmp, newbitmap, newbitmaphelper, xmalloc. cbn [imgpixels].
    rewrite repeat_length, Hcps. lia. }
  match goal with
  | |- context [for_ 0 M ?body ?s0] =>
      destruct (for_inv (fun i (st : matrix * list Z) =>
                  shape k (fst st) /\ length (snd st) = (M * k)%nat /\
                  forall j, nth j (snd st) 0 =
                            if (j <? i * k)%nat then nth j img 0
                            else nth j (imgpixels bmp) 0)
                  body 0%nat M s0) as ([mat px] & Hrun & Hs & Hl & Hn)
  end.
  - lia.
  - cbn [fst snd]. split; [|split; [assumption|]].
    + replace (Z.of_nat k + 1) with (Z.of_nat k + 1) by reflexivity.
      apply shape_xmalloc.
    + intros j. reflexivity.
  - intros i [mat px] Hi (Hs & Hl & Hn). cbn [fst snd] in *.
    destruct (reveal_step img k M shadows i mat px Hk Hb HL Hsh Hdist
                (proj2 Hi) Hs Hl) as (mat' & px' & Hstep & Hs' & Hl' & Hn').
    rewrite Hstep. eexists. split; [reflexivity|]. cbn [fst snd].
    split; [assumption|]. split; [assumption|].
    intros j. rewrite Hn', Hn.
    destruct (Nat.leb_spec (i * k) j); cbn [andb].
    + destruct (Nat.ltb_spec j ((i + 1) * k)),
               (Nat.ltb_spec j (S i * k)), (Nat.ltb_spec j (i * k));
        try reflexivity; lia.
    + destruct (Nat.ltb_spec j (S i * k)), (Nat.ltb_spec j (i * k));
        try reflexivity; lia.
  - rewrite Hrun. cbn [bind fst snd] in *.
    replace px with img; [reflexivity|].
    apply (nth_ext _ _ 0 0); [lia|].
    intros j Hj. rewrite Hn.
    replace (j <? M * k)%nat with true by (symmetry; apply Nat.ltb_lt; lia).
    reflexivity.
Qed.

(** ** Sharing and revealing *)

Lemma shadownumber_shadow_of w h seed i px :
  Z.of_nat i + 1 < 65536 ->
  shadownumber (shadow_of w h seed i px) = Z.of_nat i + 1.
Proof.
  intros H. unfold shadownumber, shadow_of, newshadow, newbitmaphelper.
  cbn [set_imgpixels bmpheader BMPheader.unused2].
  apply u16_small. lia.
Qed.

(** Every shadow that [formshadows] made is an honest shadow of the pixels
    it left. *)
Lemma shared_shadow_for px w h seed k n M d img shadows i :
  shared px w h seed k n M M d (img, shadows) ->
  (1 <= k)%nat -> revealrange k n -> (i < n)%nat ->
  exists pxi,
    nth i shadows d = shadow_of w h seed i pxi
    /\ shadow_for img k M (shadow_of w h seed i pxi).
Proof.
  intros (_ & _ & _ & _ & _ & Hsh) Hk (Hr1 & Hr2 & Hr3) Hi.
  destruct (Hsh i Hi) as (pxi & Hnth & Hlen & Hpix).
  exists pxi. split; [assumption|].
  unfold shadow_for. rewrite shadownumber_shadow_of by lia.
  assert (Hle : Z.of_nat i + 1 <= Z.of_nat n) by lia.
  split; [lia|]. split; [|split; [|split]].
  - assert ((Z.of_nat i + 1) ^ Z.of_nat k <= Z.of_nat n ^ Z.of_nat k)
      by (apply Z.pow_le_mono_l; lia).
    lia.
  - assert ((Z.of_nat i + 1) ^ Z.of_nat (k - 1)
            <= Z.of_nat n ^ Z.of_nat (k - 1))
      by (apply Z.pow_le_mono_l; lia).
    lia.
  - unfold shadow_of. cbn [imgpixels set_imgpixels]. lia.
  - intros p Hp. unfold shadow_of. cbn [imgpixels set_imgpixels].
    destruct (Hpix p Hp) as [Hv Hrange]. rewrite Hv.
    split; [reflexivity | lia].
Qed.

Lemma NoDup_nth_neq (sel : list nat) a b :
  NoDup sel -> (a < length sel)%nat -> (b < length sel)%nat -> a <> b ->
  nth a sel 0%nat <> nth b sel 0%nat.
Proof.
  intros Hnd Ha Hb Hab Heq. apply Hab.
  apply (proj1 (NoDup_nth sel 0%nat) Hnd); assumption.
Qed.

(** Any [k] of the shadows, in any order, are what [revealsecret] needs. *)
Lemma chosen_shadows px w h seed k n M d img shadows sel :
  shared px w h seed k n M M d (img, shadows) ->
  (1 <= k)%nat -> revealrange k n ->
  length sel = k -> NoDup sel -> Forall (fun i => (i < n)%nat) sel ->
  (forall j, (j < k)%nat ->
     exists sp, nth_error (choose d shadows sel) j = Some sp
                /\ shadow_for img k M sp)
  /\ distinct_shadows (choose d shadows sel) k
  /\ exists first,
       nth_error (choose d shadows sel) 0 = Some first
       /\ DIBheader.pixelarraysize (dibheader first)
          = DIBheader.pixelarraysize
              (dibheader (newshadow w h seed 0))
       /\ BMPheader.unused1 (bmpheader first) = seed.
Proof.
  intros Hsh Hk Hrange Hlen Hnd Hlt.
  assert (Hin : forall j, (j < k)%nat -> (nth j sel 0 < n)%nat).
  { intros j Hj. rewrite Forall_forall in Hlt. apply Hlt.
    apply nth_In. lia. }
  assert (Hch : forall j, (j < k)%nat ->
            nth_error (choose d shadows sel) j
            = Some (nth (nth j sel 0%nat) shadows d)).
  { intros j Hj. unfold choose.
    rewrite nth_error_map.
    rewrite (nth_error_nth' sel 0%nat) by lia. reflexivity. }
  split; [|split].
  - intros j Hj. rewrite Hch by assumption.
    destruct (shared_shadow_for px w h seed k n M d img shadows
                (nth j sel 0%nat) Hsh Hk Hrange (Hin j Hj))
      as (pxi & -> & Hfor).
    eexists. split; [reflexivity | assumption].
  - intros a b sa sb Ha Hb Hab Hsa Hsb.
    rewrite Hch in Hsa, Hsb by assumption.
    injection Hsa as <-. injection Hsb as <-.
    destruct (shared_shadow_for px w h seed k n M d img shadows
                (nth a sel 0%nat) Hsh Hk Hrange (Hin a Ha))
      as (pa & -> & _).
    destruct (shared_shadow_for px w h seed k n M d img shadows
                (nth b sel 0%nat) Hsh Hk Hrange (Hin b Hb))
      as (pb & -> & _).
    pose proof (Hin a Ha) as Hna. pose proof (Hin b Hb) as Hnb.
    destruct Hrange as (_ & _ & Hn).
    rewrite !shadownumber_shadow_of by lia.
    pose proof (NoDup_nth_neq sel a b Hnd ltac:(lia) ltac:(lia) Hab) as Hne.
    unfold eqp, PRIME.
    set (u := Z.of_nat (nth a sel 0%nat)) in *.
    set (v := Z.of_nat (nth b sel 0%nat)) in *.
    assert (Huv : u <> v) by (unfold u, v; lia).
    change (0 mod 257) with 0.
    intros Hz. apply Z.mod_divide in Hz; [|lia].
    destruct Hz as [q Hq]. unfold u, v in *. nia.
  - rewrite Hch by lia.
    destruct (shared_shadow_for px w h seed k n M d img shadows
                (nth 0 sel 0%nat) Hsh Hk Hrange (Hin 0%nat ltac:(lia)))
      as (p0 & -> & _).
    eexists. split; [reflexivity|]. split; reflexivity.
Qed.

Lemma lxor_cancel p t q : Z.lxor p (Z.lxor (Z.lxor p t) q) = Z.lxor q t.
Proof.
  rewrite <- Z.lxor_assoc, <- (Z.lxor_assoc p p t).
  rewrite Z.lxor_nilpotent, Z.lxor_0_l. apply Z.lxor_comm.
Qed.

Lemma choose_default d d' shadows sel :
  Forall (fun i => (i < length shadows)%nat) sel ->
  choose d shadows sel = choose d' shadows sel.
Proof.
  intros H. unfold choose. apply map_ext_in. intros i Hi.
  rewrite Forall_forall in H. apply nth_indep. apply H. assumption.
Qed.

Lemma share_reveal fuel bp k n seed M w h width height sel d :
  wf_bitmap bp -> (1 <= k)%nat ->
  length (imgpixels bp) = (M * k)%nat ->
  Z.of_nat M < 2 ^ 32 ->
  findclosestpair (Z.of_nat M) = Some (w, h) ->
  255 * Z.of_nat k < Z.of_nat fuel ->
  exactrange k n -> revealrange k n ->
  length sel = k -> NoDup sel -> Forall (fun i => (i < n)%nat) sel ->
  calculatepixelarraysize width height = Z.of_nat (M * k) ->
  exists masked left shadows out,
    xorbmpwithrandomtable bp seed = Ok masked
    /\ formshadows fuel masked k n seed = Ok (left, shadows)
    /\ length shadows = n
    /\ revealsecret (choose d shadows sel) width height k
       = Ok (set_imgpixels (newbitmap width height seed) out)
    /\ length out = length (imgpixels bp)
    /\ (forall j, (j < length out)%nat ->
          nth j out 0
          = Z.lxor (nth j (imgpixels bp) 0)
              (Z.lxor (nth j (imgpixels masked) 0)
                      (nth j (imgpixels left) 0)))
    /\ (imgpixels left = imgpixels masked -> out = imgpixels bp).
Proof.
  intros Hwf Hk HL HM Hfind Hfuel Hex Hrr Hlen Hnd Hlt Hcps.
  destruct (xorbmp_run bp seed Hwf) as (mpx & Hmask & Hml & Hmb & Hmn).
  set (masked := set_imgpixels bp mpx) in *.
  assert (Hwfm : wf_bitmap masked).
  { destruct Hwf as [_ Hsz]. split; [assumption|].
    unfold masked. rewrite bmpimagesize_set_imgpixels.
    cbn [imgpixels set_imgpixels]. lia. }
  destruct (formshadows_run fuel masked k n seed M w h Hwfm Hk
              ltac:(unfold masked; cbn [imgpixels set_imgpixels]; lia)
              HM Hfind Hfuel Hex) as (img & shadows & Hform & Hsh).
  pose proof Hsh as (Hbi & Hli & _ & _ & Hns & _).
  unfold masked in Hli. cbn [imgpixels set_imgpixels] in Hli.
  destruct (chosen_shadows _ w h seed k n M masked img shadows sel Hsh Hk
              Hrr Hlen Hnd Hlt) as (Hfor & Hdist & first & Hf1 & Hf2 & Hf3).
  assert (Hpas : DIBheader.pixelarraysize (dibheader first) = Z.of_nat M).
  { rewrite Hf2.
    destruct (findclosestpair_Some (Z.of_nat M) w h ltac:(lia) Hfind)
      as (_ & Hwh & Hh & _).
    apply (newshadow_pixels w h seed 0 (Z.of_nat M)); (assumption || lia). }
  assert (Hsel : Forall (fun i => (i < length shadows)%nat) sel)
    by (rewrite Hns; assumption).
  pose proof (revealsecret_run img k M (choose masked shadows sel) width
                height seed first Hk Hbi ltac:(lia) Hfor Hdist Hf1 Hpas
                Hf3 Hcps) as Hrev.
  set (B := set_imgpixels (newbitmap width height seed) img) in *.
  assert (HszB : bmpimagesize B = bmpimagesize bp).
  { unfold B. rewrite bmpimagesize_set_imgpixels.
    unfold newbitmap.
    rewrite bmpimagesize_newbitmaphelper by apply u32_range.
    destruct Hwf as [_ Hsz]. rewrite Hcps, <- Hsz. lia. }
  assert (HwfB : wf_bitmap B).
  { split; [assumption|]. rewrite HszB.
    destruct Hwf as [_ Hsz]. unfold B. cbn [imgpixels set_imgpixels]. lia. }
  destruct (xorbmp_run B seed HwfB) as (out & Hout & Hol & _ & Hon).
  unfold B in Hout at 2. rewrite set_imgpixels_twice in Hout.
  unfold B in Hol, Hon. cbn [imgpixels set_imgpixels] in Hol, Hon.
  exists masked, (set_imgpixels masked img), shadows, out.
  split; [assumption|]. split; [assumption|]. split; [assumption|].
  split;
    [rewrite (choose_default d masked shadows sel Hsel), Hrev; assumption|].
  split; [lia|].
  assert (Hval : forall j, (j < length out)%nat ->
            nth j out 0
            = Z.lxor (nth j (imgpixels bp) 0)
                (Z.lxor (nth j mpx 0) (nth j img 0))).
  { intros j Hj. rewrite Hon by assumption. fold B. rewrite HszB.
    rewrite Hmn by lia.
    set (t := nth j (randomtable (bmpimagesize bp) seed) 0).
    set (p := nth j (imgpixels bp) 0). set (q := nth j img 0).
    symmetry. apply lxor_cancel. }
  split; [exact Hval|].
  cbn [imgpixels set_imgpixels]. intros Hsame. subst img.
  apply (nth_ext _ _ 0 0); [lia|].
  intros j Hj. rewrite Hval by assumption.
  rewrite Z.lxor_nilpotent, Z.lxor_0_r. reflexivity.
Qed.

(** X14. Gaussian elimination recovers the coefficients.  For [k >= 1]
    rows, the row [r] holding the powers [1, x_r, ..., x_r^(k-1)] of its
    shadow number and its shadow pixel [p_r], with shadow numbers that are
    distinct modulo 257 and whose powers fit the [int] arithmetic, and for
    bytes [c_0 .. c_(k-1)] with [c_0 + c_1 x_r + ... = p_r] modulo 257 in
    every row, [findcoefficients] returns a matrix whose last column is
    [c_0 .. c_(k-1)]: no pivot is zero, no index leaves the table of
    inverses, nothing overflows. *)
Theorem findcoefficients_solves (k : nat) (xs ps c : nat -> Z) (m : matrix) :
  (1 <= k)%nat ->
  (forall r, (r < k)%nat ->
     0 <= xs r /\ xs r ^ Z.of_nat k < 2 ^ 31
     /\ 256 * xs r ^ Z.of_nat (k - 1) < 2 ^ 31) ->
  (forall r, (r < k)%nat -> 0 <= ps r < 256) ->
  (forall t, (t < k)%nat -> 0 <= c t < 256) ->
  (forall r, (r < k)%nat ->
     eqp (dotf c (fun t => xs r ^ Z.of_nat t) k) (ps r)) ->
  distinct xs k ->
  shape k m ->
  (forall r, (r < k)%nat -> rowraw k xs ps m r) ->
  exists m',
    findcoefficients m k = Ok m'
    /\ shape k m'
    /\ forall r, (r < k)%nat -> entry m' r k = c r.
Proof.
  intros Hk Hx Hps Hc Hsol Hd Hs Hraw.
  apply (findcoefficients_run k xs ps c Hk Hx Hps Hc Hsol Hd m Hs Hraw).
Qed.

Lemma findcoefficients_solves_witness :
  exists m',
    findcoefficients [[1; 1; 30]; [1; 2; 50]] 2 = Ok m'
    /\ shape 2 m'
    /\ forall r, (r < 2)%nat -> entry m' r 2 = cf2 r.
Proof.
  apply (findcoefficients_solves 2 xs2 ps2 cf2).
  - lia.
  - intros [|[|r]] Hr; try lia; cbn; lia.
  - intros [|[|r]] Hr; try lia; cbn; lia.
  - intros [|[|r]] Hr; try lia; cbn; lia.
  - intros [|[|r]] Hr; try lia; reflexivity.
  - intros [|[|a]] [|[|b]] Ha Hb Hab; try lia; unfold eqp; cbn;
      discriminate.
  - split; [reflexivity|]. intros [|[|r]] Hr; try lia; reflexivity.
  - intros [|[|r]] Hr; try lia;
      (split; [intros [|[|t]] Ht; try lia; reflexivity | reflexivity]).
Defined.

(** X15. [revealsecret] on [k] honest shadows of the pixels [img] (each
    with [M] pixels that are the values of the section polynomials at its
    shadow number modulo 257, the numbers distinct modulo 257 and within
    the range of the [int] arithmetic), for a width and a height whose pixel
    array has the [M k] bytes of [img], is the unmasking of [img]: it
    returns what [xorbmpwithrandomtable] returns for the new bitmap with the
    pixels [img] and the seed of the first shadow. *)
Theorem revealsecret_honest (img : list Z) (k M : nat) (shadows : list Bitmap)
        (width height seed : Z) (first : Bitmap) :
  (1 <= k)%nat -> bytes img -> length img = (M * k)%nat ->
  (forall j, (j < k)%nat ->
     exists sp, nth_error shadows j = Some sp /\ shadow_for img k M sp) ->
  distinct_shadows shadows k ->
  nth_error shadows 0 = Some first ->
  DIBheader.pixelarraysize (dibheader first) = Z.of_nat M ->
  BMPheader.unused1 (bmpheader first) = seed ->
  calculatepixelarraysize width height = Z.of_nat (M * k) ->
  revealsecret shadows width height k
  = xorbmpwithrandomtable
      (set_imgpixels (newbitmap width height seed) img) seed.
Proof. apply revealsecret_run. Qed.

Lemma revealsecret_honest_witness :
  revealsecret twoshadows 4 1 2
  = xorbmpwithrandomtable
      (set_imgpixels (newbitmap 4 1 691) [10; 20; 30; 40]) 691.
Proof.
  apply (revealsecret_honest [10; 20; 30; 40] 2 2 twoshadows 4 1 691
           (set_imgpixels (newshadow 2 1 691 1) [30; 70])).
  - lia.
  - apply bytes_check. reflexivity.
  - reflexivity.
  - intros [|[|j]] Hj; try lia;
      (eexists; split; [reflexivity|]);
      (unfold shadow_for;
       split; [vm_compute; discriminate|];
       split; [vm_compute; reflexivity|];
       split; [vm_compute; reflexivity|];
       split; [cbn; lia|];
       intros [|[|q]] Hq; try lia; split; vm_compute; congruence).
  - intros [|[|a]] [|[|b]] sa sb Ha Hb Hab; try lia;
      intros [= <-] [= <-]; unfold eqp; vm_compute; discriminate.
  - reflexivity.
  - reflexivity.
  - reflexivity.
  - reflexivity.
Defined.

(** X16. Sharing and revealing.  For a well-formed secret of [M k] pixels
    whose [M] has a closest pair, inside [exactrange] and [revealrange],
    and for any [k] distinct positions among the [n] shadows, in any order:
    masking and [formshadows] succeed, and [revealsecret] on the chosen
    shadows returns the secret in which every pixel is changed by exactly
    what coefficient repair changed in the masked pixels; when no group
    was repaired, it returns the pixels of the secret, bit for bit. *)
Theorem share_reveal_roundtrip (fuel : nat) (bp : Bitmap) (k n : nat)
        (seed : Z) (M : nat) (w h width height : Z) (sel : list nat)
        (d : Bitmap) :
  wf_bitmap bp -> (1 <= k)%nat ->
  length (imgpixels bp) = (M * k)%nat ->
  Z.of_nat M < 2 ^ 32 ->
  findclosestpair (Z.of_nat M) = Some (w, h) ->
  255 * Z.of_nat k < Z.of_nat fuel ->
  exactrange k n -> revealrange k n ->
  length sel = k -> NoDup sel -> Forall (fun i => (i < n)%nat) sel ->
  calculatepixelarraysize width height = Z.of_nat (M * k) ->
  exists masked left shadows out,
    xorbmpwithrandomtable bp seed = Ok masked
    /\ formshadows fuel masked k n seed = Ok (left, shadows)
    /\ length shadows = n
    /\ revealsecret (choose d shadows sel) width height k
       = Ok (set_imgpixels (newbitmap width height seed) out)
    /\ length out = length (imgpixels bp)
    /\ (forall j, (j < length out)%nat ->
          nth j out 0
          = Z.lxor (nth j (imgpixels bp) 0)
              (Z.lxor (nth j (imgpixels masked) 0)
                      (nth j (imgpixels left) 0)))
    /\ (imgpixels left = imgpixels masked -> out = imgpixels bp).
Proof. apply share_reveal. Qed.

Lemma share_reveal_roundtrip_witness :
  exists masked left shadows out,
    xorbmpwithrandomtable secret24 691 = Ok masked
    /\ formshadows 600 masked 2 3 691 = Ok (left, shadows)
    /\ length shadows = 3%nat
    /\ revealsecret (choose secret24 shadows [2; 0]%nat) 8 3 2
       = Ok (set_imgpixels (newbitmap 8 3 691) out)
    /\ length out = length (imgpixels secret24)
    /\ (forall j, (j < length out)%nat ->
          nth j out 0
          = Z.lxor (nth j (imgpixels secret24) 0)
              (Z.lxor (nth j (imgpixels masked) 0)
                      (nth j (imgpixels left) 0)))
    /\ (imgpixels left = imgpixels masked -> out = imgpixels secret24).
Proof.
  apply (share_reveal_roundtrip 600 secret24 2 3 691 12 3 4 8 3
           [2; 0]%nat secret24).
  - split; [apply bytes_check|]; reflexivity.
  - lia.
  - reflexivity.
  - cbn. lia.
  - reflexivity.
  - lia.
  - vm_compute. reflexivity.
  - unfold revealrange. cbn. lia.
  - reflexivity.
  - repeat constructor; cbn; intuition lia.
  - repeat constructor; lia.
  - reflexivity.
Defined.

(** * The BMP codec *)

Lemma le_bytes_length n v : length (le_bytes n v) = n.
Proof.
  revert v. induction n as [|n IH]; intros v; cbn [le_bytes length];
    [reflexivity | now rewrite IH].
Qed.

Lemma le_bytes_bytes n v : bytes (le_bytes n v).
Proof.
  revert v. induction n as [|n IH]; intros v; cbn [le_bytes].
  - constructor.
  - constructor; [|apply IH].
    unfold byte. apply Z.mod_pos_bound. lia.
Qed.

Lemma le_value_le_bytes n v :
  le_value (le_bytes n v) = v mod 256 ^ Z.of_nat n.
Proof.
  revert v. induction n as [|n IH]; intros v.
  - cbn. now rewrite Z.mod_1_r.
  - cbn [le_bytes le_value]. rewrite IH, Nat2Z.inj_succ, Z.pow_succ_r by lia.
    rewrite Z.rem_mul_r by lia. reflexivity.
Qed.

Lemma le_bytes_le_value l :
  bytes l -> le_bytes (length l) (le_value l) = l.
Proof.
  induction 1 as [|b l Hb Hl IH]; [reflexivity|].
  cbn [length le_bytes le_value]. unfold byte in Hb.
  replace ((b + 256 * le_value l) mod 256) with b.
  - replace ((b + 256 * le_value l) / 256) with (le_value l).
    + now rewrite IH.
    + symmetry. rewrite Z.mul_comm, Z.div_add by lia.
      rewrite Z.div_small by lia. reflexivity.
  - symmetry. rewrite Z.mul_comm, Z.mod_add by lia.
    apply Z.mod_small. lia.
Qed.

Lemma le_value_range l :
  bytes l -> 0 <= le_value l < 256 ^ Z.of_nat (length l).
Proof.
  induction 1 as [|b l Hb Hl IH]; [cbn; lia|].
  cbn [length le_value]. rewrite Nat2Z.inj_succ, Z.pow_succ_r by lia.
  unfold byte in Hb. lia.
Qed.

Lemma bytes_rev l : bytes l -> bytes (rev l).
Proof. unfold bytes. apply Forall_rev. Qed.


Lemma repr_host (be : bool) n v :
  repr be n (if be then swap n v else v) = le_bytes n v.
Proof.
  unfold repr, swap. destruct be; [|reflexivity].
  pose proof (le_bytes_le_value (rev (le_bytes n v))
                (bytes_rev _ (le_bytes_bytes n v))) as H.
  rewrite length_rev, le_bytes_length in H. rewrite H.
  apply rev_involutive.
Qed.

Lemma value_host (be : bool) n l :
  bytes l -> length l = n ->
  (if be then swap n (value be l) else value be l) = le_value l.
Proof.
  intros Hb Hl. unfold value, swap. destruct be; [|reflexivity].
  subst n. rewrite <- (length_rev l).
  rewrite le_bytes_le_value by now apply bytes_rev.
  now rewrite rev_involutive.
Qed.

Lemma u32_i32 v : u32 (i32 v) = u32 v.
Proof.
  unfold u32, i32, unsigned, signed.
  rewrite Zminus_mod_idemp_l.
  replace (v + 2 ^ (32 - 1) - 2 ^ (32 - 1)) with v by lia. reflexivity.
Qed.

Lemma i32_u32 v : i32 (u32 v) = i32 v.
Proof.
  unfold u32, i32, unsigned, signed.
  rewrite Zplus_mod_idemp_l. reflexivity.
Qed.

Lemma swap_range n v : 0 <= swap n v < 256 ^ Z.of_nat n.
Proof.
  unfold swap.
  pose proof (le_value_range (rev (le_bytes n v))
                (bytes_rev _ (le_bytes_bytes n v))) as H.
  now rewrite length_rev, le_bytes_length in H.
Qed.

Lemma repr_host_i32 (be : bool) h :
  repr be 4 (u32 (if be then int32swap h else h)) = le_bytes 4 (u32 h).
Proof.
  destruct be; [|reflexivity].
  unfold int32swap. rewrite u32_i32.
  replace (u32 (swap 4 (u32 h))) with (swap 4 (u32 h)).
  - apply (repr_host true 4 (u32 h)).
  - symmetry. apply Z.mod_small. apply (swap_range 4).
Qed.

Lemma value_host_i32 (be : bool) l :
  bytes l -> length l = 4%nat ->
  (if be then int32swap (i32 (value be l)) else i32 (value be l))
  = i32 (le_value l).
Proof.
  intros Hb Hl. destruct be; [|reflexivity].
  unfold int32swap. rewrite u32_i32.
  replace (u32 (value true l)) with (value true l).
  - f_equal. apply (value_host true 4 l Hb Hl).
  - symmetry. apply Z.mod_small. unfold value.
    pose proof (le_value_range (rev l) (bytes_rev _ Hb)) as H.
    rewrite length_rev, Hl in H. exact H.
Qed.

Lemma value_repr_host (be : bool) n v :
  0 <= v < 256 ^ Z.of_nat n ->
  (if be then swap n (value be (le_bytes n v)) else value be (le_bytes n v))
  = v.
Proof.
  intros Hv.
  rewrite (value_host be n) by (apply le_bytes_bytes || apply le_bytes_length).
  rewrite le_value_le_bytes. now apply Z.mod_small.
Qed.

Lemma value_repr_host_i32 (be : bool) h :
  - 2 ^ 31 <= h < 2 ^ 31 ->
  (if be then int32swap (i32 (value be (le_bytes 4 (u32 h))))
   else i32 (value be (le_bytes 4 (u32 h)))) = h.
Proof.
  intros Hh.
  rewrite (value_host_i32 be) by (apply le_bytes_bytes || apply le_bytes_length).
  rewrite le_value_le_bytes.
  change (256 ^ Z.of_nat 4) with (2 ^ 32).
  change (u32 h mod 2 ^ 32) with (u32 (u32 h)).
  rewrite i32_u32, i32_u32. now apply i32_small.
Qed.

(** ** Reading a stream *)

Lemma xfread_app n c p a rest :
  length a = n -> skipn p c = a ++ rest ->
  xfread n (mkFILE c p) = Some (a, mkFILE c (p + n))
  /\ skipn (p + n) c = rest.
Proof.
  intros Hn Hs. unfold xfread. cbn [content pos]. rewrite Hs.
  subst n. rewrite firstn_app, firstn_all, Nat.sub_diag, firstn_O, app_nil_r.
  rewrite Nat.eqb_refl. split; [reflexivity|].
  rewrite Nat.add_comm, <- skipn_skipn, Hs.
  rewrite skipn_app, skipn_all, Nat.sub_diag. reflexivity.
Qed.

Lemma xfread_inv n c p l fp :
  xfread n (mkFILE c p) = Some (l, fp) ->
  fp = mkFILE c (p + n) /\ length l = n
  /\ skipn p c = l ++ skipn (p + n) c.
Proof.
  unfold xfread. cbn [content pos].
  destruct (length (firstn n (skipn p c)) =? n)%nat eqn:E; [|discriminate].
  intros [= <- <-]. apply Nat.eqb_eq in E.
  split; [reflexivity|]. split; [assumption|].
  rewrite Nat.add_comm, <- skipn_skipn. symmetry. apply firstn_skipn.
Qed.

(** ** The headers *)

(** On either host the headers are written with the least significant byte
    of every field first. *)
Lemma writebmpheader_bytes be bp fp :
  writebmpheader be bp fp = fp ++ bmpheader_bytes (bmpheader bp).
Proof.
  unfold writebmpheader, bmpheader_bytes, xfwrite, isbigendian.
  destruct (bmpheader bp) as [id sz u1 u2 off].
  destruct be; cbn [changeheaderendianness BMPheader.id BMPheader.size
                    BMPheader.unused1 BMPheader.unused2 BMPheader.offset].
  - unfold uint32swap, uint16swap.
    rewrite (repr_host true 4 sz), (repr_host true 2 u1),
      (repr_host true 2 u2), (repr_host true 4 off).
    now rewrite <- !app_assoc.
  - unfold repr. now rewrite <- !app_assoc.
Qed.

Lemma writedibheader_bytes be bp fp :
  writedibheader be bp fp = fp ++ dibheader_bytes (dibheader bp).
Proof.
  unfold writedibheader, dibheader_bytes, xfwrite, isbigendian.
  destruct (dibheader bp) as [sz w h np dp cm pa hr vr nc ni].
  destruct be; cbn [changedibendianness DIBheader.size DIBheader.width
                    DIBheader.height DIBheader.nplanes DIBheader.depth
                    DIBheader.compression DIBheader.pixelarraysize
                    DIBheader.hres DIBheader.vres DIBheader.ncolors
                    DIBheader.nimpcolors].
  - unfold uint32swap, uint16swap.
    rewrite (repr_host true 4 sz), (repr_host true 4 w),
      (repr_host_i32 true h), (repr_host true 2 np), (repr_host true 2 dp),
      (repr_host true 4 cm), (repr_host true 4 pa), (repr_host true 4 hr),
      (repr_host true 4 vr), (repr_host true 4 nc), (repr_host true 4 ni).
    now rewrite <- !app_assoc.
  - unfold repr. now rewrite <- !app_assoc.
Qed.

Lemma bmpheader_bytes_length h : length (bmpheader_bytes h) = 14%nat.
Proof.
  unfold bmpheader_bytes. rewrite !length_app, !le_bytes_length. reflexivity.
Qed.

Lemma dibheader_bytes_length h : length (dibheader_bytes h) = 40%nat.
Proof.
  unfold dibheader_bytes. rewrite !length_app, !le_bytes_length. reflexivity.
Qed.

Ltac read_field H :=
  match type of H with
  | skipn ?p ?c = ?a ++ ?rest =>
      let E := fresh "E" in
      let H' := fresh "H" in
      destruct (xfread_app (length a) c p a rest eq_refl H) as [E H'];
      rewrite ?le_bytes_length in E, H';
      cbn [length] in E, H';
      rewrite E; cbn [obind]; clear E H
  end.

Lemma readbmpheader_app be c p h rest :
  bmpheader_ok h ->
  skipn p c = bmpheader_bytes h ++ rest ->
  readbmpheader be (mkFILE c p) = Some (h, mkFILE c (p + 14))
  /\ skipn (p + 14) c = rest.
Proof.
  intros (Hid & Hsz & Hu1 & Hu2 & Hoff) H.
  unfold bmpheader_bytes in H. rewrite <- !app_assoc in H.
  unfold readbmpheader.
  read_field H. read_field H0. read_field H. read_field H0. read_field H.
  replace (p + 2 + 4 + 2 + 2 + 4)%nat with (p + 14)%nat in * by lia.
  split; [|assumption]. f_equal. f_equal.
  destruct h as [[a b] sz u1 u2 off]. unfold isbigendian.
  cbn [BMPheader.id BMPheader.size BMPheader.unused1 BMPheader.unused2
       BMPheader.offset fst snd nth] in *.
  pose proof (value_repr_host be 4 sz Hsz) as E1.
  pose proof (value_repr_host be 2 u1 Hu1) as E2.
  pose proof (value_repr_host be 2 u2 Hu2) as E3.
  pose proof (value_repr_host be 4 off Hoff) as E4.
  destruct be; unfold changeheaderendianness, uint32swap, uint16swap;
    cbn [BMPheader.id BMPheader.size BMPheader.unused1 BMPheader.unused2
         BMPheader.offset];
    congruence.
Qed.

Lemma readdibheader_app be c p h rest :
  dibheader_ok h ->
  skipn p c = dibheader_bytes h ++ rest ->
  readdibheader be (mkFILE c p) = Some (h, mkFILE c (p + 40))
  /\ skipn (p + 40) c = rest.
Proof.
  intros (Hsz & Hw & Hh & Hnp & Hdp & Hcm & Hpa & Hhr & Hvr & Hnc & Hni) H.
  unfold dibheader_bytes in H. rewrite <- !app_assoc in H.
  unfold readdibheader.
  read_field H. read_field H0. read_field H. read_field H0. read_field H.
  read_field H0. read_field H. read_field H0. read_field H. read_field H0.
  read_field H.
  replace (p + 4 + 4 + 4 + 2 + 2 + 4 + 4 + 4 + 4 + 4 + 4)%nat
    with (p + 40)%nat in * by lia.
  split; [|assumption]. f_equal. f_equal.
  destruct h as [sz w h np dp cm pa hr vr nc ni]. unfold isbigendian.
  cbn [DIBheader.size DIBheader.width DIBheader.height DIBheader.nplanes
       DIBheader.depth DIBheader.compression DIBheader.pixelarraysize
       DIBheader.hres DIBheader.vres DIBheader.ncolors DIBheader.nimpcolors]
    in *.
  pose proof (value_repr_host be 4 sz Hsz) as E1.
  pose proof (value_repr_host be 4 w Hw) as E2.
  pose proof (value_repr_host_i32 be h Hh) as E3.
  pose proof (value_repr_host be 2 np Hnp) as E4.
  pose proof (value_repr_host be 2 dp Hdp) as E5.
  pose proof (value_repr_host be 4 cm Hcm) as E6.
  pose proof (value_repr_host be 4 pa Hpa) as E7.
  pose proof (value_repr_host be 4 hr Hhr) as E8.
  pose proof (value_repr_host be 4 vr Hvr) as E9.
  pose proof (value_repr_host be 4 nc Hnc) as E10.
  pose proof (value_repr_host be 4 ni Hni) as E11.
  destruct be; unfold changedibendianness, uint32swap, uint16swap;
    cbn [DIBheader.size DIBheader.width DIBheader.height DIBheader.nplanes
         DIBheader.depth DIBheader.compression DIBheader.pixelarraysize
         DIBheader.hres DIBheader.vres DIBheader.ncolors
         DIBheader.nimpcolors];
    congruence.
Qed.


(** ** Files *)

Lemma bmpimagesize_headers bp px :
  bmpimagesize (mkBitmap (bmpheader bp) (dibheader bp) (palette bp) px)
  = bmpimagesize bp.
Proof. reflexivity. Qed.

Lemma bmpimagesize_range bp : header_ok bp -> 0 <= bmpimagesize bp < 2 ^ 32.
Proof.
  intros [(_ & _ & _ & _ & _) (_ & _ & _ & _ & _ & _ & Hpa & _)].
  unfold bmpimagesize.
  destruct (0 <? BMPheader.size (bmpheader bp)); [|exact Hpa].
  apply Z.mod_pos_bound. lia.
Qed.

(** The bytes [bmptofile] writes, on either host. *)
Lemma bmptofile_bytes be bp :
  length (palette bp) = Z.to_nat PALETTE_SIZE ->
  (Z.to_nat (bmpimagesize bp) <= length (imgpixels bp))%nat ->
  bmptofile be bp
  = Ok (bmpheader_bytes (bmpheader bp) ++ dibheader_bytes (dibheader bp)
        ++ palette bp
        ++ firstn (Z.to_nat (bmpimagesize bp)) (imgpixels bp)).
Proof.
  intros Hpal Hpx. unfold bmptofile, readarray, xfwrite.
  rewrite writebmpheader_bytes, writedibheader_bytes.
  rewrite <- Hpal, Nat.leb_refl. cbn [bind].
  apply Nat.leb_le in Hpx. rewrite Hpx. cbn [bind].
  rewrite firstn_all. cbn [app]. now rewrite <- !app_assoc.
Qed.

Lemma bmpfromfile_bytes be bp rest :
  header_ok bp ->
  length (palette bp) = Z.to_nat PALETTE_SIZE ->
  Z.of_nat (length (imgpixels bp)) = bmpimagesize bp ->
  bmpfromfile be (bmpheader_bytes (bmpheader bp)
                  ++ dibheader_bytes (dibheader bp)
                  ++ palette bp ++ imgpixels bp ++ rest)
  = Some bp.
Proof.
  intros [Hb Hd] Hpal Hpx. unfold bmpfromfile, xfopen.
  set (c := _ ++ _).
  assert (H : skipn 0 c = bmpheader_bytes (bmpheader bp)
                          ++ dibheader_bytes (dibheader bp)
                          ++ palette bp ++ imgpixels bp ++ rest)
    by reflexivity.
  destruct (readbmpheader_app be c 0 _ _ Hb H) as [-> H1]. cbn [obind].
  destruct (readdibheader_app be c _ _ _ Hd H1) as [-> H2]. cbn [obind].
  destruct (xfread_app _ c _ _ _ Hpal H2) as [-> H3]. cbn [obind].
  rewrite bmpimagesize_headers.
  assert (Hn : length (imgpixels bp) = Z.to_nat (bmpimagesize bp)) by lia.
  destruct (xfread_app _ c _ _ _ Hn H3) as [-> _]. cbn [obind].
  now destruct bp.
Qed.

Lemma xfread_inv_bytes n c p l fp :
  bytes c ->
  xfread n (mkFILE c p) = Some (l, fp) ->
  fp = mkFILE c (p + n) /\ length l = n /\ bytes l
  /\ skipn p c = l ++ skipn (p + n) c.
Proof.
  intros Hc H. pose proof H as H'.
  apply xfread_inv in H' as (-> & Hl & Hs).
  split; [reflexivity|]. split; [assumption|]. split; [|assumption].
  unfold xfread in H. cbn [content pos] in H.
  destruct (length (firstn n (skipn p c)) =? n)%nat; [|discriminate].
  injection H as <-. apply bytes_firstn, bytes_skipn, Hc.
Qed.

Ltac read_inv Hc H :=
  match type of H with
  | context [xfread ?n (mkFILE ?c ?p)] =>
      let l := fresh "l" in
      let fp := fresh "fp" in
      let E := fresh "E" in
      let Hl := fresh "Hl" in
      let Hb := fresh "Hb" in
      let Hs := fresh "Hs" in
      destruct (xfread n (mkFILE c p)) as [[l fp]|] eqn:E;
      [|discriminate H];
      cbn [obind] in H;
      apply (xfread_inv_bytes n c p l fp Hc) in E;
      destruct E as (-> & Hl & Hb & Hs)
  end.

Lemma field_host (be : bool) n l :
  bytes l -> length l = n ->
  let v := if be then swap n (value be l) else value be l in
  0 <= v < 256 ^ Z.of_nat n /\ le_bytes n v = l.
Proof.
  intros Hb Hl v. subst v. rewrite (value_host be n l Hb Hl).
  subst n. split; [now apply le_value_range | now apply le_bytes_le_value].
Qed.

Lemma field_host_i32 (be : bool) l :
  bytes l -> length l = 4%nat ->
  let v := if be then int32swap (i32 (value be l)) else i32 (value be l) in
  - 2 ^ 31 <= v < 2 ^ 31 /\ le_bytes 4 (u32 v) = l.
Proof.
  intros Hb Hl v. subst v. rewrite (value_host_i32 be l Hb Hl).
  split.
  - unfold i32, signed.
    pose proof (Z.mod_pos_bound (le_value l + 2 ^ (32 - 1)) (2 ^ 32)
                  ltac:(lia)). lia.
  - rewrite u32_i32.
    pose proof (le_value_range l Hb) as Hr. rewrite Hl in Hr.
    rewrite u32_small by exact Hr.
    rewrite <- Hl at 1. now apply le_bytes_le_value.
Qed.

Lemma two_bytes l :
  bytes l -> length l = 2%nat ->
  l = [nth 0 l 0; nth 1 l 0]
  /\ 0 <= nth 0 l 0 < 256 /\ 0 <= nth 1 l 0 < 256.
Proof.
  intros Hb Hl. destruct l as [|a [|b [|? ?]]]; try discriminate.
  inversion Hb as [|? ? Ha Hb']. inversion Hb' as [|? ? Hb'' _].
  cbn [nth]. auto.
Qed.

Lemma readbmpheader_inv be c p h fp :
  bytes c ->
  readbmpheader be (mkFILE c p) = Some (h, fp) ->
  fp = mkFILE c (p + 14) /\ bmpheader_ok h
  /\ skipn p c = bmpheader_bytes h ++ skipn (p + 14) c.
Proof.
  intros Hc H. unfold readbmpheader in H.
  read_inv Hc H. read_inv Hc H. read_inv Hc H. read_inv Hc H. read_inv Hc H.
  injection H as <- <-.
  replace (p + 2 + 4 + 2 + 2 + 4)%nat with (p + 14)%nat in * by lia.
  destruct (two_bytes l Hb Hl) as (El & Ha & Hb5).
  destruct (field_host be 4 l0 Hb0 Hl0) as [R1 B1].
  destruct (field_host be 2 l1 Hb1 Hl1) as [R2 B2].
  destruct (field_host be 2 l2 Hb2 Hl2) as [R3 B3].
  destruct (field_host be 4 l3 Hb3 Hl3) as [R4 B4].
  assert (Hh : bmpheader_ok
                 (if isbigendian be
                  then changeheaderendianness
                         {| BMPheader.id := (nth 0 l 0, nth 1 l 0);
                            BMPheader.size := value be l0;
                            BMPheader.unused1 := value be l1;
                            BMPheader.unused2 := value be l2;
                            BMPheader.offset := value be l3 |}
                  else {| BMPheader.id := (nth 0 l 0, nth 1 l 0);
                          BMPheader.size := value be l0;
                          BMPheader.unused1 := value be l1;
                          BMPheader.unused2 := value be l2;
                          BMPheader.offset := value be l3 |})
               /\ bmpheader_bytes
                    (if isbigendian be
                     then changeheaderendianness
                            {| BMPheader.id := (nth 0 l 0, nth 1 l 0);
                               BMPheader.size := value be l0;
                               BMPheader.unused1 := value be l1;
                               BMPheader.unused2 := value be l2;
                               BMPheader.offset := value be l3 |}
                     else {| BMPheader.id := (nth 0 l 0, nth 1 l 0);
                             BMPheader.size := value be l0;
                             BMPheader.unused1 := value be l1;
                             BMPheader.unused2 := value be l2;
                             BMPheader.offset := value be l3 |})
                  = l ++ l0 ++ l1 ++ l2 ++ l3).
  { unfold isbigendian, bmpheader_ok, bmpheader_bytes.
    destruct be; unfold changeheaderendianness, uint32swap, uint16swap;
      cbn [BMPheader.id BMPheader.size BMPheader.unused1 BMPheader.unused2
           BMPheader.offset fst snd] in *;
      (split; [repeat split; lia|]);
      rewrite B1, B2, B3, B4; f_equal; symmetry; exact El. }
  destruct Hh as [Hok Hby].
  split; [reflexivity|]. split; [exact Hok|].
  rewrite Hby, <- !app_assoc.
  rewrite Hs, Hs0, Hs1, Hs2, Hs3. reflexivity.
Qed.

Lemma readdibheader_inv be c p h fp :
  bytes c ->
  readdibheader be (mkFILE c p) = Some (h, fp) ->
  fp = mkFILE c (p + 40) /\ dibheader_ok h
  /\ skipn p c = dibheader_bytes h ++ skipn (p + 40) c.
Proof.
  intros Hc H. unfold readdibheader in H.
  read_inv Hc H. read_inv Hc H. read_inv Hc H. read_inv Hc H. read_inv Hc H.
  read_inv Hc H. read_inv Hc H. read_inv Hc H. read_inv Hc H. read_inv Hc H.
  read_inv Hc H.
  injection H as <- <-.
  replace (p + 4 + 4 + 4 + 2 + 2 + 4 + 4 + 4 + 4 + 4 + 4)%nat
    with (p + 40)%nat in * by lia.
  destruct (field_host be 4 l Hb Hl) as [R0 B0].
  destruct (field_host be 4 l0 Hb0 Hl0) as [R1 B1].
  destruct (field_host_i32 be l1 Hb1 Hl1) as [R2 B2].
  destruct (field_host be 2 l2 Hb2 Hl2) as [R3 B3].
  destruct (field_host be 2 l3 Hb3 Hl3) as [R4 B4].
  destruct (field_host be 4 l4 Hb4 Hl4) as [R5 B5].
  destruct (field_host be 4 l5 Hb5 Hl5) as [R6 B6].
  destruct (field_host be 4 l6 Hb6 Hl6) as [R7 B7].
  destruct (field_host be 4 l7 Hb7 Hl7) as [R8 B8].
  destruct (field_host be 4 l8 Hb8 Hl8) as [R9 B9].
  destruct (field_host be 4 l9 Hb9 Hl9) as [R10 B10].
  match goal with
  | |- _ /\ dibheader_ok ?h /\ _ => set (hd := h)
  end.
  assert (Hh : dibheader_ok hd
               /\ dibheader_bytes hd
                  = l ++ l0 ++ l1 ++ l2 ++ l3 ++ l4 ++ l5 ++ l6 ++ l7 ++ l8
                    ++ l9).
  { subst hd. unfold isbigendian, dibheader_ok, dibheader_bytes.
    destruct be; unfold changedibendianness, uint32swap, uint16swap;
      cbn [DIBheader.size DIBheader.width DIBheader.height DIBheader.nplanes
           DIBheader.depth DIBheader.compression DIBheader.pixelarraysize
           DIBheader.hres DIBheader.vres DIBheader.ncolors
           DIBheader.nimpcolors] in *;
      (split; [repeat split; lia|]);
      rewrite B0, B1, B2, B3, B4, B5, B6, B7, B8, B9, B10; reflexivity. }
  destruct Hh as [Hok Hby].
  split; [reflexivity|]. split; [exact Hok|].
  rewrite Hby, <- !app_assoc.
  rewrite Hs, Hs0, Hs1, Hs2, Hs3, Hs4, Hs5, Hs6, Hs7, Hs8, Hs9. reflexivity.
Qed.

(** What [bmpfromfile] builds from a file of bytes. *)
Lemma bmpfromfile_inv be file bp :
  bytes file ->
  bmpfromfile be file = Some bp ->
  valid_bitmap bp
  /\ file = bmpheader_bytes (bmpheader bp) ++ dibheader_bytes (dibheader bp)
            ++ palette bp ++ imgpixels bp
            ++ skipn (14 + 40 + Z.to_nat PALETTE_SIZE
                      + Z.to_nat (bmpimagesize bp)) file.
Proof.
  intros Hc H. unfold bmpfromfile, xfopen in H.
  destruct (readbmpheader be (mkFILE file 0)) as [[bh fp]|] eqn:E1;
    [|discriminate]. cbn [obind] in H.
  apply (readbmpheader_inv be file 0 bh fp Hc) in E1 as (-> & Hbh & S1).
  destruct (readdibheader be (mkFILE file (0 + 14))) as [[dh fp]|] eqn:E2;
    [|discriminate]. cbn [obind] in H.
  apply (readdibheader_inv be file _ dh fp Hc) in E2 as (-> & Hdh & S2).
  read_inv Hc H. read_inv Hc H. injection H as <-.
  cbn [bmpheader dibheader palette imgpixels].
  change (bmpimagesize {| bmpheader := bh; dibheader := dh; palette := l;
                          imgpixels := l0 |})
    with (bmpimagesize {| bmpheader := bh; dibheader := dh; palette := l;
                          imgpixels := [] |}).
  set (sz := bmpimagesize _) in *.
  assert (Hsz : 0 <= sz < 2 ^ 32).
  { apply (bmpimagesize_range
             {| bmpheader := bh; dibheader := dh; palette := l;
                imgpixels := [] |}). split; assumption. }
  split.
  - split; [split; assumption|]. split; [assumption|]. split; [assumption|].
    split; [assumption|]. cbn [imgpixels].
    change (bmpimagesize {| bmpheader := bh; dibheader := dh; palette := l;
                            imgpixels := l0 |}) with sz. lia.
  - change (skipn 0 file) with file in S1. rewrite S1 at 1.
    rewrite S2, Hs, Hs0. reflexivity.
Qed.

(** X17. The file [bmptofile] writes is the same on a little-endian and on
    a big-endian host: the 14 bytes of the file header and the 40 bytes of
    the DIB header with the least significant byte of every field first,
    the 1024 bytes of the palette, and the first [bmpimagesize] pixel
    bytes. *)
Theorem bmptofile_wire (be : bool) (bp : Bitmap) :
  length (palette bp) = Z.to_nat PALETTE_SIZE ->
  (Z.to_nat (bmpimagesize bp) <= length (imgpixels bp))%nat ->
  exists file,
    bmptofile be bp = Ok file
    /\ bmptofile (negb be) bp = Ok file
    /\ file = bmpheader_bytes (bmpheader bp) ++ dibheader_bytes (dibheader bp)
              ++ palette bp
              ++ firstn (Z.to_nat (bmpimagesize bp)) (imgpixels bp)
    /\ length file
       = (Z.to_nat PIXEL_ARRAY_OFFSET + Z.to_nat (bmpimagesize bp))%nat.
Proof.
  intros Hpal Hpx. eexists.
  split; [apply (bmptofile_bytes be bp Hpal Hpx)|].
  split; [apply (bmptofile_bytes (negb be) bp Hpal Hpx)|].
  split; [reflexivity|].
  rewrite !length_app, bmpheader_bytes_length, dibheader_bytes_length, Hpal.
  rewrite length_firstn, Nat.min_l by exact Hpx.
  change (Z.to_nat PIXEL_ARRAY_OFFSET) with (14 + (40 + Z.to_nat PALETTE_SIZE))%nat.
  lia.
Qed.

Lemma bmptofile_wire_witness :
  exists file,
    bmptofile true secret24 = Ok file
    /\ bmptofile (negb true) secret24 = Ok file
    /\ file = bmpheader_bytes (bmpheader secret24)
              ++ dibheader_bytes (dibheader secret24)
              ++ palette secret24
              ++ firstn (Z.to_nat (bmpimagesize secret24))
                   (imgpixels secret24)
    /\ length file
       = (Z.to_nat PIXEL_ARRAY_OFFSET
          + Z.to_nat (bmpimagesize secret24))%nat.
Proof.
  apply (bmptofile_wire true secret24).
  - vm_compute. reflexivity.
  - apply Nat.leb_le. vm_compute. reflexivity.
Defined.

(** X18. Writing a bitmap and reading the file back, on the same host or
    on one of the other byte order, gives the bitmap: headers, palette and
    pixels; bytes that follow the pixels in the file are ignored. *)
Theorem bmp_write_read (be be' : bool) (bp : Bitmap) :
  valid_bitmap bp ->
  exists file,
    bmptofile be bp = Ok file
    /\ forall rest, bmpfromfile be' (file ++ rest) = Some bp.
Proof.
  intros (Hh & Hpb & Hpal & Hb & Hsz).
  eexists. split.
  - apply bmptofile_bytes; [assumption | lia].
  - intros rest. rewrite <- Hsz, Nat2Z.id, firstn_all, <- !app_assoc.
    apply bmpfromfile_bytes; assumption.
Qed.

Lemma bmp_write_read_witness :
  exists file,
    bmptofile false secret24 = Ok file
    /\ forall rest, bmpfromfile true (file ++ rest) = Some secret24.
Proof.
  apply (bmp_write_read false true secret24).
  split; [|split; [|split; [|split]]].
  - vm_compute. repeat split; discriminate.
  - apply bytes_check. vm_compute. reflexivity.
  - vm_compute. reflexivity.
  - apply bytes_check. vm_compute. reflexivity.
  - vm_compute. reflexivity.
Defined.

(** X19. [bmpfromfile] builds valid bitmaps only: from a file of bytes it
    either ends the process or returns a bitmap whose header fields have
    the values of their types, with a palette of 1024 bytes and exactly
    [bmpimagesize] pixel bytes; and writing that bitmap gives back the
    bytes of the file up to the last pixel. *)
Theorem bmp_read_write (be be' : bool) (file : list Z) (bp : Bitmap) :
  bytes file ->
  bmpfromfile be file = Some bp ->
  valid_bitmap bp
  /\ exists written rest,
       bmptofile be' bp = Ok written /\ file = written ++ rest.
Proof.
  intros Hc H. destruct (bmpfromfile_inv be file bp Hc H) as [Hv Hf].
  split; [exact Hv|].
  destruct Hv as (Hh & Hpb & Hpal & Hb & Hsz).
  eexists. eexists. split.
  - apply bmptofile_bytes; [assumption | lia].
  - rewrite <- Hsz, Nat2Z.id, firstn_all, <- !app_assoc.
    rewrite Hf at 1. rewrite <- Hsz, Nat2Z.id. reflexivity.
Qed.

Lemma bmp_read_write_witness :
  valid_bitmap secret24
  /\ exists written rest,
       bmptofile false secret24 = Ok written /\ file24 = written ++ rest.
Proof.
  apply (bmp_read_write true false file24 secret24).
  - apply bytes_check. vm_compute. reflexivity.
  - vm_compute. reflexivity.
Defined.

(** ** The validators *)

Lemma written_header be bp file :
  bmptofile be bp = Ok file ->
  exists rest,
    file = bmpheader_bytes (bmpheader bp) ++ dibheader_bytes (dibheader bp)
           ++ rest.
Proof.
  unfold bmptofile, readarray, xfwrite.
  rewrite writebmpheader_bytes, writedibheader_bytes.
  destruct (Z.to_nat PALETTE_SIZE <=? length (palette bp))%nat;
    [|discriminate]. cbn [bind].
  destruct (Z.to_nat (bmpimagesize bp) <=? length (imgpixels bp))%nat;
    [|discriminate]. cbn [bind].
  rewrite <- !app_assoc. intros [= <-]. eexists. reflexivity.
Qed.

Lemma get32bits_width be bp file :
  (exists rest,
     file = bmpheader_bytes (bmpheader bp) ++ dibheader_bytes (dibheader bp)
            ++ rest) ->
  bmpfilewidth be (xfopen file)
  = Some (value be (le_bytes 4 (DIBheader.width (dibheader bp))))
  /\ bmpfileheight be (xfopen file)
     = Some (value be (le_bytes 4 (u32 (DIBheader.height (dibheader bp))))).
Proof.
  intros [rest ->].
  unfold bmpfilewidth, bmpfileheight, get32bitsfromheader, xfopen, xfseek.
  cbn [content].
  set (c := _ ++ _).
  assert (Hw : exists r, skipn WIDTH_OFFSET c
                         = le_bytes 4 (DIBheader.width (dibheader bp)) ++ r)
    by (eexists; reflexivity).
  assert (Hh : exists r, skipn HEIGHT_OFFSET c
                         = le_bytes 4 (u32 (DIBheader.height (dibheader bp)))
                           ++ r)
    by (eexists; reflexivity).
  destruct Hw as [r1 Hw], Hh as [r2 Hh].
  destruct (xfread_app 4 c _ _ _ (le_bytes_length 4 _) Hw) as [-> _].
  destruct (xfread_app 4 c _ _ _ (le_bytes_length 4 _) Hh) as [-> _].
  split; reflexivity.
Qed.

(** What the validators read from a file that [bmptofile] wrote. *)
Lemma read_raw (be be' : bool) (bp : Bitmap) (file : list Z) :
  header_ok bp ->
  bmptofile be' bp = Ok file ->
  bmpfilewidth be (xfopen file)
  = Some (if be then uint32swap (DIBheader.width (dibheader bp))
          else DIBheader.width (dibheader bp))
  /\ bmpfileheight be (xfopen file)
     = Some (if be then uint32swap (u32 (DIBheader.height (dibheader bp)))
             else u32 (DIBheader.height (dibheader bp))).
Proof.
  intros [_ (_ & Hw & Hh & _)] Hf.
  destruct (get32bits_width be bp file (written_header be' bp file Hf))
    as [-> ->].
  destruct be; [split; reflexivity|].
  unfold value. rewrite !le_value_le_bytes.
  change (256 ^ Z.of_nat 4) with (2 ^ 32).
  rewrite (Z.mod_small (DIBheader.width (dibheader bp))) by exact Hw.
  change (u32 (DIBheader.height (dibheader bp)) mod 2 ^ 32)
    with (u32 (u32 (DIBheader.height (dibheader bp)))).
  rewrite (u32_small (u32 _)) by (apply Z.mod_pos_bound; lia).
  split; reflexivity.
Qed.

(** X20. [get32bitsfromheader] reads its four bytes as they are, without
    the conversion that [readdibheader] makes: for a file written by
    [bmptofile] (on any host), [bmpfilewidth] and [bmpfileheight] give the
    width and the height of the bitmap on a little-endian host, and these
    numbers with their bytes reversed on a big-endian host. *)
Theorem validators_read_raw (be be' : bool) (bp : Bitmap) (file : list Z) :
  header_ok bp ->
  bmptofile be' bp = Ok file ->
  bmpfilewidth be (xfopen file)
  = Some (if be then uint32swap (DIBheader.width (dibheader bp))
          else DIBheader.width (dibheader bp))
  /\ bmpfileheight be (xfopen file)
     = Some (if be then uint32swap (u32 (DIBheader.height (dibheader bp)))
             else u32 (DIBheader.height (dibheader bp))).
Proof. apply read_raw. Qed.

Lemma validators_read_raw_witness :
  bmpfilewidth true (xfopen wire24)
  = Some (if true then uint32swap (DIBheader.width (dibheader secret24))
          else DIBheader.width (dibheader secret24))
  /\ bmpfileheight true (xfopen wire24)
     = Some (if true
             then uint32swap (u32 (DIBheader.height (dibheader secret24)))
             else u32 (DIBheader.height (dibheader secret24))).
Proof.
  apply (validators_read_raw true false secret24 wire24).
  - vm_compute. repeat split; discriminate.
  - vm_compute. reflexivity.
Defined.

Lemma quot_exact a k :
  0 < k -> (a =? Z.quot a k * k) = true <-> (k | a).
Proof.
  intros Hk. rewrite Z.eqb_eq. split.
  - intros H. exists (Z.quot a k). exact H.
  - intros [q ->]. rewrite Z.quot_mul by lia. reflexivity.
Qed.

Lemma quot_mul_range a k :
  0 < k -> - 2 ^ 31 <= a < 2 ^ 31 -> - 2 ^ 31 <= Z.quot a k * k < 2 ^ 31.
Proof.
  intros Hk Ha. rewrite Z.mul_comm.
  destruct (Z.le_gt_cases 0 a) as [H0|H0].
  - pose proof (Z.mul_quot_le a k H0 ltac:(lia)). lia.
  - pose proof (Z.mul_quot_ge a k ltac:(lia) ltac:(lia)). lia.
Qed.

(** X21. [kdivisiblesize] divides by [k] without a check, so [k = 0] is
    undefined behaviour; for [k > 0], on a little-endian host and a file
    written by [bmptofile], it accepts exactly when [k] divides the product
    of the width and the height in the header (as an [int]), whatever the
    size of the pixel array is. *)
Theorem kdivisiblesize_decides (be' : bool) (bp : Bitmap) (file : list Z)
        (k : Z) :
  header_ok bp ->
  bmptofile be' bp = Ok file ->
  0 < k < 2 ^ 16 ->
  kdivisiblesize false (xfopen file) 0 = Undefined
  /\ exists b,
       kdivisiblesize false (xfopen file) k = Ok (Some b)
       /\ (b = true
           <-> (k | i32 (u32 (DIBheader.width (dibheader bp)
                              * u32 (DIBheader.height (dibheader bp)))))).
Proof.
  intros Hok Hf Hk.
  destruct (read_raw false be' bp file Hok Hf) as [Hw Hh].
  unfold kdivisiblesize. rewrite Hw, Hh.
  set (pixels := i32 _). split; [reflexivity|].
  destruct (k =? 0) eqn:E; [lia|].
  eexists. split; [reflexivity|].
  assert (Hp : - 2 ^ 31 <= pixels < 2 ^ 31).
  { unfold pixels, i32, signed.
    pose proof (Z.mod_pos_bound
                  (u32 (DIBheader.width (dibheader bp)
                        * u32 (DIBheader.height (dibheader bp)))
                   + 2 ^ (32 - 1)) (2 ^ 32) ltac:(lia)). lia. }
  rewrite i32_small by (apply quot_mul_range; [lia | exact Hp]).
  apply quot_exact. lia.
Qed.

Lemma kdivisiblesize_decides_witness :
  kdivisiblesize false (xfopen wire24) 0 = Undefined
  /\ exists b,
       kdivisiblesize false (xfopen wire24) 3 = Ok (Some b)
       /\ (b = true
           <-> (3 | i32 (u32 (DIBheader.width (dibheader secret24)
                              * u32 (DIBheader.height
                                       (dibheader secret24)))))).
Proof.
  apply (kdivisiblesize_decides false secret24 wire24 3).
  - vm_compute. repeat split; discriminate.
  - vm_compute. reflexivity.
  - lia.
Defined.

(** ** Loops that meet undefined behaviour *)

(** A loop whose iteration [j] is undefined, and whose earlier iterations
    keep an invariant and never run out of fuel, is undefined. *)
Lemma for_up_undefined {S} (P : nat -> S -> Prop) body (j : nat) :
  (forall s, P j s -> body j s = Undefined) ->
  forall cnt lo (s : S),
    P lo s -> (lo <= j < lo + cnt)%nat ->
    (forall i s, (lo <= i < j)%nat -> P i s ->
                 body i s <> OutOfFuel
                 /\ forall s', body i s = Ok s' -> P (Datatypes.S i) s') ->
    for_up cnt lo body s = Undefined.
Proof.
  intros Hj. induction cnt as [|c IH]; intros lo s H0 Hr Hstep; [lia|].
  cbn [for_up]. destruct (Nat.eq_dec lo j) as [->|Hne].
  - rewrite (Hj s H0). reflexivity.
  - destruct (Hstep lo s ltac:(lia) H0) as [Hf Hok].
    destruct (body lo s) as [s1| |]; cbn [bind];
      [|reflexivity|contradiction].
    apply IH; [apply Hok; reflexivity | lia |].
    intros i s2 Hi. apply Hstep. lia.
Qed.

Lemma for_undefined {S} (P : nat -> S -> Prop) body lo hi (j : nat) (s : S) :
  (forall s, P j s -> body j s = Undefined) ->
  P lo s -> (lo <= j < hi)%nat ->
  (forall i s, (lo <= i < j)%nat -> P i s ->
               body i s <> OutOfFuel
               /\ forall s', body i s = Ok s' -> P (Datatypes.S i) s') ->
  for_ lo hi body s = Undefined.
Proof.
  intros Hj H0 Hr Hstep. unfold for_.
  apply (for_up_undefined P body j Hj); [assumption | lia | assumption].
Qed.






(** ** Hiding, writing, reading and retrieving a shadow *)

Lemma bytes_by_nth l :
  (forall m, (m < length l)%nat -> byte (nth m l 0)) -> bytes l.
Proof.
  intros H. apply Forall_forall. intros x Hx.
  destruct (In_nth l x 0 Hx) as (m & Hm & <-). apply H. exact Hm.
Qed.

(** The carrier that [hideshadow] leaves is a valid bitmap again. *)
Lemma hideshadow_valid bp shadow :
  valid_bitmap bp -> wf_bitmap shadow ->
  0 <= BMPheader.unused1 (bmpheader shadow) < 2 ^ 16 ->
  0 <= BMPheader.unused2 (bmpheader shadow) < 2 ^ 16 ->
  (8 * length (imgpixels shadow) <= length (imgpixels bp))%nat ->
  exists c,
    hideshadow bp shadow = Ok c
    /\ valid_bitmap c
    /\ BMPheader.unused1 (bmpheader c) = BMPheader.unused1 (bmpheader shadow)
    /\ BMPheader.unused2 (bmpheader c) = BMPheader.unused2 (bmpheader shadow)
    /\ length (imgpixels c) = length (imgpixels bp)
    /\ forall i b, (i < length (imgpixels shadow))%nat -> (b < 8)%nat ->
         Z.testbit (nth (i * 8 + b) (imgpixels c) 0) 0
         = Z.testbit (nth i (imgpixels shadow) 0) (7 - Z.of_nat b).
Proof.
  intros ([Hbh Hdh] & Hpb & Hpl & Hb & Hsz) [Hs Hss] Hu1 Hu2 Hcap.
  destruct (hideshadow_run bp shadow Hs Hss Hcap)
    as (c & Hrun & E1 & E2 & Hlen & Hnth).
  exists c. split; [assumption|].
  assert (Hframe : dibheader c = dibheader bp /\ palette c = palette bp
                   /\ BMPheader.id (bmpheader c) = BMPheader.id (bmpheader bp)
                   /\ BMPheader.size (bmpheader c)
                      = BMPheader.size (bmpheader bp)
                   /\ BMPheader.offset (bmpheader c)
                      = BMPheader.offset (bmpheader bp)).
  { pose proof Hrun as H. unfold hideshadow in H. cbv zeta in H.
    inv_bind H. injection H as <-. cbn. auto. }
  destruct Hframe as (Fd & Fp & Fi & Fs & Fo).
  assert (Hbc : bytes (imgpixels c)).
  { apply bytes_by_nth. intros m Hm. rewrite Hnth.
    destruct (m <? length (imgpixels shadow) * 8)%nat.
    - apply hidden_spec. assumption.
    - apply bytes_nth. assumption. }
  split; [|split; [assumption|split; [assumption|split; [assumption|]]]].
  - split; [split|].
    + destruct Hbh as (Hid & Hsize & _ & _ & Hoff).
      unfold bmpheader_ok. rewrite Fi, Fs, Fo, E1, E2. auto.
    + rewrite Fd. assumption.
    + rewrite Fp. split; [assumption|]. split; [assumption|].
      split; [assumption|].
      unfold bmpimagesize in *. rewrite Fs, Fo, Fd, Hlen. assumption.
  - intros i b Hi Hb8. rewrite Hnth.
    replace (i * 8 + b <? length (imgpixels shadow) * 8)%nat with true
      by (symmetry; apply Nat.ltb_lt; lia).
    destruct (hidden_spec (imgpixels bp) (imgpixels shadow) (i * 8 + b) Hb)
      as (_ & _ & ->).
    destruct (divmod8 i b Hb8) as [-> ->]. reflexivity.
Qed.

Lemma retrieveshadow_shape bp width height k w h sh :
  findclosestpair (calculatepixelarraysize width height / Z.of_nat k)
  = Some (w, h) ->
  retrieveshadow bp width height k = Ok sh ->
  sh = set_imgpixels
         (newshadow w h (BMPheader.unused1 (bmpheader bp))
            (BMPheader.unused2 (bmpheader bp))) (imgpixels sh).
Proof.
  intros Hf H. unfold retrieveshadow in H.
  destruct (k =? 0)%nat; [discriminate|].
  rewrite Hf in H. cbv zeta in H. inv_bind H. injection H as <-.
  reflexivity.
Qed.

(** Hide, write, read, retrieve. *)
Lemma stego_run (be be' : bool) (carrier : Bitmap)
      (w h seed num : Z) (px : list Z) (width height : Z) (k : nat) :
  valid_bitmap carrier ->
  wf_bitmap (set_imgpixels (newshadow w h seed num) px) ->
  0 <= seed < 2 ^ 16 -> 0 <= num < 2 ^ 16 ->
  (8 * length px <= length (imgpixels carrier))%nat ->
  k <> 0%nat ->
  findclosestpair (calculatepixelarraysize width height / Z.of_nat k)
  = Some (w, h) ->
  exists stego file,
    hideshadow carrier (set_imgpixels (newshadow w h seed num) px) = Ok stego
    /\ bmptofile be stego = Ok file
    /\ bmpfromfile be' file = Some stego
    /\ retrieveshadow stego width height k
       = Ok (set_imgpixels (newshadow w h seed num) px).
Proof.
  intros Hc Hwf Hseed Hnum Hcap Hk Hfind.
  set (shadow := set_imgpixels (newshadow w h seed num) px) in *.
  destruct (hideshadow_valid carrier shadow Hc Hwf Hseed Hnum Hcap)
    as (c & Hrun & Hv & E1 & E2 & Hlen & Hbits).
  exists c.
  assert (Hio : exists file, bmptofile be c = Ok file
                             /\ bmpfromfile be' file = Some c).
  { destruct Hv as (Hh & Hpb & Hpal & Hb & Hsz).
    eexists. split.
    - apply bmptofile_bytes; [assumption | lia].
    - rewrite <- Hsz, Nat2Z.id, firstn_all.
      rewrite <- (app_nil_r (imgpixels c)) at 1.
      apply bmpfromfile_bytes; assumption. }
  destruct Hio as (file & Hw & Hr). exists file.
  split; [assumption|]. split; [assumption|]. split; [assumption|].
  destruct Hwf as [Hs Hss]. cbn [shadow imgpixels set_imgpixels] in Hs, Hss.
  assert (Hsize : retrievedsize width height k = Z.of_nat (length px)).
  { unfold retrievedsize. rewrite Hfind, Hss.
    unfold shadow. rewrite bmpimagesize_set_imgpixels.
    unfold newshadow. rewrite bmpimagesize_newbitmaphelper by apply u32_range.
    reflexivity. }
  assert (H32 : 8 * Z.of_nat (length px) < 2 ^ 32).
  { destruct Hc as (Hh & _ & _ & _ & Hsz).
    pose proof (bmpimagesize_range carrier Hh). lia. }
  destruct (retrieveshadow_run c px width height k Hs Hk Hsize
              ltac:(lia) H32 Hbits) as (sh & Hret & Hpx & _).
  rewrite Hret. f_equal.
  rewrite (retrieveshadow_shape c width height k w h sh Hfind Hret).
  rewrite Hpx, E1, E2. reflexivity.
Qed.

(** X23. A shadow as [formshadows] makes it, hidden in a carrier with room
    for it, written to a file, read back (on a host of any byte order) and
    retrieved with the width, the height and the [k] of the secret, is the
    shadow again: header, palette and pixels. *)
Theorem stego_roundtrip (be be' : bool) (carrier : Bitmap)
        (w h seed num : Z) (px : list Z) (width height : Z) (k : nat) :
  valid_bitmap carrier ->
  wf_bitmap (set_imgpixels (newshadow w h seed num) px) ->
  0 <= seed < 2 ^ 16 -> 0 <= num < 2 ^ 16 ->
  (8 * length px <= length (imgpixels carrier))%nat ->
  k <> 0%nat ->
  findclosestpair (calculatepixelarraysize width height / Z.of_nat k)
  = Some (w, h) ->
  exists stego file,
    hideshadow carrier (set_imgpixels (newshadow w h seed num) px) = Ok stego
    /\ bmptofile be stego = Ok file
    /\ bmpfromfile be' file = Some stego
    /\ retrieveshadow stego width height k
       = Ok (set_imgpixels (newshadow w h seed num) px).
Proof. apply stego_run. Qed.

Lemma stego_roundtrip_witness :
  exists stego file,
    hideshadow carrier0 shadow0 = Ok stego
    /\ bmptofile false stego = Ok file
    /\ bmpfromfile true file = Some stego
    /\ retrieveshadow stego 4 9 3 = Ok shadow0.
Proof.
  refine (stego_roundtrip false true carrier0 3 4 691 2 (imgpixels shadow0)
            4 9 3 _ _ _ _ _ _ _).
  - split; [|split; [|split; [|split]]].
    + vm_compute. repeat split; discriminate.
    + apply bytes_check. vm_compute. reflexivity.
    + vm_compute. reflexivity.
    + apply bytes_check. vm_compute. reflexivity.
    + vm_compute. reflexivity.
  - split; [apply bytes_check|]; vm_compute; reflexivity.
  - lia.
  - lia.
  - apply Nat.leb_le. vm_compute. reflexivity.
  - discriminate.
  - vm_compute. reflexivity.
Defined.

(** X24. Distribution followed by recovery.  Inside the exact ranges, for
    a well-formed secret whose group count has a closest pair and carriers
    with room for a shadow: masking and [formshadows] succeed; every shadow,
    hidden in its carrier, written to a file, read back and retrieved with
    the width, the height and the [k] of the secret, is the shadow again;
    and [revealsecret] on any [k] of them, in any order, returns the secret
    with every pixel changed by what coefficient repair changed in the
    masked pixels, and bit for bit if no group was repaired. *)
Theorem distribute_recover (be be' : bool) (fuel : nat) (bp : Bitmap)
        (k n : nat) (seed : Z) (M : nat) (w h width height : Z)
        (sel : list nat) (carriers : list Bitmap) (d : Bitmap) :
  wf_bitmap bp -> (1 <= k)%nat ->
  length (imgpixels bp) = (M * k)%nat ->
  Z.of_nat M < 2 ^ 32 ->
  findclosestpair (Z.of_nat M) = Some (w, h) ->
  255 * Z.of_nat k < Z.of_nat fuel ->
  exactrange k n -> revealrange k n ->
  length sel = k -> NoDup sel -> Forall (fun i => (i < n)%nat) sel ->
  calculatepixelarraysize width height = Z.of_nat (M * k) ->
  0 <= seed < 2 ^ 16 ->
  length carriers = n ->
  Forall (fun c => valid_bitmap c /\ (8 * M <= length (imgpixels c))%nat)
         carriers ->
  exists masked left shadows out,
    xorbmpwithrandomtable bp seed = Ok masked
    /\ formshadows fuel masked k n seed = Ok (left, shadows)
    /\ length shadows = n
    /\ (forall i, (i < n)%nat ->
          exists stego file,
            hideshadow (nth i carriers d) (nth i shadows d) = Ok stego
            /\ bmptofile be stego = Ok file
            /\ bmpfromfile be' file = Some stego
            /\ retrieveshadow stego width height k = Ok (nth i shadows d))
    /\ revealsecret (choose d shadows sel) width height k
       = Ok (set_imgpixels (newbitmap width height seed) out)
    /\ length out = length (imgpixels bp)
    /\ (forall j, (j < length out)%nat ->
          nth j out 0
          = Z.lxor (nth j (imgpixels bp) 0)
              (Z.lxor (nth j (imgpixels masked) 0)
                      (nth j (imgpixels left) 0)))
    /\ (imgpixels left = imgpixels masked -> out = imgpixels bp).
Proof.
  intros Hwf Hk HL HM Hfind Hfuel Hex Hrr Hlen Hnd Hlt Hcps Hseed Hcl Hcar.
  destruct (share_reveal fuel bp k n seed M w h width height sel d
              Hwf Hk HL HM Hfind Hfuel Hex Hrr Hlen Hnd Hlt Hcps)
    as (masked & left & shadows & out & Hx & Hf & Hn & Hrev & Hlo & Hout
        & Hsame).
  exists masked, left, shadows, out.
  split; [assumption|]. split; [assumption|]. split; [assumption|].
  split; [|auto].
  destruct (xorbmp_run bp seed Hwf) as (mpx & Hmask & Hml & Hmb & _).
  rewrite Hmask in Hx. injection Hx as <-.
  assert (Hwfm : wf_bitmap (set_imgpixels bp mpx)).
  { destruct Hwf as [_ Hsz]. split; [assumption|].
    rewrite bmpimagesize_set_imgpixels. cbn [imgpixels set_imgpixels]. lia. }
  destruct (formshadows_run fuel (set_imgpixels bp mpx) k n seed M w h
              Hwfm Hk ltac:(cbn [imgpixels set_imgpixels]; lia)
              HM Hfind Hfuel Hex) as (img & shadows' & Hform & Hsh).
  rewrite Hform in Hf. injection Hf as <- <-.
  destruct Hsh as (_ & _ & _ & _ & _ & Hshape).
  destruct (findclosestpair_Some (Z.of_nat M) w h ltac:(lia) Hfind)
    as (_ & Hwh & Hh & _).
  intros i Hi.
  destruct (Hshape i Hi) as (pxi & Hnth & Hli & Hpix).
  rewrite (nth_indep shadows' d (set_imgpixels bp mpx)) by lia.
  rewrite Hnth. unfold shadow_of.
  rewrite Forall_forall in Hcar.
  destruct (Hcar (nth i carriers d) ltac:(apply nth_In; lia)) as [Hv Hroom].
  apply stego_run.
  - assumption.
  - split; cbn [imgpixels set_imgpixels].
    + apply bytes_by_nth. intros m Hm.
      destruct (Hpix m ltac:(lia)) as [-> Hr]. unfold byte. lia.
    + rewrite bmpimagesize_set_imgpixels. unfold newshadow.
      rewrite bmpimagesize_newbitmaphelper by apply u32_range.
      rewrite (u32_small h) by lia. rewrite Hwh, u32_small by lia. lia.
  - assumption.
  - apply Z.mod_pos_bound. lia.
  - lia.
  - lia.
  - rewrite Hcps, Nat2Z.inj_mul, Z.div_mul by lia. assumption.
Qed.

Lemma carrier0_valid : valid_bitmap carrier0.
Proof.
  split; [|split; [|split; [|split]]].
  - vm_compute. repeat split; discriminate.
  - apply bytes_check. vm_compute. reflexivity.
  - vm_compute. reflexivity.
  - apply bytes_check. vm_compute. reflexivity.
  - vm_compute. reflexivity.
Qed.

Lemma distribute_recover_witness :
  exists masked left shadows out,
    xorbmpwithrandomtable secret24 691 = Ok masked
    /\ formshadows 600 masked 2 3 691 = Ok (left, shadows)
    /\ length shadows = 3%nat
    /\ (forall i, (i < 3)%nat ->
          exists stego file,
            hideshadow (nth i [carrier0; carrier0; carrier0] secret24)
                       (nth i shadows secret24) = Ok stego
            /\ bmptofile false stego = Ok file
            /\ bmpfromfile true file = Some stego
            /\ retrieveshadow stego 8 3 2 = Ok (nth i shadows secret24))
    /\ revealsecret (choose secret24 shadows [2; 0]%nat) 8 3 2
       = Ok (set_imgpixels (newbitmap 8 3 691) out)
    /\ length out = length (imgpixels secret24)
    /\ (forall j, (j < length out)%nat ->
          nth j out 0
          = Z.lxor (nth j (imgpixels secret24) 0)
              (Z.lxor (nth j (imgpixels masked) 0)
                      (nth j (imgpixels left) 0)))
    /\ (imgpixels left = imgpixels masked -> out = imgpixels secret24).
Proof.
  apply (distribute_recover false true 600 secret24 2 3 691 12 3 4 8 3
           [2; 0]%nat [carrier0; carrier0; carrier0] secret24).
  - split; [apply bytes_check|]; reflexivity.
  - lia.
  - reflexivity.
  - cbn. lia.
  - reflexivity.
  - lia.
  - vm_compute. reflexivity.
  - unfold revealrange. cbn. lia.
  - reflexivity.
  - repeat constructor; cbn; intuition lia.
  - repeat constructor; lia.
  - reflexivity.
  - lia.
  - reflexivity.
  - assert (Hc : valid_bitmap carrier0
                 /\ (8 * 12 <= length (imgpixels carrier0))%nat).
    { split; [exact carrier0_valid|].
      apply Nat.leb_le. vm_compute. reflexivity. }
    repeat (apply Forall_cons; [exact Hc|]). apply Forall_nil.
Defined.

(** ** The mask does not depend on the image *)

Lemma filltable_prefix a : forall b rseed j,
  (j < a)%nat -> (a <= b)%nat ->
  nth j (filltable a rseed) 0 = nth j (filltable b rseed) 0.
Proof.
  induction a as [|a IH]; intros b rseed j Hj Hab; [lia|].
  destruct b as [|b]; [lia|]. cbn [filltable].
  destruct (nextbyte rseed) as [rseed' v].
  destruct j as [|j]; [reflexivity|]. cbn [nth]. apply IH; lia.
Qed.

Lemma randomtable_prefix a b seed j :
  (j < Z.to_nat a)%nat -> (j < Z.to_nat b)%nat ->
  nth j (randomtable a seed) 0 = nth j (randomtable b seed) 0.
Proof.
  intros Ha Hb. unfold randomtable.
  destruct (Nat.le_ge_cases (Z.to_nat a) (Z.to_nat b)) as [H|H].
  - apply filltable_prefix; assumption.
  - symmetry. apply filltable_prefix; assumption.
Qed.

(** X25. The mask is the stream of the generator for the seed, whatever
    the image is: two bitmaps masked with the same seed differ, pixel by
    pixel, exactly as the bitmaps themselves differ. *)
Theorem mask_seed_reuse (bp1 bp2 : Bitmap) (seed : Z) :
  wf_bitmap bp1 -> wf_bitmap bp2 ->
  exists m1 m2,
    xorbmpwithrandomtable bp1 seed = Ok m1
    /\ xorbmpwithrandomtable bp2 seed = Ok m2
    /\ forall j, (j < length (imgpixels bp1))%nat ->
                 (j < length (imgpixels bp2))%nat ->
         Z.lxor (nth j (imgpixels m1) 0) (nth j (imgpixels m2) 0)
         = Z.lxor (nth j (imgpixels bp1) 0) (nth j (imgpixels bp2) 0).
Proof.
  intros Hw1 Hw2.
  destruct (xorbmp_run bp1 seed Hw1) as (px1 & H1 & L1 & _ & N1).
  destruct (xorbmp_run bp2 seed Hw2) as (px2 & H2 & L2 & _ & N2).
  eexists. eexists. split; [exact H1|]. split; [exact H2|].
  intros j J1 J2. cbn [imgpixels set_imgpixels].
  rewrite N1, N2 by lia.
  destruct Hw1 as [_ S1], Hw2 as [_ S2].
  rewrite (randomtable_prefix (bmpimagesize bp1) (bmpimagesize bp2) seed j)
    by lia.
  set (t := nth j (randomtable (bmpimagesize bp2) seed) 0).
  set (p := nth j (imgpixels bp1) 0). set (q := nth j (imgpixels bp2) 0).
  rewrite (Z.lxor_comm q t), Z.lxor_assoc, <- (Z.lxor_assoc t t q).
  rewrite Z.lxor_nilpotent, Z.lxor_0_l. reflexivity.
Qed.

Lemma mask_seed_reuse_witness :
  exists m1 m2,
    xorbmpwithrandomtable secret24 691 = Ok m1
    /\ xorbmpwithrandomtable carrier0 691 = Ok m2
    /\ forall j, (j < length (imgpixels secret24))%nat ->
                 (j < length (imgpixels carrier0))%nat ->
         Z.lxor (nth j (imgpixels m1) 0) (nth j (imgpixels m2) 0)
         = Z.lxor (nth j (imgpixels secret24) 0)
                  (nth j (imgpixels carrier0) 0).
Proof.
  apply (mask_seed_reuse secret24 carrier0 691).
  - split; [apply bytes_check|]; vm_compute; reflexivity.
  - split; [apply bytes_check|]; vm_compute; reflexivity.
Defined.

(** ** Buffers that are too small *)

Lemma bind_undefined {A B} (m : result A) (f : A -> result B) :
  m <> OutOfFuel -> (forall a, m = Ok a -> f a = Undefined) ->
  bind m f = Undefined.
Proof.
  intros Hm Hf. destruct m as [a| |]; cbn [bind];
    [apply Hf; reflexivity | reflexivity | contradiction].
Qed.

Lemma store_outside {A} (l : list A) : forall i v,
  (length l <= i)%nat -> store l i v = Undefined.
Proof.
  induction l as [|h t IH]; intros [|i] v Hi; cbn [store length] in *;
    try reflexivity; try lia.
  rewrite IH by lia. reflexivity.
Qed.

Lemma load_outside {A} (l : list A) i :
  (length l <= i)%nat -> load l i = Undefined.
Proof.
  intros Hi. unfold load.
  replace (nth_error l i) with (@None A); [reflexivity|].
  symmetry. apply nth_error_None. exact Hi.
Qed.

Lemma for_dn_fuel {S} (body : nat -> S -> result S) :
  (forall i s, body i s <> OutOfFuel) ->
  forall cnt lo s, for_dn cnt lo body s <> OutOfFuel.
Proof.
  intros Hb. induction cnt as [|c IH]; intros lo s; cbn [for_dn].
  - discriminate.
  - apply bind_fuel; [apply Hb | intros; apply IH].
Qed.

Lemma for_down_fuel {S} (body : nat -> S -> result S) hi lo s :
  (forall i s, body i s <> OutOfFuel) -> for_down hi lo body s <> OutOfFuel.
Proof. intros H. apply for_dn_fuel. assumption. Qed.

Lemma mget_fuel mat i t : mget mat i t <> OutOfFuel.
Proof.
  unfold mget. apply bind_fuel; [apply load_fuel | intros; apply load_fuel].
Qed.

Lemma mset_fuel mat i t v : mset mat i t v <> OutOfFuel.
Proof.
  unfold mset. apply bind_fuel; [apply load_fuel|]. intros row.
  apply bind_fuel; [apply store_fuel | intros; apply store_fuel].
Qed.

Lemma modinv_at_fuel v : modinv_at v <> OutOfFuel.
Proof. unfold modinv_at. destruct (v <? 0); [discriminate | apply load_fuel]. Qed.

Lemma findcoefficients_fuel mat k : findcoefficients mat k <> OutOfFuel.
Proof.
  unfold findcoefficients. destruct (k =? 0)%nat; [discriminate|].
  apply bind_fuel.
  - unfold echelon. apply for_fuel. intros j m.
    apply for_down_fuel. intros i m'. unfold eliminate.
    apply bind_fuel; [apply mget_fuel|]. intros mij.
    apply bind_fuel; [apply mget_fuel|]. intros piv.
    apply bind_fuel; [apply modinv_at_fuel|]. intros inv.
    apply for_fuel. intros t m2.
    apply bind_fuel; [apply mget_fuel|]. intros mit.
    apply bind_fuel; [apply mget_fuel|]. intros mpt. apply mset_fuel.
  - intros m. unfold reduce. apply for_down_fuel. intros i m'.
    unfold substitute.
    apply bind_fuel; [apply mget_fuel|]. intros mik.
    apply bind_fuel; [apply mget_fuel|]. intros mii.
    apply bind_fuel; [apply modinv_at_fuel|]. intros inv.
    apply bind_fuel; [apply mset_fuel|]. intros m1.
    apply bind_fuel; [apply mget_fuel|]. intros mii'.
    apply bind_fuel; [apply modinv_at_fuel|]. intros inv'.
    apply bind_fuel; [apply mset_fuel|]. intros m2.
    apply for_down_fuel. intros t1 m3.
    apply bind_fuel; [apply mget_fuel|]. intros mtk.
    apply bind_fuel; [apply mget_fuel|]. intros mik'.
    apply bind_fuel; [apply mget_fuel|]. intros mti.
    apply bind_fuel; [apply mset_fuel|]. intros m4. apply mset_fuel.
Qed.

Lemma fillmatrix_fuel shadows k i mat : fillmatrix shadows k i mat <> OutOfFuel.
Proof.
  unfold fillmatrix. apply for_fuel. intros j m.
  apply bind_fuel; [apply load_fuel|]. intros sp. unfold fillrow.
  apply bind_fuel; [apply mset_fuel|]. intros m1.
  apply bind_fuel.
  - apply for_fuel. intros t [m2 value].
    apply bind_fuel; [apply mset_fuel | discriminate].
  - intros [m2 value].
    apply bind_fuel; [apply load_fuel | intros; apply mset_fuel].
Qed.

(** X26. [revealsecret] does not check that the shadows fit the width and
    the height it is given: when the pixel array of the new bitmap is
    smaller than [k] times the pixel array size of the first shadow, it
    writes past the end of the new bitmap, which is undefined behaviour. *)
Theorem revealsecret_small_bitmap (first : Bitmap) (rest : list Bitmap)
        (width height : Z) (k : nat) :
  (1 <= k)%nat ->
  calculatepixelarraysize width height
  < DIBheader.pixelarraysize (dibheader first) * Z.of_nat k ->
  revealsecret (first :: rest) width height k = Undefined.
Proof.
  intros Hk Hsmall. unfold revealsecret. cbn [load nth_error bind].
  set (shadows := first :: rest).
  set (pixels := DIBheader.pixelarraysize (dibheader first)) in *.
  set (seed := BMPheader.unused1 (bmpheader first)).
  set (L := length (imgpixels (newbitmap width height seed))).
  assert (HL : Z.of_nat L = calculatepixelarraysize width height).
  { unfold L, newbitmap, newbitmaphelper, xmalloc. cbn [imgpixels].
    rewrite repeat_length.
    pose proof (u32_range (u32 (u32 (u32 (BITS_PER_PIXEL * width) + 31)
                                 / 32 * 4) * u32 height)) as Hr.
    unfold calculatepixelarraysize. lia. }
  set (j0 := (L / k)%nat).
  assert (Hdiv : (j0 * k <= L < (j0 + 1) * k)%nat).
  { pose proof (Nat.div_mod_eq L k) as Hd.
    pose proof (Nat.mod_upper_bound L k ltac:(lia)) as Hm.
    fold j0 in Hd. nia. }
  assert (Hj0 : (j0 < Z.to_nat pixels)%nat).
  { assert (H1 : Z.of_nat j0 * Z.of_nat k <= Z.of_nat L) by lia.
    assert (H2 : Z.of_nat j0 < pixels).
    { apply Z.nle_gt. intros Hc.
      assert (pixels * Z.of_nat k <= Z.of_nat j0 * Z.of_nat k)
        by (apply Z.mul_le_mono_nonneg_r; lia).
      lia. }
    lia. }
  rewrite (for_undefined
             (fun (_ : nat) (st : matrix * list Z) => length (snd st) = L)
             _ 0 _ j0); [reflexivity | | reflexivity | lia |].
  - intros [mat px] Hpx. cbn [snd] in Hpx.
    apply bind_undefined; [apply fillmatrix_fuel|]. intros m1 _.
    apply bind_undefined; [apply findcoefficients_fuel|]. intros m2 _.
    rewrite (for_undefined (fun (_ : nat) (p : list Z) => length p = L)
               _ _ _ L); [reflexivity | | assumption | lia |].
    + intros p Hp. apply bind_undefined; [apply mget_fuel|]. intros v _.
      apply store_outside. lia.
    + intros j p Hj Hp. split.
      * apply bind_fuel; [apply mget_fuel | intros; apply store_fuel].
      * intros p' H. inv_bind H. apply store_Ok in H as [_ ->].
        rewrite length_upd. assumption.
  - intros i [mat px] Hi Hpx. cbn [snd] in Hpx. split.
    + apply bind_fuel; [apply fillmatrix_fuel|]. intros m1.
      apply bind_fuel; [apply findcoefficients_fuel|]. intros m2.
      apply bind_fuel; [|discriminate].
      apply for_fuel. intros j p.
      apply bind_fuel; [apply mget_fuel | intros; apply store_fuel].
    + intros [mat' px'] H. inv_bind H. injection H as _ <-. cbn [snd].
      apply (for_run (fun (_ : nat) (p : list Z) => length p = L)
               _ _ _ _ _ (Nat.mul_le_mono_r i (i + 1) k ltac:(lia)) Ha1 Hpx).
      intros j p p' Hj Hp Hb. inv_bind Hb. apply store_Ok in Hb as [_ ->].
      rewrite length_upd. assumption.
Qed.

Lemma revealsecret_small_bitmap_witness :
  revealsecret [shadow0; shadow0] 4 5 2 = Undefined.
Proof.
  apply (revealsecret_small_bitmap shadow0 [shadow0] 4 5 2).
  - lia.
  - vm_compute. reflexivity.
Defined.

(** X27. [retrieveshadow] does not check the size of the carrier either:
    when the carrier has fewer than eight bytes for each pixel of the
    shadow it allocates, it reads past the end of the carrier's pixels,
    which is undefined behaviour. *)
Theorem retrieveshadow_small_carrier (bp : Bitmap) (width height : Z)
        (k : nat) :
  k <> 0%nat ->
  8 * retrievedsize width height k < 2 ^ 32 ->
  Z.of_nat (length (imgpixels bp)) < 8 * retrievedsize width height k ->
  retrieveshadow bp width height k = Undefined.
Proof.
  intros Hk H32 Hsmall. unfold retrieveshadow, retrievedsize in *.
  destruct (Nat.eqb_spec k 0) as [|_]; [contradiction|].
  destruct (match findclosestpair _ with Some wh => wh | None => _ end)
    as [w h].
  cbv zeta.
  set (sh := newshadow w h (BMPheader.unused1 (bmpheader bp))
                       (BMPheader.unused2 (bmpheader bp))).
  change (DIBheader.pixelarraysize (dibheader sh)) with (u32 (w * u32 h)).
  set (R := u32 (w * u32 h)) in *.
  set (L := length (imgpixels bp)) in *.
  set (i0 := (L / 8)%nat).
  assert (Hdiv : (i0 * 8 <= L < (i0 + 1) * 8)%nat).
  { pose proof (Nat.div_mod_eq L 8) as Hd.
    pose proof (Nat.mod_upper_bound L 8 ltac:(lia)) as Hm.
    fold i0 in Hd. lia. }
  apply bind_undefined.
  - apply for_fuel. intros i px.
    apply bind_fuel; [|intros [b m]; apply store_fuel].
    apply for_fuel. intros j [b m].
    apply bind_fuel; [apply load_fuel | discriminate].
  - intros px Hrun. exfalso.
    rewrite (for_undefined (fun (_ : nat) (_ : list Z) => True)
               _ 0 _ i0) in Hrun; [discriminate | | exact I | lia |].
    + intros p _. apply bind_undefined.
      * apply for_fuel. intros j [b m].
        apply bind_fuel; [apply load_fuel | discriminate].
      * intros [b m] Hin. exfalso.
        rewrite !u32_small in Hin by lia.
        rewrite (for_undefined (fun (_ : nat) (_ : Z * Z) => True)
                   _ _ _ L) in Hin; [discriminate | | exact I | lia |].
        -- intros [b' m'] _. rewrite load_outside by lia. reflexivity.
        -- intros j [b' m'] _ _. split; [|trivial].
           apply bind_fuel; [apply load_fuel | discriminate].
    + intros i p _ _. split; [|trivial].
      apply bind_fuel; [|intros [b m]; apply store_fuel].
      apply for_fuel. intros j [b m].
      apply bind_fuel; [apply load_fuel | discriminate].
Qed.

Lemma retrieveshadow_small_carrier_witness :
  retrieveshadow secret24 4 9 3 = Undefined.
Proof.
  apply (retrieveshadow_small_carrier secret24 4 9 3).
  - discriminate.
  - vm_compute. reflexivity.
  - vm_compute. reflexivity.
Defined.
